(** * A shallow embedding of the didactic AES implementation

    The Go packages [matrix], [aes] and [blockcipher] are embedded as
    Rocq modules of the same names.

    Conventions of the embedding:
    - a Go [byte] is a [Z] in [[0, 256)], a [Word] (uint32) a [Z] in
      [[0, 2^32)], a Go [int] a [Z] in [[-2^63, 2^63)]; every conversion
      and every shift that can overflow has its wrap-around written out;
    - slices and arrays are lists; loop counters, lengths and slice indices
      are [nat];
    - a Go function that can panic (an explicit [panic], an index out of
      range, a slice-to-array conversion of a short slice, a division by
      zero) returns in the error monad [M]; [None] stands for the panic;
    - the [for] loop of [Mod], which the code does not bound, takes fuel. *)

From Stdlib Require Import ZArith List Bool Lia ZifyNat Morphisms Btauto.
From coqutil Require Import Z.bitblast.
From AAC_tactics Require Import AAC.
Import ListNotations.

(** ** The error monad and Go's slice primitives *)

Definition M (A : Type) : Type := option A.

Definition ret {A : Type} (a : A) : M A := Some a.

Definition panic {A : Type} : M A := None.

Definition bind {A B : Type} (m : M A) (k : A -> M B) : M B :=
  match m with
  | Some a => k a
  | None => None
  end.

Notation "x <- m ;; k" := (bind m (fun x => k))
  (at level 61, m at next level, right associativity).

(** [for _, a := range l { s = f(s, a) }] with a body that may panic. *)
Fixpoint foldM {S A : Type} (f : S -> A -> M S) (l : list A) (s : S) : M S :=
  match l with
  | [] => ret s
  | a :: l' => s' <- f s a ;; foldM f l' s'
  end.

(** [l[i]] as an expression. *)
Definition index {A : Type} (l : list A) (i : nat) : M A := nth_error l i.

Fixpoint set_nth {A : Type} (l : list A) (i : nat) (v : A) : list A :=
  match l, i with
  | [], _ => []
  | _ :: l', O => v :: l'
  | a :: l', S i' => a :: set_nth l' i' v
  end.

(** [l[i] = v] as a statement. *)
Definition store {A : Type} (l : list A) (i : nat) (v : A) : M (list A) :=
  if i <? length l then ret (set_nth l i v) else panic.

(** [m[r][c]] and [m[r][c] = v]. *)
Definition index2 {A : Type} (m : list (list A)) (r c : nat) : M A :=
  row <- index m r ;; index row c.

Definition store2 {A : Type} (m : list (list A)) (r c : nat) (v : A)
  : M (list (list A)) :=
  row <- index m r ;; row' <- store row c v ;; store m r row'.

(** [l[i:]] and [l[:i]]. *)
Definition slice_from {A : Type} (l : list A) (i : nat) : M (list A) :=
  if i <=? length l then ret (skipn i l) else panic.

Definition slice_to {A : Type} (l : list A) (i : nat) : M (list A) :=
  if i <=? length l then ret (firstn i l) else panic.

(** [l[a:b]]. *)
Definition slice {A : Type} (l : list A) (a b : nat) : M (list A) :=
  if (a <=? b) && (b <=? length l) then ret (firstn (b - a) (skipn a l))
  else panic.

(** [a % b] on non-negative ints; Go panics on a zero divisor. *)
Definition modM (a b : nat) : M nat :=
  if b =? 0 then panic else ret (a mod b).

(** [make([]T, n)] for a numeric [T]. *)
Definition make (n : nat) : list Z := repeat 0%Z n.

(** ** Machine integers *)

Definition is_byte (z : Z) : Prop := (0 <= z < 256)%Z.
Definition is_word (z : Z) : Prop := (0 <= z < 2 ^ 32)%Z.
Definition is_int (z : Z) : Prop := (- 2 ^ 63 <= z < 2 ^ 63)%Z.

(** Conversions [byte(x)], [uint16(x)], [uint32(x)], [uint(x)], [int(x)]. *)
Definition to_byte (z : Z) : Z := (z mod 256)%Z.
Definition to_uint16 (z : Z) : Z := (z mod 2 ^ 16)%Z.
Definition to_uint32 (z : Z) : Z := (z mod 2 ^ 32)%Z.
Definition to_uint (z : Z) : Z := (z mod 2 ^ 64)%Z.
Definition to_int (z : Z) : Z := ((z + 2 ^ 63) mod 2 ^ 64 - 2 ^ 63)%Z.

(** [bits.Len(x)] of an unsigned [x]: the number of bits needed to write it. *)
Definition bits_Len (u : Z) : Z :=
  if (u =? 0)%Z then 0%Z else (Z.log2 u + 1)%Z.

(** A constant table indexed by a byte. *)
Definition lookup (table : list Z) (i : Z) : Z := nth (Z.to_nat i) table 0%Z.

(** ** Package matrix *)

Module matrix.

Definition Vector : Type := list Z.
Definition Matrix : Type := list Vector.

Definition NewVector (n : Z) : Vector :=
  let mask := to_byte 0xff in
  [ to_byte (Z.shiftr n 24);
    Z.land (to_byte (Z.shiftr n 16)) mask;
    Z.land (to_byte (Z.shiftr n 8)) mask;
    Z.land (to_byte n) mask ].

Definition EmptyMatrix (columns rows : nat) : Matrix :=
  repeat (make columns) rows.

Definition ColumnVector (m : Matrix) (idx : nat) : M Vector :=
  let columnLength := length m in
  foldM (fun v i => x <- index2 m i idx ;; store v i x)
        (seq 0 columnLength) (make columnLength).

Definition RowVector (m : Matrix) (idx : nat) : M Vector := index m idx.

Definition SetColumn (m : Matrix) (column : Vector) (idx : nat) : M Matrix :=
  let size := length m in
  m0 <- index m 0 ;;
  if length m0 <? idx then panic
  else if negb (length column =? size) then panic
  else foldM (fun m i => x <- index column i ;; store2 m i idx x)
             (seq 0 size) m.

Definition XOR (a b : Vector) : M Vector :=
  let size := length a in
  if negb (length b =? size) then panic
  else foldM (fun out i =>
                bi <- index b i ;;
                j <- modM i size ;;
                aj <- index a j ;;
                store out i (Z.lxor bi aj))
             (seq 0 (length b)) (make size).

(** [len(bytes)/columns] panics on a zero [columns]. *)
Definition NewMatrix (bytes : list Z) (columns : nat) : M Matrix :=
  if columns =? 0 then panic
  else foldM (fun out i =>
                row <- slice bytes (i * columns) (i * columns + columns) ;;
                ret (out ++ [row]))
             (seq 0 (length bytes / columns)) [].

(** The method [Matrix.Transpose]. *)
Definition Transpose (m : Matrix) : M Matrix :=
  m0 <- index m 0 ;;
  foldM (fun out i =>
           let out := out ++ [make (length m)] in
           foldM (fun out j => x <- index2 m j i ;; store2 out i j x)
                 (seq 0 (length m0)) out)
        (seq 0 (length m)) [].

(** [SetRow] replaces a row in place. *)
Definition SetRow (m : Matrix) (row : Vector) (idx : nat) : M Matrix :=
  let size := length m in
  if size <? idx then panic
  else m0 <- index m 0 ;;
       if negb (length row =? length m0) then panic
       else store m idx row.

End matrix.

(** ** Package aes *)

Module aes.
Import matrix.

Definition Word : Type := Z.
Definition Key : Type := list Word.
Definition Block : Type := list Z.

(** [numColumns] is FIPS-197's Nb. *)
Definition numColumns : nat := 4.

(** [poly] is x^8 + x^4 + x^3 + x + 1. *)
Definition poly : Z :=
  Z.lor (Z.shiftl 1 8)
    (Z.lor (Z.shiftl 1 4) (Z.lor (Z.shiftl 1 3) (Z.lor (Z.shiftl 1 1) (Z.shiftl 1 0)))).

(** *** field.go *)

Definition degree (a : Z) : Z :=
  if (a =? 0)%Z then (-1)%Z else bits_Len (to_uint a).

(** One iteration of the loop of [Mod]. *)
Definition Mod_step (divisor remainder : Z) : Z :=
  let distance := (degree remainder - degree divisor)%Z in
  let shiftedDivisor := to_int (Z.shiftl divisor distance) in
  Z.lxor remainder shiftedDivisor.

Definition Mod_guard (divisor remainder : Z) : bool :=
  negb (remainder =? 0)%Z && (degree divisor <=? degree remainder)%Z.

(** The loop of [Mod], run for at most [fuel] evaluations of its guard;
    [None] when the fuel does not suffice. *)
Fixpoint Mod_loop (fuel : nat) (divisor remainder : Z) : option Z :=
  match fuel with
  | O => None
  | S fuel' =>
      if Mod_guard divisor remainder
      then Mod_loop fuel' divisor (Mod_step divisor remainder)
      else Some remainder
  end.

Definition Mod_fuel (fuel : nat) (dividend divisor : Z) : option Z :=
  Mod_loop fuel divisor dividend.

(** The remainder loses a bit on every iteration (see [Mod_terminates]),
    so 65 evaluations of the guard decide any call on 64-bit ints that
    returns at all. *)
Definition Mod (dividend divisor : Z) : M Z := Mod_fuel 65 dividend divisor.

(** [1 << i] on a Go int; both callers pass a non-negative count. *)
Definition Exp2 (i : nat) : Z := to_int (Z.shiftl 1 (Z.of_nat i)).

Definition Xtime (a : Z) : Z :=
  let mask := 128%Z in
  let maskT := to_byte mask in
  let is7Set := (0 <? Z.land a maskT)%Z in
  let temp := to_uint16 (to_byte (Z.shiftl a 1)) in
  let temp := if is7Set then Z.lxor temp poly else temp in
  let outputMask := to_byte 255 in
  Z.land (to_byte temp) outputMask.

Definition Multiply (a b : Z) : Z :=
  fst (fold_left
         (fun '(reduction, intermediateXtime) i =>
            let mask := to_byte (Exp2 i) in
            let isPositive := (0 <? Z.land b mask)%Z in
            let reduction :=
              if isPositive then Z.lxor reduction intermediateXtime
              else reduction in
            (reduction, Xtime intermediateXtime))
         (seq 0 (Z.to_nat (bits_Len (to_uint b))))
         (0%Z, a)).

Definition DotProduct (a b : Vector) : M Z :=
  if negb (length a =? length b) then panic
  else foldM (fun out i =>
                ai <- index a i ;;
                bi <- index b i ;;
                ret (Z.lxor out (Multiply ai bi)))
             (seq 0 (length a)) 0%Z.

(** *** Constant tables *)

(** Modelled from the spec: the forward S-box, whose declaration is not
    among the sources; "S-boxes are constant 256-byte tables reproducing
    FIPS-197 Fig. 7 and Fig. 14". *)
Definition sbox : list Z :=
  [ 0x63; 0x7c; 0x77; 0x7b; 0xf2; 0x6b; 0x6f; 0xc5; 0x30; 0x01; 0x67; 0x2b; 0xfe; 0xd7; 0xab; 0x76;
    0xca; 0x82; 0xc9; 0x7d; 0xfa; 0x59; 0x47; 0xf0; 0xad; 0xd4; 0xa2; 0xaf; 0x9c; 0xa4; 0x72; 0xc0;
    0xb7; 0xfd; 0x93; 0x26; 0x36; 0x3f; 0xf7; 0xcc; 0x34; 0xa5; 0xe5; 0xf1; 0x71; 0xd8; 0x31; 0x15;
    0x04; 0xc7; 0x23; 0xc3; 0x18; 0x96; 0x05; 0x9a; 0x07; 0x12; 0x80; 0xe2; 0xeb; 0x27; 0xb2; 0x75;
    0x09; 0x83; 0x2c; 0x1a; 0x1b; 0x6e; 0x5a; 0xa0; 0x52; 0x3b; 0xd6; 0xb3; 0x29; 0xe3; 0x2f; 0x84;
    0x53; 0xd1; 0x00; 0xed; 0x20; 0xfc; 0xb1; 0x5b; 0x6a; 0xcb; 0xbe; 0x39; 0x4a; 0x4c; 0x58; 0xcf;
    0xd0; 0xef; 0xaa; 0xfb; 0x43; 0x4d; 0x33; 0x85; 0x45; 0xf9; 0x02; 0x7f; 0x50; 0x3c; 0x9f; 0xa8;
    0x51; 0xa3; 0x40; 0x8f; 0x92; 0x9d; 0x38; 0xf5; 0xbc; 0xb6; 0xda; 0x21; 0x10; 0xff; 0xf3; 0xd2;
    0xcd; 0x0c; 0x13; 0xec; 0x5f; 0x97; 0x44; 0x17; 0xc4; 0xa7; 0x7e; 0x3d; 0x64; 0x5d; 0x19; 0x73;
    0x60; 0x81; 0x4f; 0xdc; 0x22; 0x2a; 0x90; 0x88; 0x46; 0xee; 0xb8; 0x14; 0xde; 0x5e; 0x0b; 0xdb;
    0xe0; 0x32; 0x3a; 0x0a; 0x49; 0x06; 0x24; 0x5c; 0xc2; 0xd3; 0xac; 0x62; 0x91; 0x95; 0xe4; 0x79;
    0xe7; 0xc8; 0x37; 0x6d; 0x8d; 0xd5; 0x4e; 0xa9; 0x6c; 0x56; 0xf4; 0xea; 0x65; 0x7a; 0xae; 0x08;
    0xba; 0x78; 0x25; 0x2e; 0x1c; 0xa6; 0xb4; 0xc6; 0xe8; 0xdd; 0x74; 0x1f; 0x4b; 0xbd; 0x8b; 0x8a;
    0x70; 0x3e; 0xb5; 0x66; 0x48; 0x03; 0xf6; 0x0e; 0x61; 0x35; 0x57; 0xb9; 0x86; 0xc1; 0x1d; 0x9e;
    0xe1; 0xf8; 0x98; 0x11; 0x69; 0xd9; 0x8e; 0x94; 0x9b; 0x1e; 0x87; 0xe9; 0xce; 0x55; 0x28; 0xdf;
    0x8c; 0xa1; 0x89; 0x0d; 0xbf; 0xe6; 0x42; 0x68; 0x41; 0x99; 0x2d; 0x0f; 0xb0; 0x54; 0xbb; 0x16 ]%Z.

(** Modelled from the spec: the inverse S-box (FIPS-197 Fig. 14), whose
    declaration is not among the sources. *)
Definition sboxInverse : list Z :=
  [ 0x52; 0x09; 0x6a; 0xd5; 0x30; 0x36; 0xa5; 0x38; 0xbf; 0x40; 0xa3; 0x9e; 0x81; 0xf3; 0xd7; 0xfb;
    0x7c; 0xe3; 0x39; 0x82; 0x9b; 0x2f; 0xff; 0x87; 0x34; 0x8e; 0x43; 0x44; 0xc4; 0xde; 0xe9; 0xcb;
    0x54; 0x7b; 0x94; 0x32; 0xa6; 0xc2; 0x23; 0x3d; 0xee; 0x4c; 0x95; 0x0b; 0x42; 0xfa; 0xc3; 0x4e;
    0x08; 0x2e; 0xa1; 0x66; 0x28; 0xd9; 0x24; 0xb2; 0x76; 0x5b; 0xa2; 0x49; 0x6d; 0x8b; 0xd1; 0x25;
    0x72; 0xf8; 0xf6; 0x64; 0x86; 0x68; 0x98; 0x16; 0xd4; 0xa4; 0x5c; 0xcc; 0x5d; 0x65; 0xb6; 0x92;
    0x6c; 0x70; 0x48; 0x50; 0xfd; 0xed; 0xb9; 0xda; 0x5e; 0x15; 0x46; 0x57; 0xa7; 0x8d; 0x9d; 0x84;
    0x90; 0xd8; 0xab; 0x00; 0x8c; 0xbc; 0xd3; 0x0a; 0xf7; 0xe4; 0x58; 0x05; 0xb8; 0xb3; 0x45; 0x06;
    0xd0; 0x2c; 0x1e; 0x8f; 0xca; 0x3f; 0x0f; 0x02; 0xc1; 0xaf; 0xbd; 0x03; 0x01; 0x13; 0x8a; 0x6b;
    0x3a; 0x91; 0x11; 0x41; 0x4f; 0x67; 0xdc; 0xea; 0x97; 0xf2; 0xcf; 0xce; 0xf0; 0xb4; 0xe6; 0x73;
    0x96; 0xac; 0x74; 0x22; 0xe7; 0xad; 0x35; 0x85; 0xe2; 0xf9; 0x37; 0xe8; 0x1c; 0x75; 0xdf; 0x6e;
    0x47; 0xf1; 0x1a; 0x71; 0x1d; 0x29; 0xc5; 0x89; 0x6f; 0xb7; 0x62; 0x0e; 0xaa; 0x18; 0xbe; 0x1b;
    0xfc; 0x56; 0x3e; 0x4b; 0xc6; 0xd2; 0x79; 0x20; 0x9a; 0xdb; 0xc0; 0xfe; 0x78; 0xcd; 0x5a; 0xf4;
    0x1f; 0xdd; 0xa8; 0x33; 0x88; 0x07; 0xc7; 0x31; 0xb1; 0x12; 0x10; 0x59; 0x27; 0x80; 0xec; 0x5f;
    0x60; 0x51; 0x7f; 0xa9; 0x19; 0xb5; 0x4a; 0x0d; 0x2d; 0xe5; 0x7a; 0x9f; 0x93; 0xc9; 0x9c; 0xef;
    0xa0; 0xe0; 0x3b; 0x4d; 0xae; 0x2a; 0xf5; 0xb0; 0xc8; 0xeb; 0xbb; 0x3c; 0x83; 0x53; 0x99; 0x61;
    0x17; 0x2b; 0x04; 0x7e; 0xba; 0x77; 0xd6; 0x26; 0xe1; 0x69; 0x14; 0x63; 0x55; 0x21; 0x0c; 0x7d ]%Z.

(** Modelled from the spec: the rows of the forward mixing matrix,
    "{02,03,01,01}, {01,02,03,01}, {01,01,02,03}, {03,01,01,02}"; the
    declaration is not among the sources. *)
Definition mixColumnPolynomials : Matrix :=
  [ [2; 3; 1; 1]; [1; 2; 3; 1]; [1; 1; 2; 3]; [3; 1; 1; 2] ]%Z.

(** Modelled from the spec: the rows of the inverse mixing matrix,
    "{0e,0b,0d,09}, {09,0e,0b,0d}, {0d,09,0e,0b}, {0b,0d,09,0e}". *)
Definition mixColumnPolynomialsInverse : Matrix :=
  [ [0x0e; 0x0b; 0x0d; 0x09]; [0x09; 0x0e; 0x0b; 0x0d];
    [0x0d; 0x09; 0x0e; 0x0b]; [0x0b; 0x0d; 0x09; 0x0e] ]%Z.

(** *** aes.go: words *)

Definition Word_Vector (w : Word) : Vector :=
  let mask := to_byte 0xff in
  [ to_byte (Z.shiftr w 24);
    Z.land (to_byte (Z.shiftr w 16)) mask;
    Z.land (to_byte (Z.shiftr w 8)) mask;
    Z.land (to_byte w) mask ].

Definition Words (bytes : list Z) : M (list Word) :=
  let l := length bytes in
  foldM (fun key i =>
           b0 <- index bytes (4 * i) ;;
           b1 <- index bytes (4 * i + 1) ;;
           b2 <- index bytes (4 * i + 2) ;;
           b3 <- index bytes (4 * i + 3) ;;
           let word :=
             Z.lor (Z.lor (Z.lor (to_uint32 (Z.shiftl b0 24))
                                 (to_uint32 (Z.shiftl b1 16)))
                          (to_uint32 (Z.shiftl b2 8)))
                   b3 in
           store key i word)
        (seq 0 (length bytes / 4)) (make (l / 4)).

Definition SubstituteWord (w : Word) : Word :=
  fold_left
    (fun out i =>
       let shift := Z.of_nat (32 - 8 * i) in
       let idx := Z.land (Z.shiftr w shift) 0xff in
       let substitution := to_uint32 (Z.shiftl (lookup sbox idx) shift) in
       Z.lor out substitution)
    (seq 1 4) 0%Z.

Definition RotateWord (w : Word) : Word :=
  Z.lor (to_uint32 (Z.shiftl w 8)) (Z.shiftr w 24).

(** Go panics on the negative shift count of [Exp2(round)]. *)
Definition Rcon (round : Z) : M Word :=
  if (round <? 0)%Z then panic
  else r <- Mod (Exp2 (Z.to_nat round)) poly ;;
       ret (to_uint32 (Z.shiftl (to_uint32 r) 24)).

(** *** key.go *)

Definition NewKey (bytes : list Z) : M (list Word) :=
  let l := length bytes in
  if (l =? 16) || (l =? 24) || (l =? 32) then Words bytes else panic.

Definition expandKey (key : Key) (numRounds wordsInKey numColumns : nat)
  : M (list Word) :=
  let out := make (numColumns * (numRounds + 1)) in
  out <- foldM (fun out i => k <- index key i ;; store out i k)
               (seq 0 wordsInKey) out ;;
  foldM (fun out i =>
           word <- (if i =? 0 then panic else index out (i - 1)) ;;
           r <- modM i wordsInKey ;;
           word <-
             (if r =? 0 then
                rc <- Rcon (Z.of_nat (i / wordsInKey) - 1) ;;
                ret (Z.lxor (SubstituteWord (RotateWord word)) rc)
              else
                if (6 <? numColumns) then
                  r' <- modM i numColumns ;;
                  if r' =? 4 then ret (SubstituteWord word) else ret word
                else ret word) ;;
           prev <- (if i <? wordsInKey then panic else index out (i - wordsInKey)) ;;
           store out i (Z.lxor prev word))
        (seq wordsInKey (numColumns * (numRounds + 1) - wordsInKey)) out.

(** *** aes.go: the cipher *)

Record Cipher : Type := mkCipher {
  key : Key;
  schedule : list Word;
  numRounds : nat
}.

Definition NewCipher (key : Key) : M Cipher :=
  let wordsInKey := length key in
  let numRounds := 6 + wordsInKey in
  schedule <- expandKey key numRounds wordsInKey numColumns ;;
  ret (mkCipher key schedule numRounds).

Definition parse (block : Block) : M Matrix :=
  foldM (fun out r =>
           foldM (fun out c =>
                    x <- index block (r + 4 * c) ;;
                    store2 out r c x)
                 (seq 0 4) out)
        (seq 0 4) (EmptyMatrix 4 4).

Definition addRoundKey (state : Matrix) (schedule : list Word) (round : nat)
  : M Matrix :=
  let numColumns := 4 in
  foldM (fun out i =>
           stateColumn <- ColumnVector state i ;;
           w <- index schedule (round * numColumns + i) ;;
           let wordVector := Word_Vector w in
           result <- XOR stateColumn wordVector ;;
           SetColumn out result i)
        (seq 0 numColumns) (EmptyMatrix 4 4).

(** The common shape of [subBytes] and [subBytesInverse]. *)
Definition substitute (table : list Z) (state : Matrix) : M Matrix :=
  foldM (fun out row =>
           srow <- index state row ;;
           foldM (fun out col =>
                    x <- index2 state row col ;;
                    store2 out row col (lookup table x))
                 (seq 0 (length srow)) out)
        (seq 0 (length state)) (EmptyMatrix 4 4).

Definition subBytes (state : Matrix) : M Matrix := substitute sbox state.

Definition subBytesInverse (state : Matrix) : M Matrix :=
  substitute sboxInverse state.

Definition shiftRows (state : Matrix) : M Matrix :=
  foldM (fun out i =>
           row <- index state i ;;
           hi <- slice_from row i ;;
           lo <- slice_to row i ;;
           store out i (([] ++ hi) ++ lo))
        (seq 0 4) (EmptyMatrix 4 4).

Definition shiftRowsInverse (state : Matrix) : M Matrix :=
  foldM (fun out i =>
           let pivot := 4 - i in
           row <- index state i ;;
           hi <- slice_from row pivot ;;
           lo <- slice_to row pivot ;;
           store out i (([] ++ hi) ++ lo))
        (seq 0 4) (EmptyMatrix 4 4).

Definition mixColumns (state polynomials : Matrix) : M Matrix :=
  foldM (fun out row =>
           srow <- index state row ;;
           foldM (fun out col =>
                    p <- RowVector polynomials row ;;
                    s <- ColumnVector state col ;;
                    d <- DotProduct p s ;;
                    store2 out row col d)
                 (seq 0 (length srow)) out)
        (seq 0 (length state)) (EmptyMatrix 4 4).

Definition matrixBlock (m : Matrix) : M Block :=
  foldM (fun out row =>
           mrow <- index m row ;;
           foldM (fun out col =>
                    let idx := row * 4 + col in
                    x <- index2 m col row ;;
                    store out idx x)
                 (seq 0 (length mrow)) out)
        (seq 0 (length m)) (make 16).

Definition Encrypt (c : Cipher) (block : Block) : M Block :=
  state <- parse block ;;
  state <- addRoundKey state (schedule c) 0 ;;
  state <- foldM (fun state round =>
                    state <- subBytes state ;;
                    state <- shiftRows state ;;
                    state <- mixColumns state mixColumnPolynomials ;;
                    addRoundKey state (schedule c) round)
                 (seq 1 (numRounds c - 1)) state ;;
  state <- subBytes state ;;
  state <- shiftRows state ;;
  state <- addRoundKey state (schedule c) (numRounds c) ;;
  matrixBlock state.

Definition Decrypt (c : Cipher) (block : Block) : M Block :=
  state <- parse block ;;
  state <- addRoundKey state (schedule c) (numRounds c) ;;
  state <- foldM (fun state round =>
                    state <- shiftRowsInverse state ;;
                    state <- subBytesInverse state ;;
                    state <- addRoundKey state (schedule c) round ;;
                    mixColumns state mixColumnPolynomialsInverse)
                 (rev (seq 1 (numRounds c - 1))) state ;;
  state <- shiftRowsInverse state ;;
  state <- subBytesInverse state ;;
  state <- addRoundKey state (schedule c) 0 ;;
  matrixBlock state.

(** *** The later revision of aes.go *)

Definition NewWord (bytes : list Z) : M Word :=
  if negb (length bytes =? 4) then panic
  else b0 <- index bytes 0 ;;
       b1 <- index bytes 1 ;;
       b2 <- index bytes 2 ;;
       b3 <- index bytes 3 ;;
       ret (Z.lor (Z.lor (Z.lor (to_uint32 (Z.shiftl b0 24))
                                (to_uint32 (Z.shiftl b1 16)))
                         (to_uint32 (Z.shiftl b2 8)))
                  b3).

Definition Words_v2 (bytes : list Z) : M (list Word) :=
  let l := length bytes in
  foldM (fun out i =>
           quad <- slice bytes (i * 4) (i * 4 + 4) ;;
           w <- NewWord quad ;;
           store out i w)
        (seq 0 (length bytes / 4)) (make (l / 4)).

Definition parse_v2 (block : Block) : M Matrix :=
  m <- NewMatrix block 4 ;; Transpose m.


End aes.

(** ** Package blockcipher *)

Module blockcipher.

Definition Block : Type := list Z.

(** The [Cipher] interface.  A method of a Go interface may panic, so
    both return in [M]. *)
Class Cipher (C : Type) : Type := {
  Encrypt : C -> Block -> M Block;
  Decrypt : C -> Block -> M Block
}.

(** The [Mode] interface.  The receivers are pointers and [ctr] updates
    its counter, so a method also returns the mode after the call. *)
Class Mode (T : Type) : Type := {
  mode_Encrypt : T -> list Z -> M (list Z * T);
  mode_Decrypt : T -> list Z -> M (list Z * T)
}.

(** The conversion [Block(s)] of a slice: its first 16 elements; Go
    panics when the slice is shorter. *)
Definition to_Block (s : list Z) : M Block :=
  if length s <? 16 then panic else ret (firstn 16 s).

Definition XOR (a b : list Z) : M (list Z) :=
  let size := length a in
  if negb (length b =? size) then panic
  else foldM (fun out i =>
                bi <- index b i ;;
                j <- modM i size ;;
                aj <- index a j ;;
                store out i (Z.lxor bi aj))
             (seq 0 (length b)) (make size).

Definition PadBytes (bytes : list Z) (length_ : Z) : list Z :=
  let pad := to_byte (length_ - Z.of_nat (length bytes)) in
  let rounds := (length_ - Z.of_nat (length bytes))%Z in
  fold_left (fun bytes _ => bytes ++ [pad]) (seq 0 (Z.to_nat rounds)) bytes.

(** The body of the loop of [Blockify] at index [i], where [x] is
    [bytes[i]]. *)
Definition Blockify_body (size : nat) (st : list Z * list Block)
  (ix : nat * Z) : M (list Z * list Block) :=
  let '(block, out) := st in
  let '(i, x) := ix in
  st <- (if (i mod 16 =? 0) && (0 <? i)
         then b <- to_Block block ;; ret (make size, out ++ [b])
         else ret (block, out)) ;;
  let '(block, out) := st in
  block <- store block (i mod 16) x ;;
  ret (block, out).

Definition Blockify (bytes : list Z) (size : nat) : M (list Block) :=
  r <- modM (length bytes) size ;;
  let bytes :=
    if 0 <? r then PadBytes bytes (Z.of_nat (length bytes / size + 1))
    else bytes in
  let block := make size in
  st <- foldM (Blockify_body size)
              (combine (seq 0 (length bytes)) bytes) (block, []) ;;
  let '(block, out) := st in
  b <- to_Block block ;;
  ret (out ++ [b]).

Definition NewBlock (bytes : list Z) : M Block :=
  if 16 <? length bytes then panic
  else foldM (fun block i => x <- index bytes i ;; store block i x)
             (seq 0 (length bytes)) (make 16).

Definition LittleEndian (i : Z) (wordLen : nat) : M (list Z) :=
  let bs := make wordLen in
  if wordLen <? 8 then panic
  else ret (map (fun k => to_byte (Z.shiftr i (8 * Z.of_nat k))) (seq 0 8)
            ++ skipn 8 bs).

Section Modes.
Context {C : Type} `{Cipher C}.

Record ecb : Type := mk_ecb { ecb_cipher : C }.

Definition NewECBMode (cipher : C) : ecb := mk_ecb cipher.

Definition doECB (crypt : Block -> M Block) (bytes : list Z) : M (list Z) :=
  blocks <- Blockify bytes 16 ;;
  foldM (fun out b => block <- crypt b ;; ret (out ++ block)) blocks [].

Definition ecb_Encrypt (e : ecb) (bytes : list Z) : M (list Z) :=
  doECB (Encrypt (ecb_cipher e)) bytes.

Definition ecb_Decrypt (e : ecb) (bytes : list Z) : M (list Z) :=
  doECB (Decrypt (ecb_cipher e)) bytes.

Record cbc : Type := mk_cbc { cbc_iv : Block; cbc_cipher : C }.

Definition NewCBCMode (cipher : C) (iv : Block) : cbc := mk_cbc iv cipher.

Definition cbc_Encrypt (c : cbc) (bytes : list Z) : M (list Z) :=
  blocks <- Blockify bytes 16 ;;
  st <- foldM (fun (st : list Z * Block) b =>
                 let '(out, prevBlock) := st in
                 x <- XOR b prevBlock ;;
                 xb <- to_Block x ;;
                 encrypted <- Encrypt (cbc_cipher c) xb ;;
                 ret (out ++ encrypted, encrypted))
              blocks ([], cbc_iv c) ;;
  ret (fst st).

Definition cbc_Decrypt (c : cbc) (bytes : list Z) : M (list Z) :=
  blocks <- Blockify bytes 16 ;;
  st <- foldM (fun (st : list Z * Block) b =>
                 let '(out, prevBlock) := st in
                 block <- Decrypt (cbc_cipher c) b ;;
                 decrypted <- XOR block prevBlock ;;
                 ret (out ++ decrypted, b))
              blocks ([], cbc_iv c) ;;
  ret (fst st).

Record ctr : Type := mk_ctr { ctr_nonce : Z; ctr_cipher : C }.

Definition NewCTRMode (cipher : C) : ctr := mk_ctr 0 cipher.

(** The body of the loop of [ctr.Encrypt] for the block [b]. *)
Definition ctr_body (st : list Z * ctr) (b : Block) : M (list Z * ctr) :=
  let '(out, c) := st in
  let nonce := [] in
  lo <- LittleEndian 0 8 ;;
  let nonce := nonce ++ lo in
  hi <- LittleEndian (to_uint 0) 8 ;;
  let nonce := nonce ++ hi in
  nb <- to_Block nonce ;;
  keystream <- Encrypt (ctr_cipher c) nb ;;
  encrypted <- foldM (fun encrypted i =>
                        k <- index keystream i ;;
                        x <- index b i ;;
                        store encrypted i (Z.lxor k x))
                     (seq 0 16) (make 16) ;;
  ret (out ++ encrypted, mk_ctr (to_int (ctr_nonce c + 1)) (ctr_cipher c)).

Definition ctr_Encrypt (c : ctr) (bytes : list Z) : M (list Z * ctr) :=
  blocks <- Blockify bytes 16 ;;
  foldM ctr_body blocks ([], c).

Definition ctr_Decrypt (c : ctr) (bytes : list Z) : M (list Z * ctr) :=
  ctr_Encrypt c bytes.

#[global] Instance ecb_Mode : Mode ecb := {
  mode_Encrypt e bytes := out <- ecb_Encrypt e bytes ;; ret (out, e);
  mode_Decrypt e bytes := out <- ecb_Decrypt e bytes ;; ret (out, e)
}.

#[global] Instance cbc_Mode : Mode cbc := {
  mode_Encrypt c bytes := out <- cbc_Encrypt c bytes ;; ret (out, c);
  mode_Decrypt c bytes := out <- cbc_Decrypt c bytes ;; ret (out, c)
}.

#[global] Instance ctr_Mode : Mode ctr := {
  mode_Encrypt := ctr_Encrypt;
  mode_Decrypt := ctr_Decrypt
}.
End Modes.

End blockcipher.

(** The AES cipher implements the [Cipher] interface of the mode layer. *)
#[global] Instance aes_Cipher : blockcipher.Cipher aes.Cipher := {
  blockcipher.Encrypt := aes.Encrypt;
  blockcipher.Decrypt := aes.Decrypt
}.

(** ** The command [cmd/aes]: the loop over the input

    [main] reads all of standard input and runs [op] over it in runs of 16
    bytes, writing each result.  The loop is modelled with the bytes
    written so far as its state; reading the input, the choice of [op] and
    write errors are left out. *)

Module cmd.




End cmd.

(** ** Well-formed values

    The Go types fix the shape of a block ([[16]byte]) and the range of a
    byte; on lists of [Z] these are predicates. *)

Definition all_bytes : list Z := map Z.of_nat (seq 0 256).

Definition is_byteb (x : Z) : bool := ((0 <=? x) && (x <? 256))%Z.

Definition is_block (b : list Z) : Prop := length b = 16 /\ Forall is_byte b.

Definition is_row (r : list Z) : Prop := length r = 4 /\ Forall is_byte r.

Definition is_state (s : matrix.Matrix) : Prop := length s = 4 /\ Forall is_row s.

(** ** The linear form of [Multiply]

    [comb b k n x] is the xor of the iterates [Xtime^i x] selected by the
    bits [k], ..., [k + n - 1] of [b]; it is what the loop of [Multiply]
    accumulates (see [Multiply_comb]). *)

Definition bit_term (b : Z) (i : nat) (x : Z) : Z :=
  if Z.testbit b (Z.of_nat i) then x else 0%Z.

Fixpoint comb (b : Z) (k n : nat) (x : Z) : Z :=
  match n with
  | O => 0%Z
  | S n' => Z.lxor (bit_term b k x) (comb b (S k) n' (aes.Xtime x))
  end.

(** The xor of four products of products, one entry of the product of the
    two mixing matrices applied to a byte. *)
Definition mix4 (q0 p0 q1 p1 q2 p2 q3 p3 s : Z) : Z :=
  Z.lxor (Z.lxor (Z.lxor (aes.Multiply q0 (aes.Multiply p0 s))
                         (aes.Multiply q1 (aes.Multiply p1 s)))
                 (aes.Multiply q2 (aes.Multiply p2 s)))
         (aes.Multiply q3 (aes.Multiply p3 s)).

Definition mix4c (q0 p0 q1 p1 q2 p2 q3 p3 s : Z) : Z :=
  Z.lxor (Z.lxor (Z.lxor (comb (comb s 0 8 p0) 0 8 q0)
                         (comb (comb s 0 8 p1) 0 8 q1))
                 (comb (comb s 0 8 p2) 0 8 q2))
         (comb (comb s 0 8 p3) 0 8 q3).

(** What the key schedule holds at a position [i] that is not a multiple
    of the key length [Nk]: the xor of the words at [i - Nk] and [i - 1]. *)
Definition plain_word (Nk : nat) (out : list aes.Word) (i : nat) : Prop :=
  exists t prev,
    index out (i - 1) = Some t /\ index out (i - Nk) = Some prev /\
    index out i = Some (Z.lxor prev t).

(** The element-wise xor of two blocks, and the nonce block of [ctr]. *)
Definition xor_blocks (k b : list Z) : list Z :=
  map (fun kx => Z.lxor (fst kx) (snd kx)) (combine k b).

Definition zero_block : list Z := repeat 0%Z 16.

Definition len16 (b : list Z) : Prop := length b = 16.

(** The counter of a [ctr] mode after [n] blocks. *)
Definition bump_nonce (n : nat) (nonce : Z) : Z :=
  Nat.iter n (fun x => to_int (x + 1)) nonce.

(** A concrete cipher for examples: AES-128 under the key 00 01 ... 0f of
    FIPS-197 Appendix C.1. *)
Definition sample_key : list Z := map Z.of_nat (seq 0 16).

Definition sample_cipher : aes.Cipher :=
  match (k <- aes.NewKey sample_key ;; aes.NewCipher k) with
  | Some c => c
  | None => aes.mkCipher [] [] 0
  end.

(** The encryption of the all-zero block under [sample_cipher]. *)
Definition sample_keystream : list Z :=
  [0xc6; 0xa1; 0x3b; 0x37; 0x87; 0x8f; 0x5b; 0x82;
   0x6f; 0x4f; 0x81; 0x62; 0xa1; 0xc8; 0xd8; 0x79]%Z.

(** ** Definitions for the further properties *)

(** The word made of the four bytes of a slice from index [4 * i] on, the
    first of them most significant. *)
Definition word_at (bytes : list Z) (i : nat) : Z :=
  Z.lor (Z.lor (Z.lor (to_uint32 (Z.shiftl (nth (4 * i) bytes 0%Z) 24))
                      (to_uint32 (Z.shiftl (nth (4 * i + 1) bytes 0%Z) 16)))
               (to_uint32 (Z.shiftl (nth (4 * i + 2) bytes 0%Z) 8)))
        (nth (4 * i + 3) bytes 0%Z).

(** The transpose of a square matrix, entry by entry. *)
Definition transposed (m : list (list Z)) : list (list Z) :=
  map (fun i => map (fun j => nth i (nth j m []) 0%Z) (seq 0 (length m)))
      (seq 0 (length m)).

(** A matrix whose rows all have [n] entries. *)
Definition rows_of (n : nat) (m : list (list Z)) : Prop :=
  Forall (fun r => length r = n) m.



(** What the key schedule holds at a position [i] that is a multiple of
    the key length [Nk]: the word at [i - Nk] xor the word at [i - 1],
    rotated and substituted, xor the round constant. *)
Definition round_word (Nk : nat) (out : list aes.Word) (i : nat) : Prop :=
  exists t prev rc,
    index out (i - 1) = Some t /\ index out (i - Nk) = Some prev /\
    aes.Rcon (Z.of_nat (i / Nk) - 1) = Some rc /\
    index out i
    = Some (Z.lxor prev (Z.lxor (aes.SubstituteWord (aes.RotateWord t)) rc)).

(** A state for examples. *)
Definition sample_state : matrix.Matrix :=
  [[0x00; 0x11; 0x22; 0x33]; [0x44; 0x55; 0x66; 0x77];
   [0x88; 0x99; 0xaa; 0xbb]; [0xcc; 0xdd; 0xee; 0xff]]%Z.

(** * Verification *)

(** ** Machine-integer facts *)

Section MachineIntegers.
Local Open Scope Z_scope.

Lemma to_uint_range (a : Z) : 0 <= to_uint a < 2 ^ 64.
Proof. unfold to_uint. apply Z.mod_pos_bound. lia. Qed.

Lemma to_int_is_int (a : Z) : is_int (to_int a).
Proof.
  unfold is_int, to_int.
  pose proof (Z.mod_pos_bound (a + 2 ^ 63) (2 ^ 64) ltac:(lia)). lia.
Qed.

Lemma to_uint_to_int (a : Z) : to_uint (to_int a) = to_uint a.
Proof.
  unfold to_uint, to_int.
  rewrite Zminus_mod_idemp_l. f_equal. lia.
Qed.

Lemma to_uint_land (a : Z) : to_uint a = Z.land a (Z.ones 64).
Proof. unfold to_uint. rewrite Z.land_ones by lia. reflexivity. Qed.

Lemma to_uint_lxor (a b : Z) :
  to_uint (Z.lxor a b) = Z.lxor (to_uint a) (to_uint b).
Proof.
  rewrite !to_uint_land.
  apply Z.bits_inj'. intros n Hn.
  rewrite Z.lxor_spec, !Z.land_spec, Z.lxor_spec.
  destruct (Z.testbit a n), (Z.testbit b n), (Z.testbit (Z.ones 64) n);
    reflexivity.
Qed.

Lemma to_uint_zero_iff (a : Z) : is_int a -> (to_uint a = 0 <-> a = 0).
Proof.
  unfold is_int, to_uint. intros Ha. split.
  - intros H0. apply Z.mod_divide in H0; [|lia].
    destruct H0 as [k Hk]. lia.
  - intros ->. reflexivity.
Qed.

Lemma is_int_nonneg_lxor (a b : Z) :
  0 <= a < 2 ^ 63 -> 0 <= b < 2 ^ 63 -> 0 <= Z.lxor a b < 2 ^ 63.
Proof.
  intros Ha Hb.
  assert (H0 : 0 <= Z.lxor a b) by (apply Z.lxor_nonneg; lia).
  split; [exact H0|].
  destruct (Z.eq_dec (Z.lxor a b) 0) as [->|Hne]; [lia|].
  apply Z.log2_lt_pow2; [lia|].
  pose proof (Z.log2_lxor a b ltac:(lia) ltac:(lia)) as Hl.
  assert (Z.log2 a < 63).
  { destruct (Z.eq_dec a 0) as [->|]; [simpl; lia|].
    apply Z.log2_lt_pow2; lia. }
  assert (Z.log2 b < 63).
  { destruct (Z.eq_dec b 0) as [->|]; [simpl; lia|].
    apply Z.log2_lt_pow2; lia. }
  lia.
Qed.

Lemma is_int_lxor (a b : Z) : is_int a -> is_int b -> is_int (Z.lxor a b).
Proof.
  unfold is_int. intros Ha Hb.
  destruct (Z_lt_le_dec a 0) as [Ha0|Ha0], (Z_lt_le_dec b 0) as [Hb0|Hb0].
  - rewrite <- Z.lxor_lnot_lnot.
    pose proof (is_int_nonneg_lxor (Z.lnot a) (Z.lnot b)) as H.
    unfold Z.lnot in *. lia.
  - replace (Z.lxor a b) with (Z.lnot (Z.lxor (Z.lnot a) b))
      by (rewrite Z.lnot_lxor_l, Z.lnot_involutive; reflexivity).
    pose proof (is_int_nonneg_lxor (Z.lnot a) b) as H.
    unfold Z.lnot in *. lia.
  - replace (Z.lxor a b) with (Z.lnot (Z.lxor a (Z.lnot b)))
      by (rewrite Z.lnot_lxor_r, Z.lnot_involutive; reflexivity).
    pose proof (is_int_nonneg_lxor a (Z.lnot b)) as H.
    unfold Z.lnot in *. lia.
  - pose proof (is_int_nonneg_lxor a b). lia.
Qed.

(** Two numbers with the same highest set bit cancel it in their xor. *)
Lemma lxor_same_log2 (u v : Z) :
  0 < u -> 0 < v -> Z.log2 u = Z.log2 v ->
  0 <= Z.lxor u v < 2 ^ Z.log2 u.
Proof.
  intros Hu Hv Hl.
  assert (H0 : 0 <= Z.lxor u v) by (apply Z.lxor_nonneg; lia).
  split; [exact H0|].
  destruct (Z.eq_dec (Z.lxor u v) 0) as [->|Hne].
  - apply Z.pow_pos_nonneg; [lia|apply Z.log2_nonneg].
  - apply Z.log2_lt_pow2; [lia|].
    pose proof (Z.log2_lxor u v ltac:(lia) ltac:(lia)) as Hmax.
    assert (Hb : Z.testbit (Z.lxor u v) (Z.log2 (Z.lxor u v)) = true)
      by (apply Z.bit_log2; lia).
    destruct (Z.eq_dec (Z.log2 (Z.lxor u v)) (Z.log2 u)) as [He|]; [|lia].
    rewrite He, Z.lxor_spec in Hb.
    rewrite (Z.bit_log2 u Hu) in Hb.
    rewrite Hl, (Z.bit_log2 v Hv) in Hb. discriminate.
Qed.

Lemma bits_Len_pos (u : Z) : 0 < u -> bits_Len u = Z.log2 u + 1.
Proof.
  intros Hu. unfold bits_Len.
  destruct (Z.eqb_spec u 0); [lia|reflexivity].
Qed.

Lemma bits_Len_bound (u : Z) (n : Z) :
  0 <= n -> 0 <= u < 2 ^ n -> 0 <= bits_Len u <= n.
Proof.
  intros Hn Hu. unfold bits_Len.
  destruct (Z.eqb_spec u 0); [lia|].
  pose proof (Z.log2_nonneg u).
  assert (Z.log2 u < n) by (apply Z.log2_lt_pow2; lia). lia.
Qed.

Lemma bits_Len_lt_pow2 (u : Z) (n : Z) :
  0 <= n -> 0 <= u < 2 ^ n -> bits_Len u <= n.
Proof. intros. apply bits_Len_bound; assumption. Qed.

End MachineIntegers.

(** ** field.go: [degree] and [Mod] *)

Section Field.
Local Open Scope Z_scope.
Import aes.

Lemma degree_nonzero (a : Z) :
  is_int a -> a <> 0 ->
  0 < to_uint a /\ degree a = Z.log2 (to_uint a) + 1.
Proof.
  intros Ha Hne.
  pose proof (to_uint_range a) as Hr.
  assert (Hu : to_uint a <> 0) by (rewrite to_uint_zero_iff; assumption).
  split; [lia|].
  unfold degree. destruct (Z.eqb_spec a 0); [contradiction|].
  apply bits_Len_pos. lia.
Qed.

Lemma degree_range (a : Z) : is_int a -> a <> 0 -> 1 <= degree a <= 64.
Proof.
  intros Ha Hne.
  destruct (degree_nonzero a Ha Hne) as [Hpos ->].
  pose proof (to_uint_range a) as Hr.
  pose proof (Z.log2_nonneg (to_uint a)).
  assert (Z.log2 (to_uint a) < 64) by (apply Z.log2_lt_pow2; lia).
  lia.
Qed.

Lemma Mod_guard_true (divisor r : Z) :
  Mod_guard divisor r = true -> r <> 0 /\ degree divisor <= degree r.
Proof.
  unfold Mod_guard. intros H.
  apply andb_true_iff in H. destruct H as [H1 H2].
  apply negb_true_iff, Z.eqb_neq in H1. apply Z.leb_le in H2.
  split; assumption.
Qed.

Lemma Mod_guard_false (divisor r : Z) :
  Mod_guard divisor r = false -> r = 0 \/ degree r < degree divisor.
Proof.
  unfold Mod_guard. intros H.
  apply andb_false_iff in H. destruct H as [H|H].
  - left. apply negb_false_iff, Z.eqb_eq in H. exact H.
  - right. apply Z.leb_gt in H. exact H.
Qed.

(** One iteration of the loop clears the highest set bit of the
    remainder. *)
Lemma Mod_step_decreases (divisor r : Z) :
  is_int divisor -> divisor <> 0 -> is_int r ->
  Mod_guard divisor r = true ->
  is_int (Mod_step divisor r) /\
  bits_Len (to_uint (Mod_step divisor r)) < bits_Len (to_uint r).
Proof.
  intros Hd Hd0 Hr Hg.
  destruct (Mod_guard_true _ _ Hg) as [Hr0 Hle].
  destruct (degree_nonzero r Hr Hr0) as [Hu Hdr].
  destruct (degree_nonzero divisor Hd Hd0) as [Hv Hdd].
  pose proof (to_uint_range r) as Hur.
  pose proof (to_uint_range divisor) as Hvr.
  unfold Mod_step.
  split; [apply is_int_lxor; [assumption|apply to_int_is_int]|].
  rewrite to_uint_lxor, to_uint_to_int.
  rewrite Hdr, Hdd in *.
  set (k := Z.log2 (to_uint r)) in *.
  set (j := Z.log2 (to_uint divisor)) in *.
  assert (Hk : 0 <= k < 64).
  { split; [apply Z.log2_nonneg|apply Z.log2_lt_pow2; lia]. }
  assert (Hj : 0 <= j) by apply Z.log2_nonneg.
  replace (k + 1 - (j + 1)) with (k - j) by lia.
  assert (Hs : to_uint (Z.shiftl divisor (k - j)) = to_uint divisor * 2 ^ (k - j)).
  { rewrite Z.shiftl_mul_pow2 by lia.
    unfold to_uint. rewrite <- (Z.mul_mod_idemp_l divisor) by lia.
    fold (to_uint divisor).
    apply Z.mod_small.
    split; [apply Z.mul_nonneg_nonneg; lia|].
    assert (to_uint divisor < 2 ^ (j + 1)).
    { apply Z.log2_lt_pow2; [lia|]. subst j. lia. }
    apply Z.lt_le_trans with (2 ^ (j + 1) * 2 ^ (k - j)).
    - apply Z.mul_lt_mono_pos_r; [apply Z.pow_pos_nonneg; lia|lia].
    - rewrite <- Z.pow_add_r by lia.
      apply Z.pow_le_mono_r; lia. }
  rewrite Hs.
  assert (Hpos : 0 < to_uint divisor * 2 ^ (k - j)).
  { apply Z.mul_pos_pos; [lia|apply Z.pow_pos_nonneg; lia]. }
  assert (Hlog : Z.log2 (to_uint divisor * 2 ^ (k - j)) = k).
  { rewrite Z.log2_mul_pow2 by lia. subst j. lia. }
  pose proof (lxor_same_log2 (to_uint r) (to_uint divisor * 2 ^ (k - j))
                Hu Hpos (eq_sym Hlog)) as Hx.
  fold k in Hx.
  rewrite (bits_Len_pos (to_uint r) Hu). fold k.
  pose proof (bits_Len_bound _ k (proj1 Hk) Hx). lia.
Qed.

Lemma Mod_loop_returns (divisor : Z) :
  is_int divisor -> divisor <> 0 ->
  forall (n : nat) (r : Z),
    is_int r -> bits_Len (to_uint r) <= Z.of_nat n ->
    exists r', Mod_loop (S n) divisor r = Some r' /\ is_int r' /\
               (r' = 0 \/ degree r' < degree divisor).
Proof.
  intros Hd Hd0. induction n as [|n IH]; intros r Hr Hlen.
  - assert (r = 0) as ->.
    { apply to_uint_zero_iff; [assumption|].
      unfold bits_Len in Hlen. destruct (Z.eqb_spec (to_uint r) 0); [assumption|].
      pose proof (Z.log2_nonneg (to_uint r)). lia. }
    exists 0. simpl. auto.
  - cbn [Mod_loop]. destruct (Mod_guard divisor r) eqn:Hg.
    + destruct (Mod_step_decreases divisor r Hd Hd0 Hr Hg) as [Hi Hlt].
      apply IH; [assumption|lia].
    + exists r. split; [reflexivity|]. split; [assumption|].
      apply Mod_guard_false. assumption.
Qed.

Lemma Mod_returns (dividend divisor : Z) :
  is_int dividend -> is_int divisor -> divisor <> 0 ->
  exists r, Mod dividend divisor = Some r /\ is_int r /\
            (r = 0 \/ degree r < degree divisor).
Proof.
  intros Ha Hd Hd0. unfold Mod, Mod_fuel.
  apply (Mod_loop_returns divisor Hd Hd0 64 dividend Ha).
  pose proof (to_uint_range dividend).
  apply bits_Len_bound; lia.
Qed.

(** With a zero divisor the loop leaves a nonzero remainder as it is. *)
Lemma Mod_loop_zero_divisor (fuel : nat) (r : Z) :
  is_int r -> r <> 0 -> Mod_loop fuel 0 r = None.
Proof.
  intros Hr Hr0. induction fuel as [|fuel IH]; [reflexivity|].
  cbn [Mod_loop].
  assert (Hg : Mod_guard 0 r = true).
  { unfold Mod_guard. apply andb_true_iff. split.
    - apply negb_true_iff, Z.eqb_neq. assumption.
    - apply Z.leb_le. pose proof (degree_range r Hr Hr0).
      change (degree 0) with (-1). lia. }
  rewrite Hg.
  assert (Hs : Mod_step 0 r = r).
  { unfold Mod_step. rewrite Z.shiftl_0_l.
    change (to_int 0) with 0. apply Z.lxor_0_r. }
  rewrite Hs. exact IH.
Qed.

(** C9: [degree] of a nonzero int is its bit length, which is one more
    than the 0-indexed position of its most significant set bit (the
    position itself is what the claim and the function's own comment
    promise); [degree 0] is -1.  At the input 1 the code returns 1 for
    the bit at position 0. *)
Theorem degree_is_bit_length (a : Z) :
  is_int a -> a <> 0 ->
  degree a = Z.log2 (to_uint a) + 1 /\
  Z.testbit (to_uint a) (Z.log2 (to_uint a)) = true /\
  (forall n, Z.log2 (to_uint a) < n -> Z.testbit (to_uint a) n = false) /\
  degree 1 = 1 /\ degree 0 = -1.
Proof.
  intros Ha Hne. destruct (degree_nonzero a Ha Hne) as [Hpos Hdeg].
  split; [exact Hdeg|]. split; [apply Z.bit_log2; exact Hpos|].
  split; [|split; reflexivity].
  intros n Hn. apply Z.bits_above_log2; lia.
Qed.

Lemma degree_is_bit_length_witness :
  degree 1 = Z.log2 (to_uint 1) + 1 /\
  Z.testbit (to_uint 1) (Z.log2 (to_uint 1)) = true /\
  (forall n, Z.log2 (to_uint 1) < n -> Z.testbit (to_uint 1) n = false) /\
  degree 1 = 1 /\ degree 0 = -1.
Proof.
  apply (degree_is_bit_length 1); [unfold is_int; lia | lia].
Defined.

(** C10: on 64-bit ints and a nonzero divisor, every iteration of the
    loop of [Mod] strictly shortens the remainder, the loop exits within
    65 evaluations of its guard, and the remainder returned is 0 or
    shorter than the divisor; with a zero divisor and a nonzero dividend
    no amount of fuel makes the loop exit. *)
Theorem Mod_terminates (dividend divisor : Z) :
  is_int dividend -> is_int divisor ->
  (divisor <> 0 ->
     (forall r, is_int r -> Mod_guard divisor r = true ->
                is_int (Mod_step divisor r) /\
                bits_Len (to_uint (Mod_step divisor r)) < bits_Len (to_uint r)) /\
     exists r, Mod_fuel 65 dividend divisor = Some r /\
               (r = 0 \/ bits_Len (to_uint r) < bits_Len (to_uint divisor))) /\
  (divisor = 0 -> dividend <> 0 ->
     forall fuel, Mod_fuel fuel dividend divisor = None).
Proof.
  intros Ha Hd. split.
  - intros Hd0. split.
    + intros r Hr Hg. apply Mod_step_decreases; assumption.
    + destruct (Mod_returns dividend divisor Ha Hd Hd0) as (r & Hr & Hi & Hlt).
      exists r. split; [exact Hr|].
      destruct Hlt as [->|Hlt]; [left; reflexivity|].
      destruct (Z.eq_dec r 0) as [->|Hr0]; [left; reflexivity|right].
      unfold degree in Hlt.
      destruct (Z.eqb_spec r 0); [contradiction|].
      destruct (Z.eqb_spec divisor 0); [contradiction|]. exact Hlt.
  - intros -> Hne fuel. unfold Mod_fuel.
    apply Mod_loop_zero_divisor; assumption.
Qed.

Lemma Mod_terminates_witness :
  (exists r, Mod_fuel 65 256 283 = Some r /\
             (r = 0 \/ bits_Len (to_uint r) < bits_Len (to_uint 283))) /\
  (forall fuel, Mod_fuel fuel 256 0 = None).
Proof.
  split.
  - apply (proj1 (Mod_terminates 256 283
                    ltac:(unfold is_int; lia) ltac:(unfold is_int; lia))).
    lia.
  - apply (proj2 (Mod_terminates 256 0
                    ltac:(unfold is_int; lia) ltac:(unfold is_int; lia)));
      lia.
Defined.

End Field.

(** ** Bytes, blocks and states *)

(** Xor is associative and commutative with unit 0, for rewriting modulo
    these laws. *)
Lemma lxor_Associative : Associative eq Z.lxor.
Proof. intros x y z. symmetry. apply Z.lxor_assoc. Qed.

Lemma lxor_Commutative : Commutative eq Z.lxor.
Proof. intros x y. apply Z.lxor_comm. Qed.

Lemma lxor_Unit : Unit eq Z.lxor 0%Z.
Proof. split; intros x; [apply Z.lxor_0_l | apply Z.lxor_0_r]. Qed.

#[global] Existing Instances lxor_Associative lxor_Commutative lxor_Unit.

Section Bytes.
Local Open Scope Z_scope.

Lemma all_bytes_complete (x : Z) : is_byte x -> In x all_bytes.
Proof.
  intros Hx. unfold all_bytes.
  replace x with (Z.of_nat (Z.to_nat x)) by (unfold is_byte in Hx; lia).
  apply in_map, in_seq. unfold is_byte in Hx. lia.
Qed.

Lemma forall_bytes (P : Z -> bool) :
  forallb P all_bytes = true -> forall x, is_byte x -> P x = true.
Proof.
  intros H x Hx. rewrite forallb_forall in H.
  apply H, all_bytes_complete, Hx.
Qed.

Lemma lxor_bound (n a b : Z) :
  0 < n -> 0 <= a < 2 ^ n -> 0 <= b < 2 ^ n -> 0 <= Z.lxor a b < 2 ^ n.
Proof.
  intros Hn Ha Hb.
  assert (H0 : 0 <= Z.lxor a b) by (apply Z.lxor_nonneg; lia).
  split; [exact H0|].
  destruct (Z.eq_dec (Z.lxor a b) 0) as [->|Hne].
  - apply Z.pow_pos_nonneg; lia.
  - apply Z.log2_lt_pow2; [lia|].
    pose proof (Z.log2_lxor a b ltac:(lia) ltac:(lia)) as Hl.
    assert (Z.log2 a < n).
    { destruct (Z.eq_dec a 0) as [->|]; [simpl; lia|].
      apply Z.log2_lt_pow2; lia. }
    assert (Z.log2 b < n).
    { destruct (Z.eq_dec b 0) as [->|]; [simpl; lia|].
      apply Z.log2_lt_pow2; lia. }
    lia.
Qed.

Lemma is_byte_lxor (a b : Z) : is_byte a -> is_byte b -> is_byte (Z.lxor a b).
Proof. unfold is_byte. intros Ha Hb. apply (lxor_bound 8 a b); lia. Qed.

Lemma is_byte_0 : is_byte 0.
Proof. unfold is_byte. lia. Qed.

Lemma is_byte_to_byte (x : Z) : is_byte (to_byte x).
Proof. unfold is_byte, to_byte. apply Z.mod_pos_bound. lia. Qed.

Lemma to_byte_small (x : Z) : is_byte x -> to_byte x = x.
Proof. unfold is_byte, to_byte. intros Hx. apply Z.mod_small. exact Hx. Qed.

Lemma land_255 (x : Z) : Z.land x (to_byte 255) = to_byte x.
Proof.
  change (to_byte 255) with (Z.ones 8).
  rewrite Z.land_ones by lia. reflexivity.
Qed.

Lemma is_byte_land_255 (x : Z) : is_byte (Z.land x (to_byte 255)).
Proof. rewrite land_255. apply is_byte_to_byte. Qed.

Lemma lxor_cancel (w s : Z) : Z.lxor w (Z.lxor w s) = s.
Proof. rewrite <- Z.lxor_assoc, Z.lxor_nilpotent. apply Z.lxor_0_l. Qed.

Lemma is_byte_lookup (table : list Z) (x : Z) :
  Forall is_byte table -> is_byte (lookup table x).
Proof.
  intros Ht. unfold lookup.
  destruct (Nat.lt_ge_cases (Z.to_nat x) (length table)) as [Hlt|Hge].
  - rewrite Forall_forall in Ht. apply Ht, nth_In, Hlt.
  - rewrite nth_overflow by exact Hge. apply is_byte_0.
Qed.

Lemma is_byteb_spec (x : Z) : is_byteb x = true <-> is_byte x.
Proof. unfold is_byteb, is_byte. rewrite andb_true_iff. lia. Qed.

Lemma Forall_is_byteb (l : list Z) :
  forallb is_byteb l = true -> Forall is_byte l.
Proof.
  intros H. rewrite forallb_forall in H. apply Forall_forall.
  intros x Hx. apply is_byteb_spec, H, Hx.
Qed.

Lemma sbox_bytes : Forall is_byte aes.sbox.
Proof. apply Forall_is_byteb. vm_compute. reflexivity. Qed.

Lemma sboxInverse_bytes : Forall is_byte aes.sboxInverse.
Proof. apply Forall_is_byteb. vm_compute. reflexivity. Qed.

End Bytes.

Create HintDb bytes.

#[global] Hint Resolve is_byte_lxor is_byte_0 is_byte_to_byte is_byte_land_255
  : bytes.

(** Lists of a known length, written out. *)

Ltac solve_Forall :=
  repeat (apply Forall_cons; [solve [auto 12 with bytes]|]); apply Forall_nil.

Lemma length4_shape {A : Type} (l : list A) :
  length l = 4 -> exists a b c d, l = [a; b; c; d].
Proof.
  intros H. do 4 (destruct l as [|? l]; [discriminate|]).
  destruct l; [|discriminate]. eauto.
Qed.

Lemma length16_shape {A : Type} (l : list A) :
  length l = 16 ->
  exists x0 x1 x2 x3 x4 x5 x6 x7 x8 x9 x10 x11 x12 x13 x14 x15,
    l = [x0; x1; x2; x3; x4; x5; x6; x7; x8; x9; x10; x11; x12; x13; x14; x15].
Proof.
  intros H. do 16 (destruct l as [|? l]; [discriminate|]).
  destruct l; [|discriminate]. do 16 eexists. reflexivity.
Qed.

Lemma is_state_shape (s : matrix.Matrix) :
  is_state s ->
  exists a0 a1 a2 a3 b0 b1 b2 b3 c0 c1 c2 c3 d0 d1 d2 d3,
    s = [[a0; a1; a2; a3]; [b0; b1; b2; b3]; [c0; c1; c2; c3]; [d0; d1; d2; d3]]
    /\ Forall is_byte [a0; a1; a2; a3; b0; b1; b2; b3;
                       c0; c1; c2; c3; d0; d1; d2; d3].
Proof.
  intros [Hl Hr].
  destruct (length4_shape s Hl) as (ra & rb & rc & rd & ->).
  inversion Hr as [|? ? [La Fa] Hr1]; subst.
  inversion Hr1 as [|? ? [Lb Fb] Hr2]; subst.
  inversion Hr2 as [|? ? [Lc Fc] Hr3]; subst.
  inversion Hr3 as [|? ? [Ld Fd] _]; subst.
  destruct (length4_shape ra La) as (a0 & a1 & a2 & a3 & ->).
  destruct (length4_shape rb Lb) as (b0 & b1 & b2 & b3 & ->).
  destruct (length4_shape rc Lc) as (c0 & c1 & c2 & c3 & ->).
  destruct (length4_shape rd Ld) as (d0 & d1 & d2 & d3 & ->).
  exists a0, a1, a2, a3, b0, b1, b2, b3, c0, c1, c2, c3, d0, d1, d2, d3.
  split; [reflexivity|].
  repeat match goal with
         | H : Forall _ (_ :: _) |- _ => inversion H; clear H; subst
         end.
  solve_Forall.
Qed.

Lemma is_state_intro (a0 a1 a2 a3 b0 b1 b2 b3 c0 c1 c2 c3 d0 d1 d2 d3 : Z) :
  Forall is_byte [a0; a1; a2; a3; b0; b1; b2; b3;
                  c0; c1; c2; c3; d0; d1; d2; d3] ->
  is_state [[a0; a1; a2; a3]; [b0; b1; b2; b3]; [c0; c1; c2; c3]; [d0; d1; d2; d3]].
Proof.
  intros H.
  repeat match goal with
         | H : Forall _ (_ :: _) |- _ => inversion H; clear H; subst
         end.
  split; [reflexivity|].
  repeat (apply Forall_cons; [split; [reflexivity|solve_Forall]|]).
  apply Forall_nil.
Qed.

Ltac split_Forall :=
  repeat match goal with
         | H : Forall _ (_ :: _) |- _ => inversion H; clear H; subst
         | H : Forall _ [] |- _ => clear H
         end.

Ltac state_shape s Hs :=
  let H := fresh "Hbytes" in
  destruct (is_state_shape s Hs)
    as (?a0 & ?a1 & ?a2 & ?a3 & ?b0 & ?b1 & ?b2 & ?b3
        & ?c0 & ?c1 & ?c2 & ?c3 & ?d0 & ?d1 & ?d2 & ?d3 & -> & H).

(** Evaluation of the list plumbing of the model, leaving the arithmetic
    on bytes and words in place. *)
Ltac run :=
  cbv -[Z.lxor Z.land Z.lor Z.shiftl Z.shiftr Z.modulo Z.pow lookup
        aes.Multiply aes.sbox aes.sboxInverse to_byte to_uint32].

(** ** aes.go: parsing and emitting a block *)

Section ParseEmit.
Import aes.

Lemma parse_emit (b : Block) :
  length b = 16 -> (st <- parse b ;; matrixBlock st) = Some b.
Proof.
  intros Hl.
  destruct (length16_shape b Hl)
    as (x0 & x1 & x2 & x3 & x4 & x5 & x6 & x7 & x8 & x9 & x10 & x11
        & x12 & x13 & x14 & x15 & ->).
  reflexivity.
Qed.

Lemma parse_state (b : Block) :
  is_block b ->
  exists s, parse b = Some s /\ is_state s /\ matrixBlock s = Some b.
Proof.
  intros [Hl Hb].
  destruct (length16_shape b Hl)
    as (x0 & x1 & x2 & x3 & x4 & x5 & x6 & x7 & x8 & x9 & x10 & x11
        & x12 & x13 & x14 & x15 & ->).
  eexists. split; [run; reflexivity|]. split; [|reflexivity].
  split_Forall. apply is_state_intro. solve_Forall.
Qed.

Lemma matrixBlock_state (s : matrix.Matrix) :
  is_state s ->
  exists b, matrixBlock s = Some b /\ is_block b /\ parse b = Some s.
Proof.
  intros Hs. state_shape s Hs.
  eexists. split; [run; reflexivity|]. split; [|reflexivity].
  split_Forall. split; [reflexivity|]. solve_Forall.
Qed.

(** C5: emitting the state parsed from a 16-byte block returns the block;
    [matrixBlock] writes [out[4*row + col] = m[col][row]], which is
    [output[r + 4c] = state[r][c]] read with [r = col] and [c = row]. *)
Theorem matrixBlock_parse (b : Block) :
  length b = 16 ->
  exists st, parse b = Some st /\ matrixBlock st = Some b /\
             (forall r c, r < 4 -> c < 4 ->
                index2 st r c = index b (r + 4 * c)).
Proof.
  intros Hl.
  destruct (length16_shape b Hl)
    as (x0 & x1 & x2 & x3 & x4 & x5 & x6 & x7 & x8 & x9 & x10 & x11
        & x12 & x13 & x14 & x15 & ->).
  eexists. split; [run; reflexivity|]. split; [reflexivity|].
  intros r c Hr Hc.
  do 4 (destruct r as [|r]; [do 4 (destruct c as [|c]; [reflexivity|]); lia|]).
  lia.
Qed.

Lemma matrixBlock_parse_witness :
  exists st, parse (map Z.of_nat (seq 0 16)) = Some st /\
             matrixBlock st = Some (map Z.of_nat (seq 0 16)) /\
             (forall r c, r < 4 -> c < 4 ->
                index2 st r c = index (map Z.of_nat (seq 0 16)) (r + 4 * c)).
Proof.
  apply (matrixBlock_parse (map Z.of_nat (seq 0 16))). reflexivity.
Defined.

End ParseEmit.

(** ** field.go: [Xtime] and [Multiply] *)

Section MultiplyFacts.
Local Open Scope Z_scope.
Import aes.

Lemma is_byte_Xtime (a : Z) : is_byte (Xtime a).
Proof. unfold Xtime. apply is_byte_land_255. Qed.

Lemma mask_bit (b : Z) (i : nat) :
  is_byte b -> (i < 8)%nat ->
  (0 <? Z.land b (to_byte (Exp2 i))) = Z.testbit b (Z.of_nat i).
Proof.
  intros Hb Hi.
  assert (H : forallb (fun i => forallb (fun b =>
                Bool.eqb (0 <? Z.land b (to_byte (Exp2 i)))
                         (Z.testbit b (Z.of_nat i))) all_bytes)
                (seq 0 8) = true) by (vm_compute; reflexivity).
  rewrite forallb_forall in H.
  specialize (H i ltac:(apply in_seq; lia)).
  apply Bool.eqb_prop.
  exact (forall_bytes _ H b Hb).
Qed.

Lemma Multiply_fold (b : Z) :
  is_byte b ->
  forall (n k : nat) (r x : Z),
    (k + n <= 8)%nat ->
    fst (fold_left
           (fun '(reduction, intermediateXtime) i =>
              let mask := to_byte (Exp2 i) in
              let isPositive := (0 <? Z.land b mask)%Z in
              let reduction :=
                if isPositive then Z.lxor reduction intermediateXtime
                else reduction in
              (reduction, Xtime intermediateXtime))
           (seq k n) (r, x))
    = Z.lxor r (comb b k n x).
Proof.
  intros Hb. induction n as [|n IH]; intros k r x Hk.
  - simpl. symmetry. apply Z.lxor_0_r.
  - cbn [seq fold_left comb]. cbv zeta.
    rewrite IH by lia.
    rewrite mask_bit by (assumption || lia).
    unfold bit_term. destruct (Z.testbit b (Z.of_nat k)).
    + rewrite Z.lxor_assoc. reflexivity.
    + rewrite Z.lxor_0_l. reflexivity.
Qed.

Lemma comb_high_zero (b : Z) :
  forall (n k : nat) (x : Z),
    (forall i, (k <= i)%nat -> Z.testbit b (Z.of_nat i) = false) ->
    comb b k n x = 0.
Proof.
  induction n as [|n IH]; intros k x H; [reflexivity|].
  cbn [comb]. unfold bit_term. rewrite (H k) by lia.
  rewrite IH; [reflexivity|]. intros i Hi. apply H. lia.
Qed.

Lemma comb_split (b : Z) :
  forall (n m k : nat) (x : Z),
    comb b k (n + m) x
    = Z.lxor (comb b k n x) (comb b (k + n) m (Nat.iter n Xtime x)).
Proof.
  induction n as [|n IH]; intros m k x.
  - cbn [comb Nat.iter Nat.add]. rewrite Nat.add_0_r, Z.lxor_0_l. reflexivity.
  - cbn [comb Nat.add]. rewrite IH, Z.lxor_assoc.
    replace (k + S n)%nat with (S k + n)%nat by lia.
    replace (Nat.iter (S n) Xtime x) with (Nat.iter n Xtime (Xtime x))
      by (symmetry; apply Nat.iter_succ_r).
    reflexivity.
Qed.

Lemma to_uint_byte (b : Z) : is_byte b -> to_uint b = b.
Proof. unfold is_byte, to_uint. intros Hb. apply Z.mod_small. lia. Qed.

Lemma byte_high_bits (b : Z) (i : nat) :
  is_byte b -> (Z.to_nat (bits_Len b) <= i)%nat ->
  Z.testbit b (Z.of_nat i) = false.
Proof.
  intros Hb Hi. unfold bits_Len in Hi.
  destruct (Z.eqb_spec b 0) as [->|Hne]; [apply Z.bits_0|].
  apply Z.bits_above_log2; [unfold is_byte in Hb; lia|].
  pose proof (Z.log2_nonneg b). lia.
Qed.

(** The loop of [Multiply] accumulates the linear form. *)
Lemma Multiply_comb (a b : Z) : is_byte b -> Multiply a b = comb b 0 8 a.
Proof.
  intros Hb. unfold Multiply. rewrite (to_uint_byte b Hb).
  assert (Hn : (Z.to_nat (bits_Len b) <= 8)%nat).
  { pose proof (bits_Len_bound b 8 ltac:(lia) Hb). lia. }
  rewrite (Multiply_fold b Hb) by lia.
  rewrite Z.lxor_0_l.
  set (n := Z.to_nat (bits_Len b)) in *.
  replace 8%nat with (n + (8 - n))%nat at 1 by lia.
  rewrite comb_split, (comb_high_zero b (8 - n)), Z.lxor_0_r; [reflexivity|].
  intros i Hi. apply byte_high_bits; [assumption|]. fold n. lia.
Qed.

Lemma bit_term_lxor (x y : Z) (i : nat) (c : Z) :
  bit_term (Z.lxor x y) i c = Z.lxor (bit_term x i c) (bit_term y i c).
Proof.
  unfold bit_term. rewrite Z.lxor_spec.
  destruct (Z.testbit x (Z.of_nat i)), (Z.testbit y (Z.of_nat i)); cbn [xorb].
  - symmetry. apply Z.lxor_nilpotent.
  - symmetry. apply Z.lxor_0_r.
  - symmetry. apply Z.lxor_0_l.
  - reflexivity.
Qed.

Lemma comb_lxor (x y : Z) :
  forall (n k : nat) (a : Z),
    comb (Z.lxor x y) k n a = Z.lxor (comb x k n a) (comb y k n a).
Proof.
  induction n as [|n IH]; intros k a; [reflexivity|].
  cbn [comb]. rewrite IH, bit_term_lxor. aac_reflexivity.
Qed.

Lemma is_byte_comb (b : Z) :
  forall (n k : nat) (a : Z), is_byte a -> is_byte (comb b k n a).
Proof.
  induction n as [|n IH]; intros k a Ha; [apply is_byte_0|].
  cbn [comb]. apply is_byte_lxor.
  - unfold bit_term. destruct (Z.testbit b (Z.of_nat k)); auto with bytes.
  - apply IH, is_byte_Xtime.
Qed.

Lemma is_byte_Multiply (a b : Z) :
  is_byte a -> is_byte b -> is_byte (Multiply a b).
Proof.
  intros Ha Hb. rewrite Multiply_comb by assumption.
  apply is_byte_comb. assumption.
Qed.

Lemma Multiply_lxor (a x y : Z) :
  is_byte x -> is_byte y ->
  Multiply a (Z.lxor x y) = Z.lxor (Multiply a x) (Multiply a y).
Proof.
  intros Hx Hy.
  rewrite !Multiply_comb by auto with bytes.
  apply comb_lxor.
Qed.

Lemma Multiply_lxor4 (a w x y z : Z) :
  is_byte w -> is_byte x -> is_byte y -> is_byte z ->
  Multiply a (Z.lxor (Z.lxor (Z.lxor w x) y) z)
  = Z.lxor (Z.lxor (Z.lxor (Multiply a w) (Multiply a x)) (Multiply a y))
           (Multiply a z).
Proof.
  intros Hw Hx Hy Hz.
  rewrite !Multiply_lxor by auto with bytes. reflexivity.
Qed.

Lemma mix4_mix4c (q0 p0 q1 p1 q2 p2 q3 p3 s : Z) :
  is_byte p0 -> is_byte p1 -> is_byte p2 -> is_byte p3 -> is_byte s ->
  mix4 q0 p0 q1 p1 q2 p2 q3 p3 s = mix4c q0 p0 q1 p1 q2 p2 q3 p3 s.
Proof.
  intros H0 H1 H2 H3 Hs. unfold mix4, mix4c.
  rewrite !(Multiply_comb _ s) by assumption.
  rewrite !Multiply_comb by (apply is_byte_comb; assumption).
  reflexivity.
Qed.

(** The four kinds of entries of the product of the inverse and the
    forward mixing matrices: one on the diagonal, zero elsewhere. *)
Lemma mix4_diag (s : Z) :
  is_byte s -> mix4 0x0e 2 0x0b 1 0x0d 1 0x09 3 s = s.
Proof.
  intros Hs. rewrite mix4_mix4c by (assumption || (unfold is_byte; lia)).
  apply Z.eqb_eq.
  apply (forall_bytes (fun s => mix4c 0x0e 2 0x0b 1 0x0d 1 0x09 3 s =? s));
    [vm_compute; reflexivity | assumption].
Qed.

Lemma mix4_off1 (s : Z) :
  is_byte s -> mix4 0x0e 3 0x0b 2 0x0d 1 0x09 1 s = 0.
Proof.
  intros Hs. rewrite mix4_mix4c by (assumption || (unfold is_byte; lia)).
  apply Z.eqb_eq.
  apply (forall_bytes (fun s => mix4c 0x0e 3 0x0b 2 0x0d 1 0x09 1 s =? 0));
    [vm_compute; reflexivity | assumption].
Qed.

Lemma mix4_off2 (s : Z) :
  is_byte s -> mix4 0x0e 1 0x0b 3 0x0d 2 0x09 1 s = 0.
Proof.
  intros Hs. rewrite mix4_mix4c by (assumption || (unfold is_byte; lia)).
  apply Z.eqb_eq.
  apply (forall_bytes (fun s => mix4c 0x0e 1 0x0b 3 0x0d 2 0x09 1 s =? 0));
    [vm_compute; reflexivity | assumption].
Qed.

Lemma mix4_off3 (s : Z) :
  is_byte s -> mix4 0x0e 1 0x0b 1 0x0d 3 0x09 2 s = 0.
Proof.
  intros Hs. rewrite mix4_mix4c by (assumption || (unfold is_byte; lia)).
  apply Z.eqb_eq.
  apply (forall_bytes (fun s => mix4c 0x0e 1 0x0b 1 0x0d 3 0x09 2 s =? 0));
    [vm_compute; reflexivity | assumption].
Qed.

End MultiplyFacts.

#[global] Hint Resolve is_byte_Xtime is_byte_Multiply : bytes.

(** ** aes.go: the round transformations *)

Section Rounds.
Local Open Scope Z_scope.
Import aes matrix.

Lemma sbox_inverse (x : Z) :
  is_byte x -> lookup sboxInverse (lookup sbox x) = x.
Proof.
  intros Hx. apply Z.eqb_eq.
  apply (forall_bytes (fun x => lookup sboxInverse (lookup sbox x) =? x));
    [vm_compute; reflexivity | assumption].
Qed.

Lemma sboxInverse_inverse (x : Z) :
  is_byte x -> lookup sbox (lookup sboxInverse x) = x.
Proof.
  intros Hx. apply Z.eqb_eq.
  apply (forall_bytes (fun x => lookup sbox (lookup sboxInverse x) =? x));
    [vm_compute; reflexivity | assumption].
Qed.

Lemma is_byte_sbox (x : Z) : is_byte (lookup sbox x).
Proof. apply is_byte_lookup, sbox_bytes. Qed.

Lemma is_byte_sboxInverse (x : Z) : is_byte (lookup sboxInverse x).
Proof. apply is_byte_lookup, sboxInverse_bytes. Qed.

Hint Resolve is_byte_sbox is_byte_sboxInverse : bytes.

Lemma index_some {A : Type} (l : list A) (i : nat) :
  (i < length l)%nat -> exists x, index l i = Some x.
Proof.
  intros Hi. unfold index. destruct (nth_error l i) eqn:E; [eauto|].
  apply nth_error_None in E. lia.
Qed.

Lemma subBytes_state (s : Matrix) :
  is_state s ->
  exists s', subBytes s = Some s' /\ is_state s' /\
             subBytesInverse s' = Some s.
Proof.
  intros Hs. state_shape s Hs. split_Forall.
  eexists. split; [run; reflexivity|]. split.
  - apply is_state_intro. solve_Forall.
  - run. repeat f_equal; apply sbox_inverse; assumption.
Qed.

Lemma subBytesInverse_state (s : Matrix) :
  is_state s ->
  exists s', subBytesInverse s = Some s' /\ is_state s' /\
             subBytes s' = Some s.
Proof.
  intros Hs. state_shape s Hs. split_Forall.
  eexists. split; [run; reflexivity|]. split.
  - apply is_state_intro. solve_Forall.
  - run. repeat f_equal; apply sboxInverse_inverse; assumption.
Qed.

Lemma shiftRows_state (s : Matrix) :
  is_state s ->
  exists s', shiftRows s = Some s' /\ is_state s' /\
             shiftRowsInverse s' = Some s.
Proof.
  intros Hs. state_shape s Hs. split_Forall.
  eexists. split; [run; reflexivity|]. split.
  - apply is_state_intro. solve_Forall.
  - reflexivity.
Qed.

Lemma shiftRowsInverse_state (s : Matrix) :
  is_state s ->
  exists s', shiftRowsInverse s = Some s' /\ is_state s' /\
             shiftRows s' = Some s.
Proof.
  intros Hs. state_shape s Hs. split_Forall.
  eexists. split; [run; reflexivity|]. split.
  - apply is_state_intro. solve_Forall.
  - reflexivity.
Qed.

Lemma addRoundKey_state (sched : list Word) (round : nat) (s : Matrix) :
  (round * 4 + 3 < length sched)%nat -> is_state s ->
  exists s', addRoundKey s sched round = Some s' /\ is_state s' /\
             addRoundKey s' sched round = Some s.
Proof.
  intros Hr Hs.
  destruct (index_some sched (round * 4 + 0)) as [w0 H0]; [lia|].
  destruct (index_some sched (round * 4 + 1)) as [w1 H1]; [lia|].
  destruct (index_some sched (round * 4 + 2)) as [w2 H2]; [lia|].
  destruct (index_some sched (round * 4 + 3)) as [w3 H3]; [lia|].
  state_shape s Hs. split_Forall.
  eexists. split.
  { unfold addRoundKey. cbn [foldM seq]. cbv zeta.
    rewrite H0, H1, H2, H3. run. reflexivity. }
  split.
  - apply is_state_intro. solve_Forall.
  - unfold addRoundKey. cbn [foldM seq]. cbv zeta.
    rewrite H0, H1, H2, H3. run.
    repeat f_equal; apply lxor_cancel.
Qed.

Lemma is_byte_small (n : Z) : (0 <=? n) && (n <? 256) = true -> is_byte n.
Proof. intros H. apply is_byteb_spec. exact H. Qed.

Hint Extern 1 (is_byte (Zpos _)) => (apply is_byte_small; reflexivity) : bytes.

(** The product of the inverse and the forward mixing matrices on one
    column, row by row. *)
Section Column.
Variables s0 s1 s2 s3 : Z.
Hypotheses (H0 : is_byte s0) (H1 : is_byte s1)
           (H2 : is_byte s2) (H3 : is_byte s3).

Let X0 := Z.lxor (Z.lxor (Z.lxor (Z.lxor 0 (Multiply 2 s0)) (Multiply 3 s1))
                         (Multiply 1 s2)) (Multiply 1 s3).
Let X1 := Z.lxor (Z.lxor (Z.lxor (Z.lxor 0 (Multiply 1 s0)) (Multiply 2 s1))
                         (Multiply 3 s2)) (Multiply 1 s3).
Let X2 := Z.lxor (Z.lxor (Z.lxor (Z.lxor 0 (Multiply 1 s0)) (Multiply 1 s1))
                         (Multiply 2 s2)) (Multiply 3 s3).
Let X3 := Z.lxor (Z.lxor (Z.lxor (Z.lxor 0 (Multiply 3 s0)) (Multiply 1 s1))
                         (Multiply 1 s2)) (Multiply 2 s3).

Let D (s : Z) := mix4 14 2 11 1 13 1 9 3 s.
Let O1 (s : Z) := mix4 14 3 11 2 13 1 9 1 s.
Let O2 (s : Z) := mix4 14 1 11 3 13 2 9 1 s.
Let O3 (s : Z) := mix4 14 1 11 1 13 3 9 2 s.

Ltac expand_column :=
  unfold X0, X1, X2, X3; rewrite !Z.lxor_0_l;
  rewrite !Multiply_lxor4 by auto with bytes.

Ltac collapse_column :=
  unfold D, O1, O2, O3;
  rewrite ?mix4_diag, ?mix4_off1, ?mix4_off2, ?mix4_off3 by assumption;
  rewrite ?Z.lxor_0_l, ?Z.lxor_0_r; reflexivity.

Lemma unmix_row0 :
  Z.lxor (Z.lxor (Z.lxor (Z.lxor 0 (Multiply 14 X0)) (Multiply 11 X1))
                 (Multiply 13 X2)) (Multiply 9 X3) = s0.
Proof.
  expand_column.
  transitivity (Z.lxor (Z.lxor (Z.lxor (D s0) (O1 s1)) (O2 s2)) (O3 s3));
    [unfold D, O1, O2, O3, mix4; aac_reflexivity | collapse_column].
Qed.

Lemma unmix_row1 :
  Z.lxor (Z.lxor (Z.lxor (Z.lxor 0 (Multiply 9 X0)) (Multiply 14 X1))
                 (Multiply 11 X2)) (Multiply 13 X3) = s1.
Proof.
  expand_column.
  transitivity (Z.lxor (Z.lxor (Z.lxor (O3 s0) (D s1)) (O1 s2)) (O2 s3));
    [unfold D, O1, O2, O3, mix4; aac_reflexivity | collapse_column].
Qed.

Lemma unmix_row2 :
  Z.lxor (Z.lxor (Z.lxor (Z.lxor 0 (Multiply 13 X0)) (Multiply 9 X1))
                 (Multiply 14 X2)) (Multiply 11 X3) = s2.
Proof.
  expand_column.
  transitivity (Z.lxor (Z.lxor (Z.lxor (O2 s0) (O3 s1)) (D s2)) (O1 s3));
    [unfold D, O1, O2, O3, mix4; aac_reflexivity | collapse_column].
Qed.

Lemma unmix_row3 :
  Z.lxor (Z.lxor (Z.lxor (Z.lxor 0 (Multiply 11 X0)) (Multiply 13 X1))
                 (Multiply 9 X2)) (Multiply 14 X3) = s3.
Proof.
  expand_column.
  transitivity (Z.lxor (Z.lxor (Z.lxor (O1 s0) (O2 s1)) (O3 s2)) (D s3));
    [unfold D, O1, O2, O3, mix4; aac_reflexivity | collapse_column].
Qed.
End Column.

Lemma mixColumns_state (s : Matrix) :
  is_state s ->
  exists s', mixColumns s mixColumnPolynomials = Some s' /\ is_state s' /\
             mixColumns s' mixColumnPolynomialsInverse = Some s.
Proof.
  intros Hs. state_shape s Hs. split_Forall.
  eexists. split; [run; reflexivity|]. split.
  - apply is_state_intro. solve_Forall.
  - run.
    repeat f_equal;
      first [ apply unmix_row0 | apply unmix_row1
            | apply unmix_row2 | apply unmix_row3 ]; assumption.
Qed.

End Rounds.

(** ** aes.go: [Encrypt] and [Decrypt] *)

Section CipherRoundTrip.
Import aes matrix.

Lemma foldM_app {S A : Type} (f : S -> A -> M S) (l1 l2 : list A) (s : S) :
  foldM f (l1 ++ l2) s = (s' <- foldM f l1 s ;; foldM f l2 s').
Proof.
  revert s. induction l1 as [|a l1 IH]; intros s; [reflexivity|].
  cbn [foldM app bind]. destruct (f s a); [apply IH|reflexivity].
Qed.

Lemma foldM_invariant {S A : Type} (I : S -> Prop) (f : S -> A -> M S)
  (l : list A) :
  (forall s a, In a l -> I s -> exists s', f s a = Some s' /\ I s') ->
  forall s, I s -> exists s', foldM f l s = Some s' /\ I s'.
Proof.
  induction l as [|a l IH]; intros Hf s Hs.
  - exists s. split; [reflexivity|assumption].
  - destruct (Hf s a (or_introl eq_refl) Hs) as (s1 & E1 & H1).
    destruct (IH (fun s a Ha => Hf s a (or_intror Ha)) s1 H1) as (s2 & E2 & H2).
    exists s2. cbn [foldM]. rewrite E1. cbn [bind]. split; assumption.
Qed.

Variable sched : list Word.

(** The bodies of the two round loops. *)
Let encRound (state : Matrix) (round : nat) : M Matrix :=
  state <- subBytes state ;;
  state <- shiftRows state ;;
  state <- mixColumns state mixColumnPolynomials ;;
  addRoundKey state sched round.

Let decRound (state : Matrix) (round : nat) : M Matrix :=
  state <- shiftRowsInverse state ;;
  state <- subBytesInverse state ;;
  state <- addRoundKey state sched round ;;
  mixColumns state mixColumnPolynomialsInverse.

Ltac step H := rewrite H; cbn [bind].

(** After [k] rounds of encryption and the byte substitution and row
    shift that follow them, [k] rounds of decryption in the opposite
    order, followed by the inverse row shift and substitution, give the
    state back. *)
Lemma rounds_undone (k : nat) :
  k * 4 + 3 < length sched ->
  forall s, is_state s ->
    exists t g,
      foldM encRound (seq 1 k) s = Some t /\ is_state t /\
      (x <- subBytes t ;; shiftRows x) = Some g /\ is_state g /\
      (d <- foldM decRound (rev (seq 1 k)) g ;;
       d <- shiftRowsInverse d ;; subBytesInverse d) = Some s.
Proof.
  induction k as [|k IH]; intros Hk s Hs.
  - destruct (subBytes_state s Hs) as (u & Eu & Hu & Iu).
    destruct (shiftRows_state u Hu) as (g & Eg & Hg & Ig).
    exists s, g. cbn [seq rev foldM bind ret].
    step Eu. step Ig. auto.
  - destruct (IH ltac:(lia) s Hs) as (t & g & Et & Ht & Eg & Hg & Eback).
    destruct (subBytes_state t Ht) as (u & Eu & Hu & Iu).
    rewrite Eu in Eg. cbn [bind] in Eg.
    destruct (mixColumns_state g Hg) as (m & Em & Hm & Im).
    destruct (addRoundKey_state sched (S k) m Hk Hm) as (t' & Et' & Ht' & It').
    destruct (subBytes_state t' Ht') as (u' & Eu' & Hu' & Iu').
    destruct (shiftRows_state u' Hu') as (g' & Eg' & Hg' & Ig').
    exists t', g'.
    rewrite seq_S, foldM_app, rev_app_distr. cbn [Nat.add rev app].
    step Et. cbn [foldM]. unfold encRound at 1.
    step Eu. step Eg. step Em. step Et'.
    step Eu'. unfold decRound at 1.
    step Ig'. step Iu'. step It'. step Im.
    auto.
Qed.

Lemma Cipher_roundtrip (k : Key) (n : nat) (P : Block) :
  4 * (n + 1) <= length sched -> is_block P ->
  exists C, Encrypt (mkCipher k sched n) P = Some C /\ is_block C /\
            Decrypt (mkCipher k sched n) C = Some P.
Proof.
  intros Hlen HP.
  destruct (parse_state P HP) as (s0 & E0 & H0 & B0).
  destruct (addRoundKey_state sched 0 s0 ltac:(lia) H0) as (s1 & E1 & H1 & I1).
  destruct (rounds_undone (n - 1) ltac:(lia) s1 H1)
    as (t & g & Et & Ht & Eg & Hg & Eback).
  destruct (subBytes_state t Ht) as (u & Eu & Hu & Iu).
  rewrite Eu in Eg. cbn [bind] in Eg.
  destruct (addRoundKey_state sched n g ltac:(lia) Hg) as (e & Ee & He & Ie).
  destruct (matrixBlock_state e He) as (C & EC & HC & PC).
  exists C. unfold Encrypt, Decrypt. cbn [schedule numRounds].
  fold encRound. fold decRound.
  step E0. step E1. step Et. step Eu. step Eg. step Ee.
  split; [exact EC|]. split; [exact HC|].
  step PC. step Ie.
  destruct (foldM decRound (rev (seq 1 (n - 1))) g) as [d|] eqn:Ed;
    cbn [bind] in Eback |- *; [|discriminate].
  destruct (shiftRowsInverse d) as [d1|]; cbn [bind] in Eback |- *;
    [|discriminate].
  step Eback. step I1. exact B0.
Qed.

End CipherRoundTrip.

(** ** key.go: keys and the key schedule *)

Section KeySchedule.
Import aes.

Lemma length_set_nth {A : Type} (l : list A) (i : nat) (v : A) :
  length (set_nth l i v) = length l.
Proof.
  revert i. induction l as [|a l IH]; intros [|i]; cbn [set_nth length];
    try reflexivity. rewrite IH. reflexivity.
Qed.

Lemma store_some {A : Type} (l : list A) (i : nat) (v : A) :
  i < length l -> store l i v = Some (set_nth l i v).
Proof.
  intros Hi. unfold store.
  destruct (Nat.ltb_spec i (length l)); [reflexivity|lia].
Qed.

Lemma length_make (n : nat) : length (make n) = n.
Proof. apply repeat_length. Qed.

Lemma Words_length (bytes : list Z) :
  exists key, Words bytes = Some key /\ length key = length bytes / 4.
Proof.
  unfold Words.
  apply (foldM_invariant (fun key => length key = length bytes / 4));
    [|apply length_make].
  intros key i Hi Hkey. apply in_seq in Hi.
  assert (Hb : 4 * i + 3 < length bytes).
  { pose proof (Nat.Div0.mul_div_le (length bytes) 4). lia. }
  destruct (index_some bytes (4 * i)) as [b0 E0]; [lia|].
  destruct (index_some bytes (4 * i + 1)) as [b1 E1]; [lia|].
  destruct (index_some bytes (4 * i + 2)) as [b2 E2]; [lia|].
  destruct (index_some bytes (4 * i + 3)) as [b3 E3]; [lia|].
  rewrite E0, E1, E2, E3. cbn [bind].
  assert (Hik : i < length key) by lia.
  rewrite (store_some _ _ _ Hik).
  eexists. split; [reflexivity|]. rewrite length_set_nth. exact Hkey.
Qed.

Lemma NewKey_length (bytes : list Z) :
  length bytes = 16 \/ length bytes = 24 \/ length bytes = 32 ->
  exists key, NewKey bytes = Some key /\ length key = length bytes / 4.
Proof.
  intros Hl. unfold NewKey.
  destruct (Words_length bytes) as (key & E & Hk).
  exists key. split; [|exact Hk].
  destruct Hl as [H|[H|H]]; rewrite H; exact E.
Qed.

Lemma NewKey_wrong_length (bytes : list Z) :
  length bytes <> 16 -> length bytes <> 24 -> length bytes <> 32 ->
  NewKey bytes = None.
Proof.
  intros H1 H2 H3. unfold NewKey.
  destruct (Nat.eqb_spec (length bytes) 16); [contradiction|].
  destruct (Nat.eqb_spec (length bytes) 24); [contradiction|].
  destruct (Nat.eqb_spec (length bytes) 32); [contradiction|].
  reflexivity.
Qed.

Lemma Rcon_returns (round : Z) :
  (0 <= round)%Z -> exists w, Rcon round = Some w.
Proof.
  intros Hr. unfold Rcon.
  destruct (Z.ltb_spec round 0); [lia|].
  destruct (Mod_returns (Exp2 (Z.to_nat round)) poly) as (r & E & _).
  - apply to_int_is_int.
  - unfold is_int. change poly with 283%Z. lia.
  - discriminate.
  - rewrite E. cbn [bind]. eexists. reflexivity.
Qed.

Lemma expandKey_length (key : Key) (numRounds numColumns : nat) :
  0 < length key -> length key <= numColumns * (numRounds + 1) ->
  exists out, expandKey key numRounds (length key) numColumns = Some out /\
              length out = numColumns * (numRounds + 1).
Proof.
  intros Hpos Hle. unfold expandKey.
  set (N := numColumns * (numRounds + 1)) in *.
  set (Nk := length key) in *.
  destruct (foldM_invariant (fun out : list Word => length out = N)
              (fun out i => k <- index key i ;; store out i k)
              (seq 0 Nk)) with (s := make N) as (out0 & E0 & H0).
  { intros out i Hi Hout. apply in_seq in Hi.
    destruct (index_some key i) as [k Ek]; [fold Nk; lia|].
    rewrite Ek. cbn [bind].
    assert (Hio : i < length out) by lia.
    rewrite (store_some _ _ _ Hio).
    eexists. split; [reflexivity|]. rewrite length_set_nth. exact Hout. }
  { apply length_make. }
  rewrite E0. cbn [bind].
  apply (foldM_invariant (fun out : list Word => length out = N));
    [|exact H0].
  intros out i Hi Hout. apply in_seq in Hi.
  destruct (Nat.eqb_spec i 0); [lia|].
  destruct (index_some out (i - 1)) as [w Ew]; [lia|].
  rewrite Ew. cbn [bind]. unfold modM at 1.
  destruct (Nat.eqb_spec Nk 0); [lia|]. cbn [bind ret].
  assert (Hword : exists word,
             (if i mod Nk =? 0
              then rc <- Rcon (Z.of_nat (i / Nk) - 1) ;;
                   ret (Z.lxor (SubstituteWord (RotateWord w)) rc)
              else if 6 <? numColumns
                   then r' <- modM i numColumns ;;
                        (if r' =? 4 then ret (SubstituteWord w) else ret w)
                   else ret w) = Some word).
  { destruct (i mod Nk =? 0).
    - destruct (Rcon_returns (Z.of_nat (i / Nk) - 1)) as [rc Erc].
      { assert (1 <= i / Nk) by (apply Nat.div_le_lower_bound; lia). lia. }
      rewrite Erc. cbn [bind ret]. eauto.
    - destruct (Nat.ltb_spec 6 numColumns); [|unfold ret; eauto].
      unfold modM. destruct (Nat.eqb_spec numColumns 0); [lia|].
      cbn [bind ret]. destruct (i mod numColumns =? 4); eauto. }
  destruct Hword as [word Eword]. rewrite Eword. cbn [bind].
  destruct (Nat.ltb_spec i Nk); [lia|].
  destruct (index_some out (i - Nk)) as [p Ep]; [lia|].
  rewrite Ep. cbn [bind].
  assert (Hio : i < length out) by lia.
  rewrite (store_some _ _ _ Hio).
  eexists. split; [reflexivity|]. rewrite length_set_nth. exact Hout.
Qed.

Lemma NewCipher_schedule (key : Key) :
  0 < length key ->
  exists sched, NewCipher key = Some (mkCipher key sched (6 + length key)) /\
                length sched = 4 * (6 + length key + 1).
Proof.
  intros Hpos. unfold NewCipher.
  destruct (expandKey_length key (6 + length key) numColumns Hpos)
    as (sched & E & Hl); [unfold numColumns; lia|].
  exists sched. rewrite E. split; [reflexivity|exact Hl].
Qed.

(** C1: a key of 16, 24 or 32 bytes gives a cipher, and that cipher
    encrypts every 16-byte block to a 16-byte block that it decrypts back
    to the block. *)
Theorem Cipher_Decrypt_Encrypt (keyBytes : list Z) (P : Block) :
  length keyBytes = 16 \/ length keyBytes = 24 \/ length keyBytes = 32 ->
  Forall is_byte keyBytes -> is_block P ->
  exists c C,
    (k <- NewKey keyBytes ;; NewCipher k) = Some c /\
    Encrypt c P = Some C /\ is_block C /\ Decrypt c C = Some P.
Proof.
  intros Hl _ HP.
  destruct (NewKey_length keyBytes Hl) as (key & Ek & Hk).
  assert (Hpos : 0 < length key).
  { rewrite Hk. destruct Hl as [H|[H|H]]; rewrite H; cbv; lia. }
  destruct (NewCipher_schedule key Hpos) as (sched & Ec & Hs).
  destruct (Cipher_roundtrip sched key (6 + length key) P) as (C & EC & HC & DC);
    [lia|assumption|].
  exists (mkCipher key sched (6 + length key)), C.
  rewrite Ek. cbn [bind]. auto.
Qed.

Lemma Cipher_Decrypt_Encrypt_witness :
  exists c C,
    (k <- NewKey (map Z.of_nat (seq 0 16)) ;; NewCipher k) = Some c /\
    Encrypt c (repeat 17%Z 16) = Some C /\ is_block C /\
    Decrypt c C = Some (repeat 17%Z 16).
Proof.
  apply (Cipher_Decrypt_Encrypt (map Z.of_nat (seq 0 16)) (repeat 17%Z 16)).
  - left. reflexivity.
  - apply Forall_is_byteb. reflexivity.
  - split; [reflexivity|]. apply Forall_is_byteb. reflexivity.
Defined.

End KeySchedule.

(** ** key.go: the words of the schedule *)

Section ScheduleWords.
Import aes.

Lemma index_set_nth_same {A : Type} (l : list A) (i : nat) (v : A) :
  i < length l -> index (set_nth l i v) i = Some v.
Proof.
  revert i. induction l as [|a l IH]; intros [|i] Hi; cbn in *;
    try lia; [reflexivity|]. apply IH. lia.
Qed.

Lemma index_set_nth_other {A : Type} (l : list A) (i j : nat) (v : A) :
  i <> j -> index (set_nth l i v) j = index l j.
Proof.
  revert i j. induction l as [|a l IH]; intros [|i] [|j] Hij; cbn;
    try reflexivity; try lia. apply IH. lia.
Qed.

Lemma store_inv {A : Type} (l l' : list A) (i : nat) (v : A) :
  store l i v = Some l' -> i < length l /\ l' = set_nth l i v.
Proof.
  unfold store. destruct (Nat.ltb_spec i (length l)); [|discriminate].
  intros E. injection E as <-. split; [assumption|reflexivity].
Qed.

Lemma foldM_seq_preserves {S : Type} (I : nat -> S -> Prop)
  (f : S -> nat -> M S) :
  forall (len start : nat) (s s' : S),
    (forall j s s1, start <= j < start + len -> I j s ->
                    f s j = Some s1 -> I (Datatypes.S j) s1) ->
    I start s -> foldM f (seq start len) s = Some s' ->
    I (start + len) s'.
Proof.
  induction len as [|len IH]; intros start s s' Hf Hs E.
  - cbn in E. injection E as <-. rewrite Nat.add_0_r. exact Hs.
  - cbn [seq foldM] in E. destruct (f s start) as [s1|] eqn:E1;
      cbn [bind] in E; [|discriminate].
    replace (start + Datatypes.S len) with (Datatypes.S start + len) by lia.
    apply (IH (Datatypes.S start) s1 s'); [|  |exact E].
    + intros j s2 s3 Hj. apply Hf. lia.
    + apply (Hf start s s1); [lia|assumption|assumption].
Qed.

Lemma expandKey_plain_words (key : Key) (numRounds : nat) (sched : list Word) :
  0 < length key ->
  expandKey key numRounds (length key) 4 = Some sched ->
  forall i, length key <= i < 4 * (numRounds + 1) ->
            i mod length key <> 0 -> plain_word (length key) sched i.
Proof.
  intros Hpos E. unfold expandKey in E.
  set (N := 4 * (numRounds + 1)) in *.
  set (Nk := length key) in *.
  destruct (foldM (fun out i => k <- index key i ;; store out i k)
                  (seq 0 Nk) (make N)) as [out0|] eqn:E0;
    cbn [bind] in E; [|discriminate].
  assert (H0 : length out0 = N).
  { apply (foldM_seq_preserves (fun _ out => length out = N)) in E0;
      [exact E0| |apply length_make].
    intros j s s1 _ Hs Ej.
    destruct (index key j); cbn [bind] in Ej; [|discriminate].
    apply store_inv in Ej. destruct Ej as [_ ->].
    rewrite length_set_nth. exact Hs. }
  pose (I := fun (j : nat) (out : list Word) =>
               length out = N /\
               forall i, Nk <= i < j -> i mod Nk <> 0 -> plain_word Nk out i).
  assert (HI : I (Nk + (N - Nk)) sched).
  { apply (foldM_seq_preserves I) with (3 := E).
    - intros j out out1 Hj [Hlen Hinv] Ej.
      destruct (Nat.eqb_spec j 0); [lia|].
      destruct (index out (j - 1)) as [t|] eqn:Et; cbn [bind] in Ej;
        [|discriminate].
      unfold modM at 1 in Ej.
      destruct (Nat.eqb_spec Nk 0); [lia|]. cbn [bind ret] in Ej.
      change (6 <? 4) with false in Ej.
      destruct (Nat.eqb_spec (j mod Nk) 0) as [Hz|Hnz].
      + destruct (Rcon (Z.of_nat (j / Nk) - 1)); cbn [bind ret] in Ej;
          [|discriminate].
        destruct (Nat.ltb_spec j Nk); [discriminate|].
        destruct (index out (j - Nk)) as [p|]; cbn [bind] in Ej;
          [|discriminate].
        apply store_inv in Ej. destruct Ej as [Hjl ->].
        split; [rewrite length_set_nth; exact Hlen|].
        intros i Hi Hm.
        assert (i <> j) by (intros ->; contradiction).
        destruct (Hinv i ltac:(lia) Hm) as (t' & p' & A & B & C).
        exists t', p'. rewrite !index_set_nth_other by lia. auto.
      + cbn [bind ret] in Ej.
        destruct (Nat.ltb_spec j Nk); [discriminate|].
        destruct (index out (j - Nk)) as [p|] eqn:Ep; cbn [bind] in Ej;
          [|discriminate].
        apply store_inv in Ej. destruct Ej as [Hjl ->].
        split; [rewrite length_set_nth; exact Hlen|].
        intros i Hi Hm.
        destruct (Nat.eq_dec i j) as [->|Hij].
        * exists t, p. rewrite !index_set_nth_other by lia.
          rewrite index_set_nth_same by assumption. auto.
        * destruct (Hinv i ltac:(lia) Hm) as (t' & p' & A & B & C).
          exists t', p'. rewrite !index_set_nth_other by lia. auto.
    - split; [exact H0|]. intros i Hi. lia. }
  destruct HI as [_ HI]. intros i Hi Hm. apply HI; [lia|assumption].
Qed.

Lemma sbox_no_fixed_point (x : Z) : is_byte x -> lookup sbox x <> x.
Proof.
  intros Hx He.
  assert (H : negb (lookup sbox x =? x)%Z = true).
  { apply (forall_bytes (fun x => negb (lookup sbox x =? x)%Z));
      [vm_compute; reflexivity | assumption]. }
  apply negb_true_iff, Z.eqb_neq in H. contradiction.
Qed.

Lemma low_byte_shifted (s : Z) (k : Z) :
  (8 <= k)%Z -> Z.land (to_uint32 (Z.shiftl s k)) 255 = 0%Z.
Proof.
  intros Hk. change 255%Z with (Z.ones 8). rewrite Z.land_ones by lia.
  unfold to_uint32.
  rewrite Z.mod_mod_divide by (exists (2 ^ 24)%Z; reflexivity).
  rewrite Z.shiftl_mul_pow2 by lia.
  replace k with ((k - 8) + 8)%Z by lia.
  rewrite Z.pow_add_r by lia. rewrite Z.mul_assoc.
  apply Z.mod_mul. lia.
Qed.

Lemma SubstituteWord_low_byte (w : Word) :
  Z.land (SubstituteWord w) 255 = lookup sbox (Z.land w 255).
Proof.
  unfold SubstituteWord.
  cbn [seq fold_left Nat.mul Nat.sub Nat.add Z.of_nat Pos.of_succ_nat Pos.succ].
  rewrite !Z.land_lor_distr_l, !low_byte_shifted by lia.
  rewrite Z.land_0_l, !Z.lor_0_l, Z.shiftr_0_r, Z.shiftl_0_r.
  change 255%Z with (Z.ones 8). rewrite !Z.land_ones by lia.
  unfold to_uint32.
  rewrite Z.mod_mod_divide by (exists (2 ^ 24)%Z; reflexivity).
  apply Z.mod_small. apply is_byte_sbox.
Qed.

Lemma SubstituteWord_no_fixed_point (w : Word) : SubstituteWord w <> w.
Proof.
  intros He.
  apply (sbox_no_fixed_point (Z.land w 255)).
  - change 255%Z with (Z.ones 8). rewrite Z.land_ones by lia.
    apply is_byte_to_byte.
  - rewrite <- SubstituteWord_low_byte, He. reflexivity.
Qed.

(** C4: at a position [i] of the schedule that is not a multiple of
    [Nk], the word is [out[i - Nk]] xored with the temporary word, and
    the temporary word is [substitute_word(out[i - 1])] exactly when
    [Nk > 6] and [i mod Nb = 4] for [Nb = 4]; no position satisfies
    that, and the word is [out[i - Nk] xor out[i - 1]]. *)
Theorem expandKey_temporary_word (key : Key) (i : nat) :
  length key = 4 \/ length key = 6 \/ length key = 8 ->
  length key <= i < 4 * (6 + length key + 1) ->
  i mod length key <> 0 ->
  exists sched t prev w,
    expandKey key (6 + length key) (length key) 4 = Some sched /\
    index sched (i - 1) = Some t /\
    index sched (i - length key) = Some prev /\
    index sched i = Some w /\
    w = Z.lxor prev (if (6 <? length key) && (i mod 4 =? 4)
                     then SubstituteWord t else t) /\
    (w = Z.lxor prev (SubstituteWord t) <->
     6 < length key /\ i mod 4 = 4).
Proof.
  intros Hk Hi Hm.
  assert (Hpos : 0 < length key) by lia.
  destruct (expandKey_length key (6 + length key) 4 Hpos ltac:(lia))
    as (sched & E & Hl).
  destruct (expandKey_plain_words key (6 + length key) sched Hpos E i Hi Hm)
    as (t & prev & Et & Ep & Ew).
  exists sched, t, prev, (Z.lxor prev t).
  assert (Hc : (i mod 4 =? 4) = false).
  { apply Nat.eqb_neq. pose proof (Nat.mod_upper_bound i 4). lia. }
  rewrite Hc, andb_false_r.
  repeat (split; [assumption || reflexivity|]).
  split.
  - intros He. exfalso.
    apply (SubstituteWord_no_fixed_point t).
    apply (f_equal (Z.lxor prev)) in He.
    rewrite !lxor_cancel in He. symmetry. exact He.
  - intros [_ H4]. apply Nat.eqb_neq in Hc. contradiction.
Qed.

Lemma expandKey_temporary_word_witness :
  exists sched t prev w,
    expandKey [1; 2; 3; 4; 5; 6; 7; 8]%Z 14 8 4 = Some sched /\
    index sched 11 = Some t /\
    index sched 4 = Some prev /\
    index sched 12 = Some w /\
    w = Z.lxor prev (if (6 <? 8) && (12 mod 4 =? 4)
                     then SubstituteWord t else t) /\
    (w = Z.lxor prev (SubstituteWord t) <-> 6 < 8 /\ 12 mod 4 = 4).
Proof.
  apply (expandKey_temporary_word [1; 2; 3; 4; 5; 6; 7; 8]%Z 12).
  - right. right. reflexivity.
  - cbn. lia.
  - cbn. lia.
Defined.

End ScheduleWords.

(** ** aes.go and key.go on the FIPS-197 vectors *)

Section Vectors.
Import aes.

(** Appendix C.1 (AES-128) and C.2 (AES-192) are reproduced. *)
Lemma Encrypt_FIPS_C1_C2 :
  (k <- NewKey (map Z.of_nat (seq 0 16)) ;; c <- NewCipher k ;;
   Encrypt c [0x00; 0x11; 0x22; 0x33; 0x44; 0x55; 0x66; 0x77;
              0x88; 0x99; 0xaa; 0xbb; 0xcc; 0xdd; 0xee; 0xff]%Z)
  = Some [0x69; 0xc4; 0xe0; 0xd8; 0x6a; 0x7b; 0x04; 0x30;
          0xd8; 0xcd; 0xb7; 0x80; 0x70; 0xb4; 0xc5; 0x5a]%Z /\
  (k <- NewKey (map Z.of_nat (seq 0 24)) ;; c <- NewCipher k ;;
   Encrypt c [0x00; 0x11; 0x22; 0x33; 0x44; 0x55; 0x66; 0x77;
              0x88; 0x99; 0xaa; 0xbb; 0xcc; 0xdd; 0xee; 0xff]%Z)
  = Some [0xdd; 0xa9; 0x7c; 0xa4; 0x86; 0x4c; 0xdf; 0xe0;
          0x6e; 0xaf; 0x70; 0xa0; 0xec; 0x0d; 0x71; 0x91]%Z.
Proof. split; vm_compute; reflexivity. Qed.

(** C2: under the AES-256 key 00 01 ... 1f the code encrypts the block
    00 11 ... ff to eb bb 61 b1 ..., not to the ciphertext
    8e a2 b7 ca ... of FIPS-197 Appendix C.3: [expandKey] tests
    [numColumns > 6] where FIPS-197 tests [Nk > 6], so the extra
    substitution of the 256-bit schedule is never made: the word at
    index 12 is b563d28f where Appendix C.3 has 1651a8cd. *)
Theorem Encrypt_FIPS_C3 :
  (k <- NewKey (map Z.of_nat (seq 0 32)) ;; c <- NewCipher k ;;
   Encrypt c [0x00; 0x11; 0x22; 0x33; 0x44; 0x55; 0x66; 0x77;
              0x88; 0x99; 0xaa; 0xbb; 0xcc; 0xdd; 0xee; 0xff]%Z)
  = Some [0xeb; 0xbb; 0x61; 0xb1; 0x87; 0x94; 0xd6; 0xe6;
          0x7d; 0x2c; 0x1c; 0xf8; 0xee; 0xc9; 0x79; 0x3e]%Z /\
  [0xeb; 0xbb; 0x61; 0xb1; 0x87; 0x94; 0xd6; 0xe6;
   0x7d; 0x2c; 0x1c; 0xf8; 0xee; 0xc9; 0x79; 0x3e]%Z
  <> [0x8e; 0xa2; 0xb7; 0xca; 0x51; 0x67; 0x45; 0xbf;
      0xea; 0xfc; 0x49; 0x90; 0x4b; 0x49; 0x60; 0x89]%Z /\
  (k <- NewKey (map Z.of_nat (seq 0 32)) ;;
   sched <- expandKey k 14 8 4 ;; index sched 12)
  = Some 0xb563d28f%Z /\
  0xb563d28f%Z <> 0x1651a8cd%Z.
Proof.
  split; [vm_compute; reflexivity|].
  split; [discriminate|].
  split; [vm_compute; reflexivity|discriminate].
Qed.

End Vectors.

(** ** The mode layer: [PadBytes] and [Blockify] *)

Ltac Zify.zify_post_hook ::= Z.to_euclidean_division_equations.

Section BlockifyFacts.
Import blockcipher.

Lemma PadBytes_short (bytes : list Z) (n : Z) :
  (n <= Z.of_nat (length bytes))%Z -> PadBytes bytes n = bytes.
Proof.
  intros Hn. unfold PadBytes.
  replace (Z.to_nat (n - Z.of_nat (length bytes))) with 0 by lia.
  reflexivity.
Qed.

Lemma to_Block_16 (b : list Z) : length b = 16 -> to_Block b = Some b.
Proof.
  intros Hb. unfold to_Block. rewrite Hb. cbn [Nat.ltb Nat.leb].
  rewrite <- Hb, firstn_all. reflexivity.
Qed.

(** The loop of [Blockify] from index [i] on. *)
Let loop (i : nat) (l : list Z) (st : list Z * list Block) :=
  foldM (Blockify_body 16) (combine (seq i (length l)) l) st.

Lemma Blockify_loop (bytes : list Z) :
  Blockify bytes 16
  = (st <- loop 0 bytes (make 16, []) ;;
     b <- to_Block (fst st) ;; ret (snd st ++ [b])).
Proof.
  unfold Blockify, modM, loop. cbn [Nat.eqb bind ret].
  destruct (Nat.ltb_spec 0 (length bytes mod 16)) as [Hr|Hr].
  - rewrite PadBytes_short by lia.
    destruct (foldM _ _ _) as [[block out]|]; reflexivity.
  - destruct (foldM _ _ _) as [[block out]|]; reflexivity.
Qed.

Lemma set_nth_app {A : Type} (pre post : list A) (v : A) :
  post <> [] -> set_nth (pre ++ post) (length pre) v = pre ++ v :: tl post.
Proof.
  intros Hpost. induction pre as [|a pre IH]; cbn [app length set_nth].
  - destruct post; [contradiction|reflexivity].
  - rewrite IH. reflexivity.
Qed.

Lemma body_first (i : nat) (x : Z) (cur : list Z) (out : list Block) :
  i mod 16 = 0 -> length cur = 16 -> (i = 0 -> cur = make 16) ->
  Blockify_body 16 (cur, out) (i, x)
  = Some (x :: repeat 0%Z 15, if 0 <? i then out ++ [cur] else out).
Proof.
  intros Hm Hc H0. unfold Blockify_body. rewrite Hm. cbn [Nat.eqb andb].
  destruct (Nat.ltb_spec 0 i) as [Hi|Hi].
  - rewrite to_Block_16 by assumption. reflexivity.
  - rewrite H0 by lia. reflexivity.
Qed.

Lemma body_next (i : nat) (x : Z) (pre post : list Z) (out : list Block) :
  i mod 16 = length pre -> 0 < length pre -> post <> [] ->
  Blockify_body 16 (pre ++ post, out) (i, x)
  = Some (pre ++ x :: tl post, out).
Proof.
  intros Hm Hp Hpost. unfold Blockify_body. rewrite Hm.
  destruct (Nat.eqb_spec (length pre) 0); [lia|].
  cbn [andb bind ret].
  rewrite store_some.
  - rewrite set_nth_app by assumption. reflexivity.
  - rewrite length_app. destruct post; [contradiction|cbn; lia].
Qed.

Lemma loop_cons (i : nat) (x : Z) (l : list Z) (st : list Z * list Block) :
  loop i (x :: l) st
  = (st' <- Blockify_body 16 st (i, x) ;; loop (S i) l st').
Proof. reflexivity. Qed.

Lemma fill (xs rest : list Z) :
  forall (i : nat) (pre post : list Z) (out : list Block),
    0 < length pre -> (xs <> [] -> i mod 16 = length pre) ->
    length pre + length xs <= 16 -> length (pre ++ post) = 16 ->
    loop i (xs ++ rest) (pre ++ post, out)
    = loop (i + length xs) rest
        (pre ++ xs ++ skipn (length xs) post, out).
Proof.
  induction xs as [|x xs IH]; intros i pre post out Hp Hm Hle Hlen.
  - cbn [app length skipn]. rewrite Nat.add_0_r. reflexivity.
  - rewrite length_app in Hlen. cbn [length] in Hle.
    cbn [app]. rewrite loop_cons.
    rewrite body_next;
      [|apply Hm; discriminate|assumption|destruct post; [cbn in Hlen; lia|discriminate]].
    cbn [bind].
    replace (pre ++ x :: tl post) with ((pre ++ [x]) ++ tl post)
      by (rewrite <- app_assoc; reflexivity).
    rewrite IH.
    + cbn [length]. replace (S i + length xs) with (i + S (length xs)) by lia.
      rewrite <- app_assoc. cbn [app].
      destruct post as [|p post]; [cbn in Hlen; lia|]. reflexivity.
    + rewrite length_app. cbn. lia.
    + intros Hxs. rewrite length_app. cbn [length].
      assert (0 < length xs) by (destruct xs; [contradiction|cbn; lia]).
      specialize (Hm ltac:(discriminate)). lia.
    + rewrite length_app. cbn [length]. lia.
    + rewrite !length_app. cbn [length].
      destruct post as [|p post]; [cbn in Hlen; lia|]. cbn [tl length] in *. lia.
Qed.

Lemma loop_block (blk rest : list Z) (i : nat) (cur : list Z)
  (out : list Block) :
  length blk = 16 -> length cur = 16 -> i mod 16 = 0 ->
  (i = 0 -> cur = make 16) ->
  loop i (blk ++ rest) (cur, out)
  = loop (i + 16) rest (blk, if 0 <? i then out ++ [cur] else out).
Proof.
  intros Hb Hc Hm H0.
  destruct blk as [|x xs]; [discriminate|].
  cbn [length] in Hb.
  cbn [app]. rewrite loop_cons, body_first by assumption. cbn [bind].
  change (x :: repeat 0%Z 15) with ([x] ++ repeat 0%Z 15).
  rewrite fill.
  - replace (length xs) with 15 by lia.
    replace (S i + 15) with (i + 16) by lia.
    change (skipn 15 (repeat 0%Z 15)) with (@nil Z).
    rewrite app_nil_r. reflexivity.
  - cbn. lia.
  - intros _. cbn [length]. lia.
  - cbn [length]. lia.
  - reflexivity.
Qed.

Lemma loop_blocks (blocks : list (list Z)) (rest : list Z) :
  Forall len16 blocks -> blocks <> [] ->
  forall (i : nat) (cur : list Z) (out : list Block),
    i mod 16 = 0 -> length cur = 16 -> (i = 0 -> cur = make 16) ->
    loop i (concat blocks ++ rest) (cur, out)
    = loop (i + 16 * length blocks) rest
        (last blocks [],
         (if 0 <? i then out ++ [cur] else out) ++ removelast blocks).
Proof.
  induction blocks as [|b bs IH]; intros Hall Hne i cur out Hm Hc H0;
    [contradiction|].
  inversion Hall as [|? ? Hb Hbs]; subst.
  cbn [concat]. rewrite <- app_assoc, loop_block by assumption.
  destruct bs as [|b' bs].
  - cbn [concat app length last removelast]. rewrite app_nil_r.
    replace (i + 16 * 1) with (i + 16) by lia. reflexivity.
  - rewrite IH; [|assumption|discriminate|lia|exact Hb|lia].
    destruct (Nat.ltb_spec 0 (i + 16)); [|lia].
    change (last (b :: b' :: bs) []) with (last (b' :: bs) []).
    change (removelast (b :: b' :: bs)) with (b :: removelast (b' :: bs)).
    rewrite <- app_assoc.
    replace (i + 16 + 16 * length (b' :: bs))
      with (i + 16 * length (b :: b' :: bs)) by (cbn [length]; lia).
    reflexivity.
Qed.

Lemma last_len16 (blocks : list (list Z)) :
  Forall len16 blocks -> blocks <> [] -> len16 (last blocks []).
Proof.
  intros Hall Hne. rewrite Forall_forall in Hall. apply Hall.
  destruct (exists_last Hne) as (l' & a & E).
  rewrite E, last_last. apply in_or_app. right. left. reflexivity.
Qed.

(** A non-empty sequence of whole blocks is split into exactly those
    blocks. *)
Lemma Blockify_concat (blocks : list (list Z)) :
  Forall len16 blocks -> blocks <> [] ->
  Blockify (concat blocks) 16 = Some blocks.
Proof.
  intros Hall Hne. rewrite Blockify_loop.
  rewrite <- (app_nil_r (concat blocks)).
  rewrite loop_blocks; [|assumption|assumption|reflexivity|reflexivity|reflexivity].
  unfold loop. cbn [length seq combine foldM ret bind fst snd Nat.ltb Nat.leb app].
  rewrite to_Block_16 by (apply last_len16; assumption). cbn [bind ret].
  rewrite <- app_removelast_last by assumption. reflexivity.
Qed.

Lemma skipn_repeat {A : Type} (a : A) (m : nat) :
  forall n, skipn n (repeat a m) = repeat a (m - n).
Proof.
  induction m as [|m IH]; intros [|n]; cbn [repeat skipn Nat.sub];
    try reflexivity. apply IH.
Qed.

Lemma loop_tail (tail : list Z) (i : nat) (cur : list Z) (out : list Block) :
  0 < length tail < 16 -> i mod 16 = 0 -> length cur = 16 ->
  (i = 0 -> cur = make 16) ->
  loop i tail (cur, out)
  = Some (tail ++ repeat 0%Z (16 - length tail),
          if 0 <? i then out ++ [cur] else out).
Proof.
  intros Ht Hm Hc H0.
  destruct tail as [|x xs]; [cbn in Ht; lia|]. cbn [length] in Ht.
  rewrite loop_cons, body_first by assumption. cbn [bind].
  change (x :: repeat 0%Z 15) with ([x] ++ repeat 0%Z 15).
  rewrite <- (app_nil_r xs) at 1.
  rewrite fill.
  - unfold loop. cbn [length seq combine foldM ret].
    rewrite skipn_repeat. cbn [app length].
    replace (16 - S (length xs)) with (15 - length xs) by lia.
    reflexivity.
  - cbn. lia.
  - intros _. cbn [length]. lia.
  - cbn [length]. lia.
  - reflexivity.
Qed.

(** Whole blocks followed by a partial block: the partial block is
    completed with zero bytes. *)
Lemma Blockify_partial (full : list (list Z)) (tail : list Z) :
  Forall len16 full -> 0 < length tail < 16 ->
  Blockify (concat full ++ tail) 16
  = Some (full ++ [tail ++ repeat 0%Z (16 - length tail)]).
Proof.
  intros Hall Ht. rewrite Blockify_loop.
  assert (Hlen : length (tail ++ repeat 0%Z (16 - length tail)) = 16).
  { rewrite length_app, repeat_length. lia. }
  destruct full as [|b bs].
  - cbn [concat app].
    rewrite loop_tail; [|assumption|reflexivity|reflexivity|reflexivity].
    cbn [bind fst snd Nat.ltb Nat.leb].
    rewrite to_Block_16 by exact Hlen. reflexivity.
  - rewrite loop_blocks;
      [|assumption|discriminate|reflexivity|reflexivity|reflexivity].
    rewrite loop_tail;
      [|assumption|lia|apply last_len16; [assumption|discriminate]|cbn [length]; lia].
    destruct (Nat.ltb_spec 0 (0 + 16 * length (b :: bs)));
      [|cbn [length] in *; lia].
    cbn [bind fst snd Nat.ltb Nat.leb app].
    rewrite to_Block_16 by exact Hlen. cbn [bind ret].
    change Block with (list Z).
    rewrite <- (app_removelast_last (l := b :: bs) []) by discriminate.
    reflexivity.
Qed.

Lemma fold_left_snoc (pad : Z) (l : list nat) :
  forall bytes : list Z,
    fold_left (fun bytes _ => bytes ++ [pad]) l bytes
    = bytes ++ repeat pad (length l).
Proof.
  induction l as [|a l IH]; intros bytes; cbn [fold_left length repeat].
  - symmetry. apply app_nil_r.
  - rewrite IH, <- app_assoc. reflexivity.
Qed.

(** [PadBytes] completes [bytes] to [n] bytes with the count of bytes it
    adds. *)
Lemma PadBytes_pads (bytes : list Z) (n : Z) :
  PadBytes bytes n
  = bytes ++ repeat (to_byte (n - Z.of_nat (length bytes)))
                    (Z.to_nat (n - Z.of_nat (length bytes))).
Proof.
  unfold PadBytes. rewrite fold_left_snoc, length_seq. reflexivity.
Qed.

(** C6: a final partial block of [r] bytes, [0 < r < 16], is completed
    by [Blockify] with [16 - r] zero bytes, not with bytes of value
    [16 - r]; the latter is what [PadBytes] appends when it is given the
    block size, but [Blockify] passes it the number of blocks. *)
Theorem Blockify_pads_with_zeros (full : list (list Z)) (tail : list Z) :
  Forall len16 full -> 0 < length tail < 16 ->
  Blockify (concat full ++ tail) 16
  = Some (full ++ [tail ++ repeat 0%Z (16 - length tail)]) /\
  PadBytes tail 16
  = tail ++ repeat (Z.of_nat (16 - length tail)) (16 - length tail) /\
  repeat 0%Z (16 - length tail)
  <> repeat (Z.of_nat (16 - length tail)) (16 - length tail).
Proof.
  intros Hall Ht. split; [apply Blockify_partial; assumption|]. split.
  - rewrite PadBytes_pads.
    replace (Z.to_nat (16 - Z.of_nat (length tail))) with (16 - length tail)
      by lia.
    replace (16 - Z.of_nat (length tail))%Z
      with (Z.of_nat (16 - length tail)) by lia.
    rewrite to_byte_small; [reflexivity|]. unfold is_byte. lia.
  - destruct (16 - length tail) as [|k] eqn:Ek; [lia|].
    cbn [repeat]. intros E. injection E as E _. lia.
Qed.

Lemma Blockify_pads_with_zeros_witness :
  Blockify (concat [] ++ [65%Z]) 16
  = Some ([] ++ [[65%Z] ++ repeat 0%Z (16 - length [65%Z])]) /\
  PadBytes [65%Z] 16
  = [65%Z] ++ repeat (Z.of_nat (16 - length [65%Z])) (16 - length [65%Z]) /\
  repeat 0%Z (16 - length [65%Z])
  <> repeat (Z.of_nat (16 - length [65%Z])) (16 - length [65%Z]).
Proof.
  apply (Blockify_pads_with_zeros [] [65%Z]).
  - constructor.
  - cbn. lia.
Defined.

Lemma Forall_set_nth {A : Type} (P : A -> Prop) (l : list A) (i : nat) (v : A) :
  Forall P l -> P v -> Forall P (set_nth l i v).
Proof.
  intros Hl Hv. revert i. induction Hl as [|a l Ha Hl IH]; intros [|i];
    cbn [set_nth]; constructor; auto.
Qed.

Lemma is_block_make : is_block (make 16).
Proof. split; [reflexivity|]. apply Forall_is_byteb. reflexivity. Qed.

(** [Blockify] returns on every byte string, with at least one block. *)
Lemma Blockify_blocks (bytes : list Z) :
  Forall is_byte bytes ->
  exists blocks, Blockify bytes 16 = Some blocks /\ blocks <> [] /\
                 Forall is_block blocks.
Proof.
  intros Hb. rewrite Blockify_loop. unfold loop.
  destruct (foldM_invariant
              (fun st : list Z * list Block =>
                 is_block (fst st) /\ Forall is_block (snd st))
              (Blockify_body 16)
              (combine (seq 0 (length bytes)) bytes))
    with (s := (make 16, @nil Block)) as ([block out] & E & Hblock & Hout).
  - intros [block out] [i x] Hin [[Hl Hbl] Ho]. cbn [fst snd] in *.
    apply in_combine_r in Hin.
    assert (Hx : is_byte x) by (rewrite Forall_forall in Hb; auto).
    unfold Blockify_body.
    assert (Hi : i mod 16 < 16) by (apply Nat.mod_upper_bound; lia).
    destruct ((i mod 16 =? 0) && (0 <? i)).
    + rewrite to_Block_16 by assumption. cbn [bind ret].
      rewrite store_some by (rewrite length_make; exact Hi). cbn [bind ret].
      eexists. split; [reflexivity|]. cbn [fst snd]. split.
      * split; [rewrite length_set_nth; reflexivity|].
        apply Forall_set_nth; [apply is_block_make|assumption].
      * apply Forall_app. split; [assumption|].
        constructor; [split; assumption|constructor].
    + cbn [bind ret]. rewrite store_some by (rewrite Hl; exact Hi).
      cbn [bind ret]. eexists. split; [reflexivity|]. cbn [fst snd]. split.
      * split; [rewrite length_set_nth; assumption|].
        apply Forall_set_nth; assumption.
      * assumption.
  - cbn [fst snd]. split; [apply is_block_make|constructor].
  - rewrite E. cbn [bind fst snd] in *.
    rewrite to_Block_16 by apply Hblock. cbn [bind ret].
    eexists. split; [reflexivity|]. split.
    + destruct out; discriminate.
    + apply Forall_app. split; [assumption|]. constructor; [assumption|constructor].
Qed.

Lemma chunks_exist (k : nat) :
  forall P : list Z, length P = 16 * k ->
    exists blocks, concat blocks = P /\ length blocks = k /\
                   Forall len16 blocks.
Proof.
  induction k as [|k IH]; intros P HP.
  - exists []. destruct P; [|discriminate]. repeat split. constructor.
  - destruct (IH (skipn 16 P)) as (bs & Ec & Hl & Ha).
    { rewrite length_skipn. lia. }
    exists (firstn 16 P :: bs). cbn [concat length]. rewrite Ec, Hl.
    split; [apply firstn_skipn|]. split; [reflexivity|].
    constructor; [|assumption]. unfold len16. rewrite length_firstn. lia.
Qed.

End BlockifyFacts.

(** ** The mode layer: ECB, CBC and CTR *)

Section XorBlocks.

Lemma length_xor_blocks (k b : list Z) :
  length k = 16 -> length b = 16 -> length (xor_blocks k b) = 16.
Proof.
  intros Hk Hb. unfold xor_blocks.
  rewrite length_map, length_combine, Hk, Hb. reflexivity.
Qed.

Lemma xor_blocks_involutive (k : list Z) :
  forall b, length b <= length k -> xor_blocks k (xor_blocks k b) = b.
Proof.
  unfold xor_blocks.
  induction k as [|x k IH]; intros [|y b] Hl; cbn in *; try reflexivity; try lia.
  rewrite lxor_cancel. f_equal. apply IH. lia.
Qed.

Lemma Forall_xor_blocks (k b : list Z) :
  Forall is_byte k -> Forall is_byte b -> Forall is_byte (xor_blocks k b).
Proof.
  unfold xor_blocks. intros Hk. revert b.
  induction Hk as [|x k Hx Hk IH]; intros b Hb; [constructor|].
  destruct Hb as [|y b Hy Hb]; cbn; constructor; auto with bytes.
Qed.

Lemma is_block_xor_blocks (k b : list Z) :
  is_block k -> is_block b -> is_block (xor_blocks k b).
Proof.
  intros [Hk Fk] [Hb Fb]. split.
  - apply length_xor_blocks; assumption.
  - apply Forall_xor_blocks; assumption.
Qed.

(** [XOR(a, b)] on two blocks is the element-wise xor. *)
Lemma XOR_blocks (a b : list Z) :
  length a = 16 -> length b = 16 ->
  blockcipher.XOR a b = Some (xor_blocks b a).
Proof.
  intros Ha Hb.
  destruct (length16_shape a Ha)
    as (a0 & a1 & a2 & a3 & a4 & a5 & a6 & a7 & a8 & a9 & a10 & a11
        & a12 & a13 & a14 & a15 & ->).
  destruct (length16_shape b Hb)
    as (b0 & b1 & b2 & b3 & b4 & b5 & b6 & b7 & b8 & b9 & b10 & b11
        & b12 & b13 & b14 & b15 & ->).
  reflexivity.
Qed.

Lemma XOR_length_mismatch (a b : list Z) :
  length a <> length b -> blockcipher.XOR a b = None.
Proof.
  intros Hl. unfold blockcipher.XOR.
  destruct (Nat.eqb_spec (length b) (length a)); [congruence|reflexivity].
Qed.

Lemma last_cons_default {A : Type} (l : list A) :
  forall e d : A, last (e :: l) d = last l e.
Proof.
  induction l as [|a l IH]; intros e d; [reflexivity|].
  change (last (e :: a :: l) d) with (last (a :: l) d).
  rewrite !IH. reflexivity.
Qed.

Lemma Forall_len16_is_block (blocks : list (list Z)) :
  Forall is_block blocks -> Forall len16 blocks.
Proof. apply Forall_impl. intros b [Hl _]. exact Hl. Qed.

End XorBlocks.

Section CTR.
Import blockcipher.
Context {C : Type} `{Cipher C}.
Variables (cipher : C) (K : Block).
Hypothesis keystream : Encrypt cipher zero_block = Some K.
Hypothesis keystream_length : length K = 16.

Lemma ctr_body_block (out : list Z) (nonce : Z) (b : Block) :
  length b = 16 ->
  ctr_body (out, mk_ctr nonce cipher) b
  = Some (out ++ xor_blocks K b, mk_ctr (to_int (nonce + 1)) cipher).
Proof.
  intros Hb. unfold ctr_body. cbn [ctr_cipher ctr_nonce].
  change (to_uint 0) with 0%Z.
  change (LittleEndian 0 8) with (Some (repeat 0%Z 8)). cbn [bind].
  change (to_Block (([] ++ repeat 0%Z 8) ++ repeat 0%Z 8))
    with (Some zero_block).
  cbn [bind]. rewrite keystream. cbn [bind].
  destruct (length16_shape K keystream_length)
    as (k0 & k1 & k2 & k3 & k4 & k5 & k6 & k7 & k8 & k9 & k10 & k11
        & k12 & k13 & k14 & k15 & ->).
  destruct (length16_shape b Hb)
    as (b0 & b1 & b2 & b3 & b4 & b5 & b6 & b7 & b8 & b9 & b10 & b11
        & b12 & b13 & b14 & b15 & ->).
  reflexivity.
Qed.

Lemma ctr_loop (blocks : list Block) :
  Forall len16 blocks ->
  forall (out : list Z) (nonce : Z),
    foldM ctr_body blocks (out, mk_ctr nonce cipher)
    = Some (out ++ concat (map (xor_blocks K) blocks),
            mk_ctr (bump_nonce (length blocks) nonce) cipher).
Proof.
  induction 1 as [|b blocks Hb Hbs IH]; intros out nonce.
  - cbn. rewrite app_nil_r. reflexivity.
  - cbn [foldM]. rewrite ctr_body_block by exact Hb. cbn [bind].
    rewrite IH. cbn [map concat length]. rewrite <- app_assoc.
    unfold bump_nonce. rewrite Nat.iter_succ_r. reflexivity.
Qed.

Lemma ctr_Encrypt_blocks (bytes : list Z) (blocks : list Block) (nonce : Z) :
  Blockify bytes 16 = Some blocks -> Forall len16 blocks ->
  ctr_Encrypt (mk_ctr nonce cipher) bytes
  = Some (concat (map (xor_blocks K) blocks),
          mk_ctr (bump_nonce (length blocks) nonce) cipher).
Proof.
  intros E Hall. unfold ctr_Encrypt. rewrite E. cbn [bind].
  rewrite ctr_loop by assumption. reflexivity.
Qed.

(** C3: every block of the output of [ctr.Encrypt] is the input block
    xored with the encryption of the all-zero block, whatever the stored
    counter is; the counter only counts the blocks. *)
Theorem ctr_Encrypt_ignores_counter (bytes : list Z) (n1 n2 : Z) :
  Forall is_byte bytes ->
  exists blocks,
    Blockify bytes 16 = Some blocks /\ Forall len16 blocks /\
    ctr_Encrypt (mk_ctr n1 cipher) bytes
    = Some (concat (map (xor_blocks K) blocks),
            mk_ctr (bump_nonce (length blocks) n1) cipher) /\
    ctr_Encrypt (mk_ctr n2 cipher) bytes
    = Some (concat (map (xor_blocks K) blocks),
            mk_ctr (bump_nonce (length blocks) n2) cipher).
Proof.
  intros Hb.
  destruct (Blockify_blocks bytes Hb) as (blocks & E & _ & Hall).
  apply Forall_len16_is_block in Hall.
  exists blocks. split; [exact E|]. split; [exact Hall|].
  split; apply ctr_Encrypt_blocks; assumption.
Qed.

Lemma map_xor_blocks_len16 (blocks : list Block) :
  Forall len16 blocks -> Forall len16 (map (xor_blocks K) blocks).
Proof.
  intros Hall. apply Forall_map. revert Hall. apply Forall_impl.
  intros b Hb. apply length_xor_blocks; assumption.
Qed.

Lemma map_xor_blocks_involutive (blocks : list Block) :
  Forall len16 blocks ->
  map (xor_blocks K) (map (xor_blocks K) blocks) = blocks.
Proof.
  induction 1 as [|b blocks Hb Hbs IH]; [reflexivity|].
  cbn [map]. rewrite IH, xor_blocks_involutive; [reflexivity|].
  unfold len16 in Hb. lia.
Qed.

(** Decrypting what [ctr.Encrypt] returns gives the blocks of the input
    back, padding included. *)
Lemma ctr_roundtrip_blocks (P : list Z) (n1 n2 : Z) :
  Forall is_byte P ->
  exists blocks Ct c1 c2,
    Blockify P 16 = Some blocks /\
    ctr_Encrypt (mk_ctr n1 cipher) P = Some (Ct, c1) /\
    ctr_Decrypt (mk_ctr n2 cipher) Ct = Some (concat blocks, c2).
Proof.
  intros Hb.
  destruct (Blockify_blocks P Hb) as (blocks & E & Hne & Hall).
  apply Forall_len16_is_block in Hall.
  exists blocks. do 3 eexists. split; [exact E|]. split.
  - apply ctr_Encrypt_blocks; eassumption.
  - unfold ctr_Decrypt.
    rewrite (ctr_Encrypt_blocks (concat (map (xor_blocks K) blocks))
               (map (xor_blocks K) blocks) n2).
    + rewrite map_xor_blocks_involutive by assumption. reflexivity.
    + apply Blockify_concat; [apply map_xor_blocks_len16; assumption|].
      destruct blocks; [contradiction|discriminate].
    + apply map_xor_blocks_len16. assumption.
Qed.

(** C7, as the code has it: for a byte string whose length is a positive
    multiple of 16, decrypting the output of [ctr.Encrypt] returns the
    string, whatever the two counters are. *)
Theorem ctr_Decrypt_Encrypt (P : list Z) (n1 n2 : Z) :
  Forall is_byte P -> 0 < length P -> length P mod 16 = 0 ->
  exists Ct c1 c2,
    ctr_Encrypt (mk_ctr n1 cipher) P = Some (Ct, c1) /\
    ctr_Decrypt (mk_ctr n2 cipher) Ct = Some (P, c2).
Proof.
  intros Hb Hpos Hm.
  destruct (chunks_exist (length P / 16) P ltac:(lia)) as (bs & Ec & Hl & Hall).
  destruct (ctr_roundtrip_blocks P n1 n2 Hb)
    as (blocks & Ct & c1 & c2 & E & EE & ED).
  assert (blocks = bs) as ->.
  { rewrite <- Ec in E. rewrite Blockify_concat in E.
    - injection E as E. symmetry. exact E.
    - assumption.
    - destruct bs; [cbn [length] in Hl; lia|discriminate]. }
  exists Ct, c1, c2. rewrite Ec in ED. split; assumption.
Qed.

End CTR.

Section SampleCipher.
Import aes.

Lemma sample_cipher_built :
  (k <- NewKey sample_key ;; NewCipher k) = Some sample_cipher.
Proof. vm_compute. reflexivity. Qed.

Lemma sample_keystream_eq :
  blockcipher.Encrypt sample_cipher zero_block = Some sample_keystream.
Proof. vm_compute. reflexivity. Qed.

(** A cipher built from a key of a valid length inverts its own
    encryption on every block. *)
Lemma NewCipher_inverse (keyBytes : list Z) (c : Cipher) :
  length keyBytes = 16 \/ length keyBytes = 24 \/ length keyBytes = 32 ->
  (k <- NewKey keyBytes ;; NewCipher k) = Some c ->
  forall b, is_block b ->
    exists e, blockcipher.Encrypt c b = Some e /\ is_block e /\
              blockcipher.Decrypt c e = Some b.
Proof.
  intros Hl Ec b Hb.
  destruct (NewKey_length keyBytes Hl) as (key & Ek & Hk).
  assert (Hpos : 0 < length key) by lia.
  destruct (NewCipher_schedule key Hpos) as (sched & Es & Hs).
  rewrite Ek in Ec. cbn [bind] in Ec. rewrite Es in Ec.
  injection Ec as <-.
  apply Cipher_roundtrip; [lia|assumption].
Qed.

Lemma sample_cipher_inverse (b : list Z) :
  is_block b ->
  exists e, blockcipher.Encrypt sample_cipher b = Some e /\ is_block e /\
            blockcipher.Decrypt sample_cipher e = Some b.
Proof.
  apply (NewCipher_inverse sample_key);
    [left; reflexivity | exact sample_cipher_built].
Qed.

End SampleCipher.

Section CTRExamples.
Import blockcipher.

Lemma ctr_Encrypt_ignores_counter_witness :
  exists blocks,
    Blockify [1; 2; 3]%Z 16 = Some blocks /\ Forall len16 blocks /\
    ctr_Encrypt (mk_ctr 0 sample_cipher) [1; 2; 3]%Z
    = Some (concat (map (xor_blocks sample_keystream) blocks),
            mk_ctr (bump_nonce (length blocks) 0) sample_cipher) /\
    ctr_Encrypt (mk_ctr 7 sample_cipher) [1; 2; 3]%Z
    = Some (concat (map (xor_blocks sample_keystream) blocks),
            mk_ctr (bump_nonce (length blocks) 7) sample_cipher).
Proof.
  apply (ctr_Encrypt_ignores_counter sample_cipher sample_keystream
           sample_keystream_eq eq_refl [1; 2; 3]%Z 0 7).
  apply Forall_is_byteb. reflexivity.
Defined.

Lemma ctr_Decrypt_Encrypt_witness :
  exists Ct c1 c2,
    ctr_Encrypt (mk_ctr 0 sample_cipher) (repeat 5%Z 16) = Some (Ct, c1) /\
    ctr_Decrypt (mk_ctr 0 sample_cipher) Ct = Some (repeat 5%Z 16, c2).
Proof.
  apply (ctr_Decrypt_Encrypt sample_cipher sample_keystream
           sample_keystream_eq eq_refl (repeat 5%Z 16) 0 0).
  - apply Forall_is_byteb. reflexivity.
  - cbn. lia.
  - reflexivity.
Defined.

(** C7 as stated fails on a one-byte input: decryption returns the
    byte followed by the fifteen zero bytes of the padding. *)
Lemma ctr_Decrypt_Encrypt_counterexample :
  ctr_Encrypt (NewCTRMode sample_cipher) [1%Z]
  = Some ([0xc7; 0xa1; 0x3b; 0x37; 0x87; 0x8f; 0x5b; 0x82;
           0x6f; 0x4f; 0x81; 0x62; 0xa1; 0xc8; 0xd8; 0x79]%Z,
          mk_ctr 1 sample_cipher) /\
  ctr_Decrypt (NewCTRMode sample_cipher)
    [0xc7; 0xa1; 0x3b; 0x37; 0x87; 0x8f; 0x5b; 0x82;
     0x6f; 0x4f; 0x81; 0x62; 0xa1; 0xc8; 0xd8; 0x79]%Z
  = Some (1%Z :: repeat 0%Z 15, mk_ctr 1 sample_cipher) /\
  1%Z :: repeat 0%Z 15 <> [1%Z].
Proof.
  unfold ctr_Decrypt, NewCTRMode.
  split; [|split; [|discriminate]].
  - rewrite (ctr_Encrypt_blocks sample_cipher sample_keystream
               sample_keystream_eq eq_refl [1%Z]
               [1%Z :: repeat 0%Z 15] 0);
      [reflexivity | reflexivity | repeat constructor].
  - rewrite (ctr_Encrypt_blocks sample_cipher sample_keystream
               sample_keystream_eq eq_refl _
               [[0xc7; 0xa1; 0x3b; 0x37; 0x87; 0x8f; 0x5b; 0x82;
                 0x6f; 0x4f; 0x81; 0x62; 0xa1; 0xc8; 0xd8; 0x79]%Z] 0);
      [reflexivity | reflexivity | repeat constructor].
Qed.

End CTRExamples.

Section CBC.
Import blockcipher.
Context {C : Type} `{Cipher C}.
Variable cipher : C.
Hypothesis cipher_inverse :
  forall b, is_block b ->
    exists e, Encrypt cipher b = Some e /\ is_block e /\
              Decrypt cipher e = Some b.

Let encBody (st : list Z * Block) (b : Block) : M (list Z * Block) :=
  let '(out, prevBlock) := st in
  x <- XOR b prevBlock ;;
  xb <- to_Block x ;;
  encrypted <- Encrypt cipher xb ;;
  ret (out ++ encrypted, encrypted).

Let decBody (st : list Z * Block) (b : Block) : M (list Z * Block) :=
  let '(out, prevBlock) := st in
  block <- Decrypt cipher b ;;
  decrypted <- XOR block prevBlock ;;
  ret (out ++ decrypted, b).

Lemma cbc_loops (blocks : list Block) :
  Forall is_block blocks ->
  forall (prev : Block) (out1 out2 : list Z),
    is_block prev ->
    exists cs,
      Forall is_block cs /\ length cs = length blocks /\
      foldM encBody blocks (out1, prev)
      = Some (out1 ++ concat cs, last cs prev) /\
      foldM decBody cs (out2, prev)
      = Some (out2 ++ concat blocks, last cs prev).
Proof.
  induction 1 as [|b blocks Hb Hbs IH]; intros prev out1 out2 Hprev.
  - exists []. cbn. rewrite !app_nil_r. auto.
  - assert (Hx : is_block (xor_blocks prev b))
      by (apply is_block_xor_blocks; assumption).
    destruct (cipher_inverse _ Hx) as (e & Ee & He & De).
    destruct (IH e (out1 ++ e) (out2 ++ b) He) as (cs & Hcs & Hl & E1 & E2).
    exists (e :: cs). split; [constructor; assumption|].
    split; [cbn [length]; lia|].
    assert (Hlast : @last (list Z) (e :: cs) prev = @last (list Z) cs e)
      by apply last_cons_default.
    rewrite Hlast. cbn [foldM concat]. unfold encBody at 1, decBody at 1.
    rewrite (XOR_blocks b prev) by (apply Hb || apply Hprev). cbn [bind].
    rewrite to_Block_16 by apply Hx. cbn [bind].
    rewrite Ee. cbn [bind ret]. rewrite E1.
    rewrite De. cbn [bind].
    rewrite (XOR_blocks (xor_blocks prev b) prev) by (apply Hx || apply Hprev).
    cbn [bind ret].
    rewrite xor_blocks_involutive
      by (destruct Hb as [Hb' _], Hprev as [Hp' _]; lia).
    rewrite E2, <- !app_assoc. auto.
Qed.

(** C8, as the code has it: for a byte string whose length is a positive
    multiple of 16 and a cipher that inverts its own encryption,
    [cbc.Decrypt] returns what [cbc.Encrypt] was given. *)
Theorem cbc_Decrypt_Encrypt (iv : Block) (P : list Z) :
  is_block iv -> Forall is_byte P -> 0 < length P -> length P mod 16 = 0 ->
  exists Ct,
    cbc_Encrypt (mk_cbc iv cipher) P = Some Ct /\
    cbc_Decrypt (mk_cbc iv cipher) Ct = Some P.
Proof.
  intros Hiv Hb Hpos Hm.
  destruct (chunks_exist (length P / 16) P ltac:(lia)) as (bs & Ec & Hl & Hall).
  assert (Hne : bs <> []) by (destruct bs; [cbn [length] in Hl; lia|discriminate]).
  assert (Hblocks : Forall is_block bs).
  { rewrite <- Ec in Hb. apply Forall_concat in Hb.
    rewrite Forall_forall in *. intros b Hin. split; auto. apply Hall, Hin. }
  destruct (cbc_loops bs Hblocks iv [] [] Hiv) as (cs & Hcs & Hlen & E1 & E2).
  exists (concat cs). unfold cbc_Encrypt, cbc_Decrypt. cbn [cbc_cipher cbc_iv].
  rewrite <- Ec at 1. rewrite Blockify_concat by assumption. cbn [bind].
  match goal with
  | |- context [foldM ?f bs ?s] =>
      replace (foldM f bs s) with (Some ([] ++ concat cs, last cs iv))
        by (symmetry; exact E1)
  end. cbn [bind ret fst app]. split; [reflexivity|].
  rewrite Blockify_concat;
    [|apply Forall_len16_is_block; assumption
     |destruct cs; [destruct bs; [contradiction|discriminate]|discriminate]].
  cbn [bind].
  match goal with
  | |- context [foldM ?f cs ?s] =>
      replace (foldM f cs s) with (Some ([] ++ concat bs, last cs iv))
        by (symmetry; exact E2)
  end. cbn [bind ret fst app]. rewrite Ec. reflexivity.
Qed.

End CBC.

Section CBCExamples.
Import blockcipher.

Lemma cbc_Decrypt_Encrypt_witness :
  exists Ct,
    cbc_Encrypt (mk_cbc zero_block sample_cipher) (repeat 5%Z 32) = Some Ct /\
    cbc_Decrypt (mk_cbc zero_block sample_cipher) Ct = Some (repeat 5%Z 32).
Proof.
  apply (cbc_Decrypt_Encrypt sample_cipher sample_cipher_inverse
           zero_block (repeat 5%Z 32)).
  - split; [reflexivity|]. apply Forall_is_byteb. reflexivity.
  - apply Forall_is_byteb. reflexivity.
  - cbn. lia.
  - reflexivity.
Defined.

(** C8 as stated fails on the empty string, whose length 0 is a multiple
    of 16: [Blockify] makes one all-zero block of it, and decryption
    returns sixteen zero bytes. *)
Lemma cbc_Decrypt_Encrypt_counterexample :
  cbc_Encrypt (NewCBCMode sample_cipher zero_block) [] = Some sample_keystream /\
  cbc_Decrypt (NewCBCMode sample_cipher zero_block) sample_keystream
  = Some (repeat 0%Z 16) /\
  repeat 0%Z 16 <> [].
Proof.
  split; [vm_compute; reflexivity|].
  split; [vm_compute; reflexivity|discriminate].
Qed.

End CBCExamples.

(** * Further properties of the code *)

(** ** aes.go: [Decrypt] is also a right inverse of [Encrypt] *)

Section MixInverseForward.
Local Open Scope Z_scope.
Import aes matrix.

Hint Extern 1 (is_byte (Zpos _)) => (apply is_byte_small; reflexivity) : bytes.

(** The four kinds of entries of the product of the forward and the
    inverse mixing matrices. *)
Lemma mix4_rev_diag (s : Z) :
  is_byte s -> mix4 2 14 3 9 1 13 1 11 s = s.
Proof.
  intros Hs. rewrite mix4_mix4c by (assumption || (unfold is_byte; lia)).
  apply Z.eqb_eq.
  apply (forall_bytes (fun s => mix4c 2 14 3 9 1 13 1 11 s =? s));
    [vm_compute; reflexivity | assumption].
Qed.

Lemma mix4_rev_off1 (s : Z) :
  is_byte s -> mix4 2 11 3 14 1 9 1 13 s = 0.
Proof.
  intros Hs. rewrite mix4_mix4c by (assumption || (unfold is_byte; lia)).
  apply Z.eqb_eq.
  apply (forall_bytes (fun s => mix4c 2 11 3 14 1 9 1 13 s =? 0));
    [vm_compute; reflexivity | assumption].
Qed.

Lemma mix4_rev_off2 (s : Z) :
  is_byte s -> mix4 2 13 3 11 1 14 1 9 s = 0.
Proof.
  intros Hs. rewrite mix4_mix4c by (assumption || (unfold is_byte; lia)).
  apply Z.eqb_eq.
  apply (forall_bytes (fun s => mix4c 2 13 3 11 1 14 1 9 s =? 0));
    [vm_compute; reflexivity | assumption].
Qed.

Lemma mix4_rev_off3 (s : Z) :
  is_byte s -> mix4 2 9 3 13 1 11 1 14 s = 0.
Proof.
  intros Hs. rewrite mix4_mix4c by (assumption || (unfold is_byte; lia)).
  apply Z.eqb_eq.
  apply (forall_bytes (fun s => mix4c 2 9 3 13 1 11 1 14 s =? 0));
    [vm_compute; reflexivity | assumption].
Qed.

Section ColumnRev.
Variables s0 s1 s2 s3 : Z.
Hypotheses (H0 : is_byte s0) (H1 : is_byte s1)
           (H2 : is_byte s2) (H3 : is_byte s3).

Let Y0 := Z.lxor (Z.lxor (Z.lxor (Z.lxor 0 (Multiply 14 s0)) (Multiply 11 s1))
                         (Multiply 13 s2)) (Multiply 9 s3).
Let Y1 := Z.lxor (Z.lxor (Z.lxor (Z.lxor 0 (Multiply 9 s0)) (Multiply 14 s1))
                         (Multiply 11 s2)) (Multiply 13 s3).
Let Y2 := Z.lxor (Z.lxor (Z.lxor (Z.lxor 0 (Multiply 13 s0)) (Multiply 9 s1))
                         (Multiply 14 s2)) (Multiply 11 s3).
Let Y3 := Z.lxor (Z.lxor (Z.lxor (Z.lxor 0 (Multiply 11 s0)) (Multiply 13 s1))
                         (Multiply 9 s2)) (Multiply 14 s3).

Let D (s : Z) := mix4 2 14 3 9 1 13 1 11 s.
Let O1 (s : Z) := mix4 2 11 3 14 1 9 1 13 s.
Let O2 (s : Z) := mix4 2 13 3 11 1 14 1 9 s.
Let O3 (s : Z) := mix4 2 9 3 13 1 11 1 14 s.

Ltac expand_rev :=
  unfold Y0, Y1, Y2, Y3; rewrite !Z.lxor_0_l;
  rewrite !Multiply_lxor4 by auto with bytes.

Ltac collapse_rev :=
  unfold D, O1, O2, O3;
  rewrite ?mix4_rev_diag, ?mix4_rev_off1, ?mix4_rev_off2, ?mix4_rev_off3
    by assumption;
  rewrite ?Z.lxor_0_l, ?Z.lxor_0_r; reflexivity.

Lemma remix_row0 :
  Z.lxor (Z.lxor (Z.lxor (Z.lxor 0 (Multiply 2 Y0)) (Multiply 3 Y1))
                 (Multiply 1 Y2)) (Multiply 1 Y3) = s0.
Proof.
  expand_rev.
  transitivity (Z.lxor (Z.lxor (Z.lxor (D s0) (O1 s1)) (O2 s2)) (O3 s3));
    [unfold D, O1, O2, O3, mix4; aac_reflexivity | collapse_rev].
Qed.

Lemma remix_row1 :
  Z.lxor (Z.lxor (Z.lxor (Z.lxor 0 (Multiply 1 Y0)) (Multiply 2 Y1))
                 (Multiply 3 Y2)) (Multiply 1 Y3) = s1.
Proof.
  expand_rev.
  transitivity (Z.lxor (Z.lxor (Z.lxor (O3 s0) (D s1)) (O1 s2)) (O2 s3));
    [unfold D, O1, O2, O3, mix4; aac_reflexivity | collapse_rev].
Qed.

Lemma remix_row2 :
  Z.lxor (Z.lxor (Z.lxor (Z.lxor 0 (Multiply 1 Y0)) (Multiply 1 Y1))
                 (Multiply 2 Y2)) (Multiply 3 Y3) = s2.
Proof.
  expand_rev.
  transitivity (Z.lxor (Z.lxor (Z.lxor (O2 s0) (O3 s1)) (D s2)) (O1 s3));
    [unfold D, O1, O2, O3, mix4; aac_reflexivity | collapse_rev].
Qed.

Lemma remix_row3 :
  Z.lxor (Z.lxor (Z.lxor (Z.lxor 0 (Multiply 3 Y0)) (Multiply 1 Y1))
                 (Multiply 1 Y2)) (Multiply 2 Y3) = s3.
Proof.
  expand_rev.
  transitivity (Z.lxor (Z.lxor (Z.lxor (O1 s0) (O2 s1)) (O3 s2)) (D s3));
    [unfold D, O1, O2, O3, mix4; aac_reflexivity | collapse_rev].
Qed.
End ColumnRev.

Lemma mixColumnsInverse_state (s : Matrix) :
  is_state s ->
  exists s', mixColumns s mixColumnPolynomialsInverse = Some s' /\ is_state s' /\
             mixColumns s' mixColumnPolynomials = Some s.
Proof.
  intros Hs. state_shape s Hs. split_Forall.
  eexists. split; [run; reflexivity|]. split.
  - apply is_state_intro. solve_Forall.
  - run.
    repeat f_equal;
      first [ apply remix_row0 | apply remix_row1
            | apply remix_row2 | apply remix_row3 ]; assumption.
Qed.

End MixInverseForward.

Section CipherRoundTripRev.
Import aes matrix.

Variable sched : list Word.

Let encRound (state : Matrix) (round : nat) : M Matrix :=
  state <- subBytes state ;;
  state <- shiftRows state ;;
  state <- mixColumns state mixColumnPolynomials ;;
  addRoundKey state sched round.

Let decRound (state : Matrix) (round : nat) : M Matrix :=
  state <- shiftRowsInverse state ;;
  state <- subBytesInverse state ;;
  state <- addRoundKey state sched round ;;
  mixColumns state mixColumnPolynomialsInverse.

Ltac step H := rewrite H; cbn [bind].

Lemma rounds_redone (k : nat) :
  k * 4 + 3 < length sched ->
  forall a, is_state a ->
    exists y g t,
      foldM decRound (rev (seq 1 k)) a = Some y /\ is_state y /\
      (x <- shiftRowsInverse y ;; subBytesInverse x) = Some g /\ is_state g /\
      foldM encRound (seq 1 k) g = Some t /\
      (x <- subBytes t ;; shiftRows x) = Some a.
Proof.
  induction k as [|k IH]; intros Hk a Ha.
  - destruct (shiftRowsInverse_state a Ha) as (u & Eu & Hu & Iu).
    destruct (subBytesInverse_state u Hu) as (g & Eg & Hg & Ig).
    exists a, g, g. cbn [seq rev foldM bind ret].
    step Eu. step Eg. step Ig. step Iu.
    repeat (split; [assumption || reflexivity|]). reflexivity.
  - destruct (shiftRowsInverse_state a Ha) as (u & Eu & Hu & Iu).
    destruct (subBytesInverse_state u Hu) as (v & Ev & Hv & Iv).
    destruct (addRoundKey_state sched (S k) v Hk Hv) as (w & Ew & Hw & Iw).
    destruct (mixColumnsInverse_state w Hw) as (a' & Ea' & Ha' & Ia').
    destruct (IH ltac:(lia) a' Ha') as (y & g & t & Ey & Hy & Eg & Hg & Et & Eback).
    exists y, g.
    destruct (subBytes t) as [x|] eqn:Ex; cbn [bind] in Eback; [|discriminate].
    exists v.
    rewrite seq_S, foldM_app, rev_app_distr. cbn [Nat.add rev app foldM].
    unfold decRound at 1. step Eu. step Ev. step Ew. step Ea'.
    split; [exact Ey|]. split; [exact Hy|]. split; [exact Eg|].
    split; [exact Hg|].
    step Et. unfold encRound at 1. step Ex. step Eback. step Ia'. step Iw.
    split; [reflexivity|]. step Iv. exact Iu.
Qed.

Lemma Cipher_roundtrip_rev (k : Key) (n : nat) (Ct : Block) :
  4 * (n + 1) <= length sched -> is_block Ct ->
  exists P, Decrypt (mkCipher k sched n) Ct = Some P /\ is_block P /\
            Encrypt (mkCipher k sched n) P = Some Ct.
Proof.
  intros Hlen HC.
  destruct (parse_state Ct HC) as (s0 & E0 & H0 & B0).
  destruct (addRoundKey_state sched n s0 ltac:(lia) H0) as (a & Ea & Ha & Ia).
  destruct (rounds_redone (n - 1) ltac:(lia) a Ha)
    as (y & g & t & Ey & Hy & Eg & Hg & Et & Eback).
  destruct (shiftRowsInverse y) as [u|] eqn:Eu; cbn [bind] in Eg; [|discriminate].
  destruct (addRoundKey_state sched 0 g ltac:(lia) Hg) as (p & Ep & Hp & Ip).
  destruct (matrixBlock_state p Hp) as (P & EP & HP & PP).
  exists P. unfold Encrypt, Decrypt. cbn [schedule numRounds].
  fold encRound. fold decRound.
  step E0. step Ea. step Ey. step Eu. step Eg. step Ep.
  split; [exact EP|]. split; [exact HP|].
  step PP. step Ip. step Et.
  destruct (subBytes t) as [x|]; cbn [bind] in Eback |- *; [|discriminate].
  step Eback. step Ia. exact B0.
Qed.

End CipherRoundTripRev.

Section CipherBijection.
Import aes.

(** X1: a cipher built from a key of 16, 24 or 32 bytes decrypts every
    16-byte block to a block that it encrypts back to the given block. *)
Theorem Cipher_Encrypt_Decrypt (keyBytes : list Z) (Ct : Block) :
  length keyBytes = 16 \/ length keyBytes = 24 \/ length keyBytes = 32 ->
  is_block Ct ->
  exists c P,
    (k <- NewKey keyBytes ;; NewCipher k) = Some c /\
    Decrypt c Ct = Some P /\ is_block P /\ Encrypt c P = Some Ct.
Proof.
  intros Hl HC.
  destruct (NewKey_length keyBytes Hl) as (key & Ek & Hk).
  assert (Hpos : 0 < length key) by lia.
  destruct (NewCipher_schedule key Hpos) as (sched & Ec & Hs).
  destruct (Cipher_roundtrip_rev sched key (6 + length key) Ct) as (P & EP & HP & DP);
    [lia|assumption|].
  exists (mkCipher key sched (6 + length key)), P.
  rewrite Ek. cbn [bind]. auto.
Qed.

Lemma Cipher_Encrypt_Decrypt_witness :
  exists c P,
    (k <- NewKey (map Z.of_nat (seq 0 24)) ;; NewCipher k) = Some c /\
    Decrypt c (repeat 3%Z 16) = Some P /\ is_block P /\
    Encrypt c P = Some (repeat 3%Z 16).
Proof.
  apply (Cipher_Encrypt_Decrypt (map Z.of_nat (seq 0 24)) (repeat 3%Z 16)).
  - right. left. reflexivity.
  - split; [reflexivity|]. apply Forall_is_byteb. reflexivity.
Defined.

End CipherBijection.

(** ** The mode layer: ECB *)

Section ECB.
Import blockcipher.
Context {C : Type} `{Cipher C}.
Variable cipher : C.

Let cryptBody (crypt : Block -> M Block) (out : list Z) (b : Block) : M (list Z) :=
  block <- crypt b ;; ret (out ++ block).

Lemma doECB_blocks (crypt : Block -> M Block) (f : Block -> Block)
  (blocks : list Block) :
  (forall b, In b blocks -> crypt b = Some (f b)) ->
  forall out, foldM (cryptBody crypt) blocks out
              = Some (out ++ concat (map f blocks)).
Proof.
  induction blocks as [|b blocks IH]; intros Hf out.
  - cbn. rewrite app_nil_r. reflexivity.
  - cbn [foldM map concat]. unfold cryptBody at 1.
    rewrite (Hf b (or_introl eq_refl)). cbn [bind ret].
    rewrite IH by (intros b' Hb'; apply Hf; right; exact Hb').
    rewrite <- app_assoc. reflexivity.
Qed.

(** X2: ECB encrypts block by block: on a non-empty sequence of whole
    blocks, each of which the cipher encrypts, the output is the
    concatenation of the encrypted blocks, so equal plaintext blocks give
    equal ciphertext blocks. *)
Theorem ecb_Encrypt_blockwise (f : Block -> Block) (blocks : list Block) :
  blocks <> [] -> Forall len16 blocks ->
  (forall b, In b blocks -> Encrypt cipher b = Some (f b)) ->
  ecb_Encrypt (mk_ecb cipher) (concat blocks) = Some (concat (map f blocks)).
Proof.
  intros Hne Hall Hf. unfold ecb_Encrypt, doECB. cbn [ecb_cipher].
  rewrite Blockify_concat by assumption. cbn [bind].
  apply (doECB_blocks (Encrypt cipher) f blocks Hf []).
Qed.

Hypothesis cipher_inverse :
  forall b, is_block b ->
    exists e, Encrypt cipher b = Some e /\ is_block e /\
              Decrypt cipher e = Some b.

Lemma ecb_loops (blocks : list Block) :
  Forall is_block blocks ->
  forall out1 out2 : list Z,
    exists cs,
      Forall is_block cs /\ length cs = length blocks /\
      foldM (cryptBody (Encrypt cipher)) blocks out1 = Some (out1 ++ concat cs) /\
      foldM (cryptBody (Decrypt cipher)) cs out2 = Some (out2 ++ concat blocks).
Proof.
  induction 1 as [|b blocks Hb Hbs IH]; intros out1 out2.
  - exists []. cbn. rewrite !app_nil_r. auto.
  - destruct (cipher_inverse b Hb) as (e & Ee & He & De).
    destruct (IH (out1 ++ e) (out2 ++ b)) as (cs & Hcs & Hl & E1 & E2).
    exists (e :: cs). split; [constructor; assumption|].
    split; [cbn [length]; lia|].
    cbn [foldM concat]. unfold cryptBody at 1 3.
    rewrite Ee, De. cbn [bind ret]. rewrite E1, E2, <- !app_assoc. auto.
Qed.

(** X3: for a cipher that inverts its own encryption and a byte string
    whose length is a positive multiple of 16, [ecb.Decrypt] returns what
    [ecb.Encrypt] was given. *)
Theorem ecb_Decrypt_Encrypt (P : list Z) :
  Forall is_byte P -> 0 < length P -> length P mod 16 = 0 ->
  exists Ct,
    ecb_Encrypt (mk_ecb cipher) P = Some Ct /\
    ecb_Decrypt (mk_ecb cipher) Ct = Some P.
Proof.
  intros Hb Hpos Hm.
  destruct (chunks_exist (length P / 16) P ltac:(lia)) as (bs & Ec & Hl & Hall).
  assert (Hne : bs <> []) by (destruct bs; [cbn [length] in Hl; lia|discriminate]).
  assert (Hblocks : Forall is_block bs).
  { rewrite <- Ec in Hb. apply Forall_concat in Hb.
    rewrite Forall_forall in *. intros b Hin. split; auto. apply Hall, Hin. }
  destruct (ecb_loops bs Hblocks [] []) as (cs & Hcs & Hlen & E1 & E2).
  exists (concat cs). unfold ecb_Encrypt, ecb_Decrypt, doECB. cbn [ecb_cipher].
  rewrite <- Ec at 1. rewrite Blockify_concat by assumption. cbn [bind].
  split; [exact E1|].
  rewrite Blockify_concat;
    [|apply Forall_len16_is_block; assumption
     |destruct cs; [destruct bs; [contradiction|discriminate]|discriminate]].
  cbn [bind]. rewrite <- Ec. exact E2.
Qed.

End ECB.

Section ECBExamples.
Import blockcipher.

Lemma ecb_Encrypt_blockwise_witness :
  ecb_Encrypt (mk_ecb sample_cipher) (concat [zero_block; zero_block])
  = Some (concat (map (fun _ => sample_keystream) [zero_block; zero_block])).
Proof.
  apply (ecb_Encrypt_blockwise sample_cipher (fun _ => sample_keystream)
           [zero_block; zero_block]).
  - discriminate.
  - repeat constructor.
  - intros b [<-|[<-|[]]]; exact sample_keystream_eq.
Defined.

Lemma ecb_Decrypt_Encrypt_witness :
  exists Ct,
    ecb_Encrypt (mk_ecb sample_cipher) (repeat 9%Z 16) = Some Ct /\
    ecb_Decrypt (mk_ecb sample_cipher) Ct = Some (repeat 9%Z 16).
Proof.
  apply (ecb_Decrypt_Encrypt sample_cipher sample_cipher_inverse (repeat 9%Z 16)).
  - apply Forall_is_byteb. reflexivity.
  - cbn. lia.
  - reflexivity.
Defined.

End ECBExamples.

(** ** The mode layer: [Blockify], [PadBytes] and [XOR] on every input *)

Section BlockifyAll.
Import blockcipher.

Lemma split_blocks (bytes : list Z) :
  exists full tail,
    bytes = concat full ++ tail /\ Forall len16 full /\
    length full = length bytes / 16 /\ length tail = length bytes mod 16.
Proof.
  destruct (chunks_exist (length bytes / 16) (firstn (16 * (length bytes / 16)) bytes))
    as (full & Ec & Hl & Hall).
  { rewrite length_firstn. lia. }
  exists full, (skipn (16 * (length bytes / 16)) bytes).
  rewrite Ec, firstn_skipn, length_skipn.
  repeat split; try assumption; try reflexivity. lia.
Qed.

(** X4: [Blockify] returns on every input, with one block for the empty
    input and otherwise one block per started run of 16 bytes; the blocks
    are 16 bytes long and their concatenation is the input followed by
    zero bytes. *)
Theorem Blockify_zero_padded (bytes : list Z) :
  exists blocks,
    Blockify bytes 16 = Some blocks /\ Forall len16 blocks /\
    length blocks = Nat.max 1 ((length bytes + 15) / 16) /\
    concat blocks = bytes ++ repeat 0%Z (16 * length blocks - length bytes).
Proof.
  destruct (split_blocks bytes) as (full & tail & -> & Hall & Hf & Ht).
  rewrite length_app in *.
  assert (Hcl : length (concat full) = 16 * length full).
  { clear Hf Ht. induction Hall as [|b bs Hb Hbs IH]; [reflexivity|].
    cbn [concat length]. rewrite length_app, IH. unfold len16 in Hb. lia. }
  destruct tail as [|x xs].
  - rewrite app_nil_r in *. destruct full as [|b bs].
    + exists [zero_block]. repeat split; try reflexivity. repeat constructor.
    + exists (b :: bs). rewrite Blockify_concat by (assumption || discriminate).
      split; [reflexivity|]. split; [assumption|].
      assert (Hm : 0 < length (b :: bs)) by (cbn [length]; lia).
      change Block with (list Z).
      change (length (@nil Z)) with 0 in *.
      set (m := length (b :: bs)) in *.
      set (L := length (concat (b :: bs))) in *.
      split; [lia|].
      replace (16 * m - (L + 0)) with 0 by lia.
      cbn [repeat]. rewrite app_nil_r. reflexivity.
  - assert (Hx : 0 < length (x :: xs) < 16).
    { cbn [length] in *. split; [lia|].
      pose proof (Nat.mod_upper_bound (length (concat full) + S (length xs)) 16).
      lia. }
    exists (full ++ [(x :: xs) ++ repeat 0%Z (16 - length (x :: xs))]).
    rewrite Blockify_partial by assumption.
    split; [reflexivity|]. split.
    { apply Forall_app. split; [assumption|]. constructor; [|constructor].
      unfold len16. rewrite length_app, repeat_length. lia. }
    rewrite length_app. cbn [length] in *. split; [lia|].
    rewrite concat_app. cbn [concat]. rewrite app_nil_r, <- app_assoc.
    f_equal. f_equal. f_equal. lia.
Qed.

(** X5: [PadBytes] leaves a slice that is already [n] bytes long or longer
    as it is; a shorter one it completes to [n] bytes with bytes that hold
    the number of bytes added, reduced modulo 256. *)
Theorem PadBytes_result (bytes : list Z) (n : nat) :
  (n <= length bytes -> PadBytes bytes (Z.of_nat n) = bytes) /\
  (length bytes <= n ->
   PadBytes bytes (Z.of_nat n)
   = bytes ++ repeat (Z.of_nat ((n - length bytes) mod 256)) (n - length bytes)) /\
  length (PadBytes bytes (Z.of_nat n)) = Nat.max n (length bytes).
Proof.
  split; [intros Hn; apply PadBytes_short; lia|].
  split.
  - intros Hn. rewrite PadBytes_pads. unfold to_byte.
    replace (Z.of_nat n - Z.of_nat (length bytes))%Z
      with (Z.of_nat (n - length bytes)) by lia.
    rewrite Nat2Z.id. f_equal. f_equal.
    rewrite Nat2Z.inj_mod. reflexivity.
  - rewrite PadBytes_pads, length_app, repeat_length. lia.
Qed.

End BlockifyAll.

(** ** aes.go: words and their bytes *)

Section WordsAndBytes.
Local Open Scope Z_scope.
Import aes.

(** Equality of two numbers bit by bit; indices that a shift makes
    negative read as 0. *)
Ltac bits :=
  eapply Z.bits_inj'; intros ?i ?Hi;
  Z.rewrite_bitwise; Z.discover_equal_testbit_indices; Z.destruct_ltbs;
  try (exfalso; lia);
  repeat match goal with
         | |- context [Z.testbit ?a ?k] =>
             rewrite (Z.testbit_neg_r a k) by lia
         end;
  try btauto.

Lemma byte_mod (b : Z) : is_byte b -> b = b mod 2 ^ 8.
Proof. unfold is_byte. intros Hb. symmetry. apply Z.mod_small. lia. Qed.

Lemma word_mod (w : Z) : is_word w -> w = w mod 2 ^ 32.
Proof. unfold is_word. intros Hw. symmetry. apply Z.mod_small. lia. Qed.

Ltac as_bits :=
  unfold to_byte, to_uint32;
  change 256 with (2 ^ 8); change (255 mod 2 ^ 8) with (Z.ones 8);
  change 255 with (Z.ones 8).

(** Two lists of four numbers, compared entry by entry. *)
Ltac bits4 :=
  f_equal; [bits | f_equal; [bits | f_equal; [bits | f_equal; bits]]].

Lemma is_word_pack (b0 b1 b2 b3 : Z) :
  is_byte b0 -> is_byte b1 -> is_byte b2 -> is_byte b3 ->
  is_word (Z.lor (Z.lor (Z.lor (to_uint32 (Z.shiftl b0 24))
                               (to_uint32 (Z.shiftl b1 16)))
                        (to_uint32 (Z.shiftl b2 8))) b3).
Proof.
  intros H0 H1 H2 H3. unfold is_word.
  set (w := Z.lor _ _).
  assert (Hw : w = w mod 2 ^ 32).
  { subst w. rewrite (byte_mod b3 H3). as_bits. bits. }
  rewrite Hw. apply Z.mod_pos_bound. lia.
Qed.

Lemma Word_Vector_pack (b0 b1 b2 b3 : Z) :
  is_byte b0 -> is_byte b1 -> is_byte b2 -> is_byte b3 ->
  Word_Vector (Z.lor (Z.lor (Z.lor (to_uint32 (Z.shiftl b0 24))
                                   (to_uint32 (Z.shiftl b1 16)))
                            (to_uint32 (Z.shiftl b2 8))) b3)
  = [b0; b1; b2; b3].
Proof.
  intros H0 H1 H2 H3. unfold Word_Vector.
  rewrite (byte_mod b0 H0), (byte_mod b1 H1), (byte_mod b2 H2), (byte_mod b3 H3).
  as_bits. bits4.
Qed.

Lemma pack_Word_Vector (w : Z) :
  is_word w ->
  Z.lor (Z.lor (Z.lor (to_uint32 (Z.shiftl (to_byte (Z.shiftr w 24)) 24))
                      (to_uint32 (Z.shiftl (Z.land (to_byte (Z.shiftr w 16))
                                                   (to_byte 255)) 16)))
               (to_uint32 (Z.shiftl (Z.land (to_byte (Z.shiftr w 8))
                                            (to_byte 255)) 8)))
        (Z.land (to_byte w) (to_byte 255))
  = w.
Proof.
  intros Hw. rewrite (word_mod w Hw) at 5. as_bits. bits.
Qed.

(** X6: [NewWord] packs four bytes, the most significant first, and
    [Word.Vector] unpacks them: each is the inverse of the other, and
    [NewWord] panics on a slice that is not four bytes long. *)
Theorem NewWord_Word_Vector (bytes : list Z) (w : Word) :
  (length bytes = 4%nat -> Forall is_byte bytes ->
   exists v, NewWord bytes = Some v /\ is_word v /\ Word_Vector v = bytes) /\
  (is_word w -> NewWord (Word_Vector w) = Some w) /\
  (length bytes <> 4%nat -> NewWord bytes = None).
Proof.
  split; [|split].
  - intros Hl Hb.
    destruct (length4_shape bytes Hl) as (b0 & b1 & b2 & b3 & ->).
    split_Forall. eexists. split; [reflexivity|]. split.
    + apply is_word_pack; assumption.
    + apply Word_Vector_pack; assumption.
  - intros Hw. unfold NewWord, Word_Vector.
    cbn [length Nat.eqb negb index nth_error bind ret].
    rewrite pack_Word_Vector by exact Hw. reflexivity.
  - intros Hl. unfold NewWord.
    destruct (Nat.eqb_spec (length bytes) 4%nat); [contradiction|reflexivity].
Qed.

Lemma Word_Vector_RotateWord (w : Z) :
  is_word w ->
  Word_Vector (RotateWord w)
  = [Z.land (to_byte (Z.shiftr w 16)) (to_byte 255);
     Z.land (to_byte (Z.shiftr w 8)) (to_byte 255);
     Z.land (to_byte w) (to_byte 255);
     to_byte (Z.shiftr w 24)].
Proof.
  intros Hw. unfold Word_Vector, RotateWord.
  rewrite (word_mod w Hw). as_bits. bits4.
Qed.

Lemma is_word_RotateWord (w : Z) : is_word w -> is_word (RotateWord w).
Proof.
  intros Hw. unfold is_word.
  assert (H : RotateWord w = RotateWord w mod 2 ^ 32).
  { unfold RotateWord. rewrite (word_mod w Hw). as_bits. bits. }
  rewrite H. apply Z.mod_pos_bound. lia.
Qed.

Lemma Word_Vector_rotated (w : Z) :
  is_word w ->
  Word_Vector (RotateWord w)
  = skipn 1%nat (Word_Vector w) ++ firstn 1%nat (Word_Vector w).
Proof. intros Hw. rewrite Word_Vector_RotateWord by exact Hw. reflexivity. Qed.

Lemma Word_Vector_injective (a b : Z) :
  is_word a -> is_word b -> Word_Vector a = Word_Vector b -> a = b.
Proof.
  intros Ha Hb E.
  rewrite <- (pack_Word_Vector a Ha), <- (pack_Word_Vector b Hb).
  unfold Word_Vector in E. injection E as E0 E1 E2 E3.
  rewrite E0, E1, E2, E3. reflexivity.
Qed.

(** X7: [RotateWord] moves the bytes of a word one place towards the most
    significant end, the first byte becoming the last (the bytes
    [b0, b1, b2, b3] become [b1, b2, b3, b0]); four rotations give the word
    back. *)
Theorem RotateWord_rotates (w : Word) :
  is_word w ->
  is_word (RotateWord w) /\
  Word_Vector (RotateWord w)
  = skipn 1%nat (Word_Vector w) ++ firstn 1%nat (Word_Vector w) /\
  RotateWord (RotateWord (RotateWord (RotateWord w))) = w.
Proof.
  intros Hw. split; [apply is_word_RotateWord; exact Hw|]. split.
  - apply Word_Vector_rotated. exact Hw.
  - pose proof (is_word_RotateWord w Hw) as H1.
    pose proof (is_word_RotateWord _ H1) as H2.
    pose proof (is_word_RotateWord _ H2) as H3.
    pose proof (is_word_RotateWord _ H3) as H4.
    apply Word_Vector_injective; [exact H4|exact Hw|].
    rewrite (Word_Vector_rotated _ H3), (Word_Vector_rotated _ H2),
      (Word_Vector_rotated _ H1), (Word_Vector_rotated _ Hw).
    reflexivity.
Qed.

Lemma RotateWord_rotates_witness :
  is_word (RotateWord 0x01020304) /\
  Word_Vector (RotateWord 0x01020304)
  = skipn 1%nat (Word_Vector 0x01020304) ++ firstn 1%nat (Word_Vector 0x01020304) /\
  RotateWord (RotateWord (RotateWord (RotateWord 0x01020304))) = 0x01020304.
Proof. apply (RotateWord_rotates 0x01020304). unfold is_word. lia. Defined.

Lemma land_255_byte (x : Z) : Z.land x 255 = to_byte x.
Proof. change 255 with (Z.ones 8). rewrite Z.land_ones by lia. reflexivity. Qed.

Lemma to_byte_idem (x : Z) : to_byte (to_byte x) = to_byte x.
Proof. unfold to_byte. apply Z.mod_mod. lia. Qed.

(** X8: [SubstituteWord] replaces each of the four bytes of a word by its
    S-box entry, and returns a word. *)
Theorem SubstituteWord_bytes (w : Word) :
  is_word (SubstituteWord w) /\
  Word_Vector (SubstituteWord w) = map (lookup sbox) (Word_Vector w).
Proof.
  unfold SubstituteWord.
  cbn [seq fold_left Nat.mul Nat.sub Nat.add Z.of_nat Pos.of_succ_nat Pos.succ].
  rewrite Z.lor_0_l.
  unfold Word_Vector at 2. cbn [map].
  rewrite !land_255, !to_byte_idem, <- !land_255_byte, Z.shiftr_0_r.
  pose proof (is_byte_sbox (Z.land (Z.shiftr w 24) 255)) as H3.
  pose proof (is_byte_sbox (Z.land (Z.shiftr w 16) 255)) as H2.
  pose proof (is_byte_sbox (Z.land (Z.shiftr w 8) 255)) as H1.
  pose proof (is_byte_sbox (Z.land w 255)) as H0.
  revert H3 H2 H1 H0.
  generalize (lookup sbox (Z.land (Z.shiftr w 24) 255)).
  generalize (lookup sbox (Z.land (Z.shiftr w 16) 255)).
  generalize (lookup sbox (Z.land (Z.shiftr w 8) 255)).
  generalize (lookup sbox (Z.land w 255)).
  intros s0 s1 s2 s3 H3 H2 H1 H0. split.
  - unfold is_word.
    set (v := Z.lor _ _).
    assert (Hv : v = v mod 2 ^ 32) by (subst v; as_bits; bits).
    rewrite Hv. apply Z.mod_pos_bound. lia.
  - unfold Word_Vector.
    rewrite (byte_mod s0 H0), (byte_mod s1 H1), (byte_mod s2 H2), (byte_mod s3 H3).
    as_bits. bits4.
Qed.




End WordsAndBytes.

(** ** field.go: the arithmetic of GF(2^8) *)

Section FieldMore.
Local Open Scope Z_scope.
Import aes.

Lemma Xtime_doubles (a : Z) :
  is_byte a ->
  Xtime a = Z.lxor (to_byte (Z.shiftl a 1)) (bit_term a 7 0x1b).
Proof.
  intros Ha. apply Z.eqb_eq.
  apply (forall_bytes
           (fun a => Xtime a =? Z.lxor (to_byte (Z.shiftl a 1)) (bit_term a 7 0x1b)));
    [vm_compute; reflexivity | exact Ha].
Qed.

Lemma to_byte_lxor (x y : Z) : to_byte (Z.lxor x y) = Z.lxor (to_byte x) (to_byte y).
Proof.
  rewrite <- !land_255_byte. apply Z.bits_inj'. intros n Hn.
  rewrite !Z.lxor_spec, !Z.land_spec, Z.lxor_spec.
  destruct (Z.testbit x n), (Z.testbit y n), (Z.testbit 255 n); reflexivity.
Qed.

Lemma Xtime_lxor (x y : Z) :
  is_byte x -> is_byte y ->
  Xtime (Z.lxor x y) = Z.lxor (Xtime x) (Xtime y).
Proof.
  intros Hx Hy.
  rewrite !Xtime_doubles by auto with bytes.
  rewrite bit_term_lxor, Z.shiftl_lxor, to_byte_lxor.
  aac_reflexivity.
Qed.

Lemma bit_term_arg_lxor (b : Z) (i : nat) (x y : Z) :
  bit_term b i (Z.lxor x y) = Z.lxor (bit_term b i x) (bit_term b i y).
Proof.
  unfold bit_term. destruct (Z.testbit b (Z.of_nat i)); reflexivity.
Qed.

Lemma comb_arg_lxor (b : Z) :
  forall (n k : nat) (x y : Z),
    is_byte x -> is_byte y ->
    comb b k n (Z.lxor x y) = Z.lxor (comb b k n x) (comb b k n y).
Proof.
  induction n as [|n IH]; intros k x y Hx Hy; [reflexivity|].
  cbn [comb]. rewrite bit_term_arg_lxor, Xtime_lxor by assumption.
  rewrite IH by apply is_byte_Xtime. aac_reflexivity.
Qed.

Lemma Multiply_lxor_l (x y b : Z) :
  is_byte x -> is_byte y -> is_byte b ->
  Multiply (Z.lxor x y) b = Z.lxor (Multiply x b) (Multiply y b).
Proof.
  intros Hx Hy Hb. rewrite !Multiply_comb by assumption.
  apply comb_arg_lxor; assumption.
Qed.

Lemma byte_bits (b : Z) :
  is_byte b ->
  b = Z.lxor (bit_term b 0 1) (Z.lxor (bit_term b 1 2) (Z.lxor (bit_term b 2 4)
      (Z.lxor (bit_term b 3 8) (Z.lxor (bit_term b 4 16) (Z.lxor (bit_term b 5 32)
      (Z.lxor (bit_term b 6 64) (bit_term b 7 128))))))).
Proof.
  intros Hb. apply Z.eqb_eq.
  apply (forall_bytes (fun b => b =?
      Z.lxor (bit_term b 0 1) (Z.lxor (bit_term b 1 2) (Z.lxor (bit_term b 2 4)
      (Z.lxor (bit_term b 3 8) (Z.lxor (bit_term b 4 16) (Z.lxor (bit_term b 5 32)
      (Z.lxor (bit_term b 6 64) (bit_term b 7 128)))))))));
    [vm_compute; reflexivity | exact Hb].
Qed.

Lemma Multiply_comm_basis (a : Z) (j : nat) :
  is_byte a -> (j < 8)%nat ->
  Multiply a (2 ^ Z.of_nat j) = Multiply (2 ^ Z.of_nat j) a.
Proof.
  intros Ha Hj.
  assert (H : forallb (fun j => forallb (fun a =>
                Multiply a (2 ^ Z.of_nat j) =? Multiply (2 ^ Z.of_nat j) a) all_bytes)
                (seq 0 8) = true) by (vm_compute; reflexivity).
  rewrite forallb_forall in H.
  specialize (H j ltac:(apply in_seq; lia)).
  apply Z.eqb_eq. exact (forall_bytes _ H a Ha).
Qed.

Lemma Multiply_zero (a : Z) : is_byte a -> Multiply a 0 = 0 /\ Multiply 0 a = 0.
Proof.
  intros Ha. split; [reflexivity|].
  apply Z.eqb_eq.
  apply (forall_bytes (fun a => Multiply 0 a =? 0)); [vm_compute; reflexivity|exact Ha].
Qed.

Lemma Multiply_comm_term (a t : Z) (j : nat) :
  is_byte a -> (j < 8)%nat -> t = 0 \/ t = 2 ^ Z.of_nat j ->
  Multiply a t = Multiply t a.
Proof.
  intros Ha Hj [->| ->].
  - destruct (Multiply_zero a Ha) as [E1 E2]. rewrite E1, E2. reflexivity.
  - apply Multiply_comm_basis; assumption.
Qed.

Lemma bit_term_cases (b : Z) (i : nat) (x : Z) : bit_term b i x = 0 \/ bit_term b i x = x.
Proof. unfold bit_term. destruct (Z.testbit b (Z.of_nat i)); auto. Qed.

Lemma Multiply_comm (a b : Z) :
  is_byte a -> is_byte b -> Multiply a b = Multiply b a.
Proof.
  intros Ha Hb.
  pose proof (byte_bits b Hb) as E.
  pose proof (bit_term_cases b 0 1) as H0.
  pose proof (bit_term_cases b 1 2) as H1.
  pose proof (bit_term_cases b 2 4) as H2.
  pose proof (bit_term_cases b 3 8) as H3.
  pose proof (bit_term_cases b 4 16) as H4.
  pose proof (bit_term_cases b 5 32) as H5.
  pose proof (bit_term_cases b 6 64) as H6.
  pose proof (bit_term_cases b 7 128) as H7.
  revert E H0 H1 H2 H3 H4 H5 H6 H7.
  generalize (bit_term b 0 1), (bit_term b 1 2), (bit_term b 2 4), (bit_term b 3 8),
    (bit_term b 4 16), (bit_term b 5 32), (bit_term b 6 64), (bit_term b 7 128).
  intros t0 t1 t2 t3 t4 t5 t6 t7 E H0 H1 H2 H3 H4 H5 H6 H7.
  assert (B0 : is_byte t0) by (unfold is_byte; lia).
  assert (B1 : is_byte t1) by (unfold is_byte; lia).
  assert (B2 : is_byte t2) by (unfold is_byte; lia).
  assert (B3 : is_byte t3) by (unfold is_byte; lia).
  assert (B4 : is_byte t4) by (unfold is_byte; lia).
  assert (B5 : is_byte t5) by (unfold is_byte; lia).
  assert (B6 : is_byte t6) by (unfold is_byte; lia).
  assert (B7 : is_byte t7) by (unfold is_byte; lia).
  rewrite E.
  rewrite !Multiply_lxor, !Multiply_lxor_l by auto 12 with bytes.
  rewrite (Multiply_comm_term a t0 0), (Multiply_comm_term a t1 1),
    (Multiply_comm_term a t2 2), (Multiply_comm_term a t3 3),
    (Multiply_comm_term a t4 4), (Multiply_comm_term a t5 5),
    (Multiply_comm_term a t6 6), (Multiply_comm_term a t7 7)
    by (assumption || lia).
  reflexivity.
Qed.

(** X10: [Xtime] returns a byte: twice its argument, truncated to 8 bits,
    xor 0x1b when the top bit of the argument was set, which is the
    multiplication by x modulo [poly] in GF(2^8). *)
Theorem Xtime_value (a : Z) :
  is_byte a ->
  is_byte (Xtime a) /\
  Xtime a = Z.lxor ((2 * a) mod 256) (if 128 <=? a then 0x1b else 0).
Proof.
  intros Ha. split; [apply is_byte_Xtime|].
  apply Z.eqb_eq.
  apply (forall_bytes
           (fun a => Xtime a =? Z.lxor ((2 * a) mod 256) (if 128 <=? a then 0x1b else 0)));
    [vm_compute; reflexivity | exact Ha].
Qed.

Lemma Xtime_value_witness :
  is_byte (Xtime 0x80) /\
  Xtime 0x80 = Z.lxor ((2 * 0x80) mod 256) (if 128 <=? 0x80 then 0x1b else 0).
Proof. apply (Xtime_value 0x80). unfold is_byte. lia. Defined.

(** X11: on bytes [Multiply] returns a byte and is commutative, although
    its loop runs over the bits of the second argument only. *)
Theorem Multiply_commutes (a b : Z) :
  is_byte a -> is_byte b ->
  is_byte (Multiply a b) /\ Multiply a b = Multiply b a.
Proof.
  intros Ha Hb. split; [apply is_byte_Multiply; assumption|].
  apply Multiply_comm; assumption.
Qed.

Lemma Multiply_commutes_witness :
  is_byte (Multiply 0x57 0x83) /\ Multiply 0x57 0x83 = Multiply 0x83 0x57.
Proof. apply (Multiply_commutes 0x57 0x83); unfold is_byte; lia. Defined.

(** X12: on bytes [Multiply] distributes over xor, the addition of
    GF(2^8), in either argument. *)
Theorem Multiply_distributes (a x y : Z) :
  is_byte a -> is_byte x -> is_byte y ->
  Multiply a (Z.lxor x y) = Z.lxor (Multiply a x) (Multiply a y) /\
  Multiply (Z.lxor x y) a = Z.lxor (Multiply x a) (Multiply y a).
Proof.
  intros Ha Hx Hy. split.
  - apply Multiply_lxor; assumption.
  - apply Multiply_lxor_l; assumption.
Qed.

Lemma Multiply_distributes_witness :
  Multiply 0x57 (Z.lxor 0x83 0x13)
  = Z.lxor (Multiply 0x57 0x83) (Multiply 0x57 0x13) /\
  Multiply (Z.lxor 0x83 0x13) 0x57
  = Z.lxor (Multiply 0x83 0x57) (Multiply 0x13 0x57).
Proof. apply (Multiply_distributes 0x57 0x83 0x13); unfold is_byte; lia. Defined.

(** X13: for [Multiply] on bytes, 0 is absorbing and 1 is neutral, on
    either side, and the product with 2 is [Xtime]. *)
Theorem Multiply_identities (a : Z) :
  is_byte a ->
  Multiply a 0 = 0 /\ Multiply 0 a = 0 /\
  Multiply a 1 = a /\ Multiply 1 a = a /\
  Multiply a 2 = Xtime a /\ Multiply 2 a = Xtime a.
Proof.
  intros Ha.
  destruct (Multiply_zero a Ha) as [Z1 Z2].
  assert (E1 : Multiply a 1 = a).
  { rewrite Multiply_comb by (unfold is_byte; lia).
    cbn [comb]. unfold bit_term. cbn [Z.testbit Z.of_nat Pos.of_succ_nat Pos.succ
      Pos.testbit Z.pred_double Z.pos_sub Z.pred Z.add Pos.pred_N Pos.pred_double].
    rewrite !Z.lxor_0_r. reflexivity. }
  assert (E2 : Multiply a 2 = Xtime a).
  { rewrite Multiply_comb by (unfold is_byte; lia).
    cbn [comb]. unfold bit_term. cbn [Z.testbit Z.of_nat Pos.of_succ_nat Pos.succ
      Pos.testbit Z.pred_double Z.pos_sub Z.pred Z.add Pos.pred_N Pos.pred_double].
    rewrite !Z.lxor_0_r, Z.lxor_0_l. reflexivity. }
  repeat split; try assumption.
  - rewrite <- E1 at 2. symmetry. apply Multiply_comm; [assumption|unfold is_byte; lia].
  - rewrite <- E2. symmetry. apply Multiply_comm; [assumption|unfold is_byte; lia].
Qed.

Lemma Multiply_identities_witness :
  Multiply 0x57 0 = 0 /\ Multiply 0 0x57 = 0 /\
  Multiply 0x57 1 = 0x57 /\ Multiply 1 0x57 = 0x57 /\
  Multiply 0x57 2 = Xtime 0x57 /\ Multiply 2 0x57 = Xtime 0x57.
Proof. apply (Multiply_identities 0x57). unfold is_byte. lia. Defined.

Lemma Exp2_large (i : nat) : (64 <= i)%nat -> Exp2 i = 0.
Proof.
  intros Hi. unfold Exp2, to_int.
  rewrite Z.shiftl_1_l.
  replace (Z.of_nat i) with (64 + (Z.of_nat i - 64)) by lia.
  rewrite Z.pow_add_r by lia.
  rewrite Z.add_comm, Z.mul_comm, Z.mod_add by lia.
  reflexivity.
Qed.

(** X14: [Rcon] panics on a negative round (the shift count of [Exp2]);
    for a round from 0 to 63 it returns x^round of GF(2^8), that is
    [Xtime] iterated on 1, as the most significant byte of a word; from
    round 64 on, [Exp2] overflows to 0 and so does [Rcon]. *)
Theorem Rcon_values (round : Z) :
  (round < 0 -> Rcon round = None) /\
  (0 <= round < 64 ->
     Rcon round = Some (Z.shiftl (Nat.iter (Z.to_nat round) Xtime 1) 24)) /\
  (64 <= round -> Rcon round = Some 0).
Proof.
  split; [|split].
  - intros Hr. unfold Rcon. destruct (Z.ltb_spec round 0); [reflexivity|lia].
  - intros Hr.
    assert (H : forallb (fun r =>
                  match Rcon (Z.of_nat r) with
                  | Some w => w =? Z.shiftl (Nat.iter r Xtime 1) 24
                  | None => false
                  end) (seq 0 64) = true) by (vm_compute; reflexivity).
    rewrite forallb_forall in H.
    specialize (H (Z.to_nat round) ltac:(apply in_seq; lia)).
    rewrite Z2Nat.id in H by lia.
    destruct (Rcon round) as [w|]; [|discriminate].
    apply Z.eqb_eq in H. rewrite H. reflexivity.
  - intros Hr. unfold Rcon. destruct (Z.ltb_spec round 0); [lia|].
    rewrite Exp2_large by lia. reflexivity.
Qed.

Lemma Rcon_values_witness :
  Rcon (-1) = None /\
  Rcon 8 = Some (Z.shiftl (Nat.iter (Z.to_nat 8) Xtime 1) 24) /\
  Rcon 64 = Some 0.
Proof.
  split; [|split].
  - apply (proj1 (Rcon_values (-1))). lia.
  - apply (proj1 (proj2 (Rcon_values 8))). lia.
  - apply (proj2 (proj2 (Rcon_values 64))). lia.
Defined.

End FieldMore.

(** ** aes.go and key.go: words and keys *)

Section KeyWords.
Import aes.

Lemma index_nth {A : Type} (l : list A) (i : nat) (d : A) :
  i < length l -> index l i = Some (nth i l d).
Proof. intros Hi. unfold index. apply nth_error_nth'. exact Hi. Qed.

(** A loop that stores [g i] at every index [i] below [n] of a fresh
    slice of [N] elements. *)
Lemma foldM_fill (f : list Z -> nat -> M (list Z)) (g : nat -> Z) (N n : nat) :
  n <= N ->
  (forall out i, i < n -> length out = N ->
                 f out i = Some (set_nth out i (g i))) ->
  foldM f (seq 0 n) (make N) = Some (map g (seq 0 n) ++ repeat 0%Z (N - n)).
Proof.
  intros Hn Hf.
  assert (H : forall m k, k + m = n ->
                foldM f (seq k m) (map g (seq 0 k) ++ repeat 0%Z (N - k))
                = Some (map g (seq 0 n) ++ repeat 0%Z (N - n))).
  { induction m as [|m IH]; intros k Hk.
    - replace k with n by lia. reflexivity.
    - cbn [seq foldM].
      rewrite Hf; [|lia|rewrite length_app, length_map, length_seq, repeat_length; lia].
      cbn [bind].
      replace (set_nth (map g (seq 0 k) ++ repeat 0%Z (N - k)) k (g k))
        with (map g (seq 0 (S k)) ++ repeat 0%Z (N - S k)); [apply IH; lia|].
      rewrite seq_S, map_app, <- app_assoc. cbn [map app Nat.add].
      replace (N - k) with (S (N - S k)) by lia. cbn [repeat].
      pose proof (set_nth_app (map g (seq 0 k)) (0%Z :: repeat 0%Z (N - S k)) (g k)
                    ltac:(discriminate)) as E.
      rewrite length_map, length_seq in E. rewrite E. reflexivity. }
  specialize (H n 0 ltac:(lia)). rewrite Nat.sub_0_r in H. exact H.
Qed.

Lemma firstn4_skipn (l : list Z) :
  forall k, k + 3 < length l ->
    firstn 4 (skipn k l)
    = [nth k l 0%Z; nth (k + 1) l 0%Z; nth (k + 2) l 0%Z; nth (k + 3) l 0%Z].
Proof.
  induction l as [|a l IH]; intros k Hk; [cbn in Hk; lia|].
  destruct k as [|k].
  - destruct l as [|b [|c [|d l]]]; cbn in Hk; try lia. reflexivity.
  - cbn [skipn Nat.add nth]. apply IH. cbn in Hk. lia.
Qed.

Lemma Words_eq (bytes : list Z) :
  Words bytes = Some (map (word_at bytes) (seq 0 (length bytes / 4))).
Proof.
  unfold Words.
  rewrite (foldM_fill _ (word_at bytes) (length bytes / 4) (length bytes / 4) (le_n _)).
  - rewrite Nat.sub_diag, app_nil_r. reflexivity.
  - intros out i Hi Hout.
    rewrite (index_nth bytes (4 * i) 0%Z) by lia.
    rewrite (index_nth bytes (4 * i + 1) 0%Z) by lia.
    rewrite (index_nth bytes (4 * i + 2) 0%Z) by lia.
    rewrite (index_nth bytes (4 * i + 3) 0%Z) by lia.
    cbn [bind]. apply store_some. lia.
Qed.

Lemma Words_v2_eq (bytes : list Z) : Words_v2 bytes = Words bytes.
Proof.
  rewrite Words_eq. unfold Words_v2.
  rewrite (foldM_fill _ (word_at bytes) (length bytes / 4) (length bytes / 4) (le_n _)).
  - rewrite Nat.sub_diag, app_nil_r. reflexivity.
  - intros out i Hi Hout. unfold slice.
    destruct (Nat.leb_spec (i * 4) (i * 4 + 4)); [|lia].
    destruct (Nat.leb_spec (i * 4 + 4) (length bytes)); [|lia].
    cbn [andb bind ret].
    replace (i * 4 + 4 - i * 4) with 4 by lia.
    replace (i * 4) with (4 * i) by lia.
    rewrite firstn4_skipn by lia.
    cbn [NewWord length Nat.eqb negb index nth_error bind ret].
    apply store_some. lia.
Qed.

(** X15: both revisions of [Words] return on every input, with the same
    result: one word for every four whole bytes, holding those bytes with
    the first one most significant; up to three trailing bytes are
    dropped, and nothing panics. *)
Theorem Words_packs (bytes : list Z) :
  Forall is_byte bytes ->
  exists ws,
    Words bytes = Some ws /\ Words_v2 bytes = Some ws /\
    length ws = length bytes / 4 /\
    forall i, i < length ws ->
      Word_Vector (nth i ws 0%Z) = firstn 4 (skipn (4 * i) bytes).
Proof.
  intros Hb. eexists. split; [apply Words_eq|].
  split; [rewrite Words_v2_eq; apply Words_eq|].
  split; [rewrite length_map, length_seq; reflexivity|].
  intros i Hi. rewrite length_map, length_seq in Hi.
  rewrite (nth_indep _ 0%Z (word_at bytes 0)) by (rewrite length_map, length_seq; exact Hi).
  rewrite map_nth, seq_nth by exact Hi. cbn [Nat.add]. unfold word_at.
  rewrite firstn4_skipn by lia.
  rewrite Forall_forall in Hb.
  apply Word_Vector_pack; apply Hb, nth_In; lia.
Qed.

Lemma Words_packs_witness :
  exists ws,
    Words [1; 2; 3; 4; 5; 6; 7; 8; 9]%Z = Some ws /\
    Words_v2 [1; 2; 3; 4; 5; 6; 7; 8; 9]%Z = Some ws /\
    length ws = length [1; 2; 3; 4; 5; 6; 7; 8; 9]%Z / 4 /\
    forall i, i < length ws ->
      Word_Vector (nth i ws 0%Z)
      = firstn 4 (skipn (4 * i) [1; 2; 3; 4; 5; 6; 7; 8; 9]%Z).
Proof.
  apply (Words_packs [1; 2; 3; 4; 5; 6; 7; 8; 9]%Z).
  apply Forall_is_byteb. reflexivity.
Defined.

(** X16: [NewKey] accepts exactly the byte strings of 16, 24 and 32 bytes,
    for which it returns the 4, 6 or 8 words of [Words]; on any other
    length it panics. *)
Theorem NewKey_accepts (bytes : list Z) :
  (length bytes = 16 \/ length bytes = 24 \/ length bytes = 32 ->
   exists key, NewKey bytes = Some key /\ Words bytes = Some key /\
               4 * length key = length bytes) /\
  (~ (length bytes = 16 \/ length bytes = 24 \/ length bytes = 32) ->
   NewKey bytes = None).
Proof.
  split.
  - intros Hl. destruct (NewKey_length bytes Hl) as (key & E & Hk).
    exists key. split; [exact E|]. split.
    + rewrite <- E. unfold NewKey.
      destruct Hl as [H|[H|H]]; rewrite H; reflexivity.
    + destruct Hl as [H|[H|H]]; rewrite H in *; rewrite Hk; reflexivity.
  - intros Hl. apply NewKey_wrong_length; tauto.
Qed.

Lemma NewKey_accepts_witness :
  (exists key, NewKey sample_key = Some key /\ Words sample_key = Some key /\
               4 * length key = length sample_key) /\
  NewKey [1; 2; 3]%Z = None.
Proof.
  split.
  - apply (proj1 (NewKey_accepts sample_key)). left. reflexivity.
  - apply (proj2 (NewKey_accepts [1; 2; 3]%Z)). cbn [length]. lia.
Defined.

End KeyWords.

(** ** Package matrix *)

Section Matrices.
Import matrix.

Lemma foldM_panics {S A : Type} (f : S -> A -> M S) (x : A) (l : list A) :
  In x l -> (forall s, f s x = None) -> forall s, foldM f l s = None.
Proof.
  intros Hin Hx. induction l as [|a l IH]; intros s; [contradiction|].
  cbn [foldM]. destruct Hin as [->|Hin].
  - rewrite Hx. reflexivity.
  - destruct (f s a); cbn [bind]; [apply IH; exact Hin|reflexivity].
Qed.

(** A loop that appends [g i] for every [i] below [n]. *)
Lemma foldM_snoc {A : Type} (F : list A -> nat -> M (list A)) (g : nat -> A)
  (n : nat) :
  (forall out i, i < n -> length out = i -> F out i = Some (out ++ [g i])) ->
  foldM F (seq 0 n) [] = Some (map g (seq 0 n)).
Proof.
  intros HF.
  assert (H : forall m k, k + m = n ->
                foldM F (seq k m) (map g (seq 0 k)) = Some (map g (seq 0 n))).
  { induction m as [|m IH]; intros k Hk.
    - replace k with n by lia. reflexivity.
    - cbn [seq foldM].
      rewrite HF; [|lia|rewrite length_map, length_seq; reflexivity].
      cbn [bind]. rewrite <- (IH (S k)) by lia.
      rewrite seq_S, map_app. reflexivity. }
  exact (H n 0 ltac:(lia)).
Qed.

Lemma firstn_plus {A : Type} (l : list A) :
  forall a b, firstn (a + b) l = firstn a l ++ firstn b (skipn a l).
Proof.
  induction l as [|x l IH]; intros [|a] b; cbn [Nat.add firstn skipn app];
    try reflexivity.
  - rewrite firstn_nil. reflexivity.
  - rewrite IH. reflexivity.
Qed.

Lemma concat_rows (bytes : list Z) (c : nat) :
  forall k, c * k <= length bytes ->
    concat (map (fun i => firstn c (skipn (i * c) bytes)) (seq 0 k))
    = firstn (c * k) bytes.
Proof.
  induction k as [|k IH]; intros Hk.
  - rewrite Nat.mul_0_r. reflexivity.
  - rewrite seq_S, map_app, concat_app, IH by lia. cbn [map concat Nat.add].
    rewrite app_nil_r.
    replace (c * S k) with (c * k + c) by lia.
    rewrite firstn_plus. replace (k * c) with (c * k) by lia. reflexivity.
Qed.

(** X17: [NewMatrix] panics on zero columns (a division by zero);
    otherwise it cuts the slice into rows of [columns] bytes, in order,
    and drops the bytes that do not fill a row. *)
Theorem NewMatrix_rows (bytes : list Z) (columns : nat) :
  (columns = 0 -> NewMatrix bytes columns = None) /\
  (0 < columns ->
   exists m, NewMatrix bytes columns = Some m /\
             length m = length bytes / columns /\ rows_of columns m /\
             concat m = firstn (columns * (length bytes / columns)) bytes).
Proof.
  split.
  - intros ->. reflexivity.
  - intros Hc. unfold NewMatrix.
    destruct (Nat.eqb_spec columns 0); [lia|].
    set (k := length bytes / columns).
    assert (Hk : columns * k <= length bytes)
      by (apply Nat.Div0.mul_div_le).
    rewrite (foldM_snoc _ (fun i => firstn columns (skipn (i * columns) bytes))).
    + eexists. split; [reflexivity|].
      split; [rewrite length_map, length_seq; reflexivity|]. split.
      * unfold rows_of. apply Forall_forall. intros r Hr.
        apply in_map_iff in Hr. destruct Hr as (i & <- & Hi).
        apply in_seq in Hi. rewrite length_firstn, length_skipn. nia.
      * apply concat_rows. exact Hk.
    + intros out i Hi Hout. unfold slice.
      destruct (Nat.leb_spec (i * columns) (i * columns + columns)); [|lia].
      destruct (Nat.leb_spec (i * columns + columns) (length bytes)); [|nia].
      cbn [andb bind ret].
      replace (i * columns + columns - i * columns) with columns by lia.
      reflexivity.
Qed.

Lemma NewMatrix_rows_witness :
  NewMatrix [1; 2; 3]%Z 0 = None /\
  exists m, NewMatrix [1; 2; 3; 4; 5]%Z 2 = Some m /\
            length m = length [1; 2; 3; 4; 5]%Z / 2 /\ rows_of 2 m /\
            concat m = firstn (2 * (length [1; 2; 3; 4; 5]%Z / 2)) [1; 2; 3; 4; 5]%Z.
Proof.
  split.
  - apply (proj1 (NewMatrix_rows [1; 2; 3]%Z 0)). reflexivity.
  - apply (proj2 (NewMatrix_rows [1; 2; 3; 4; 5]%Z 2)). lia.
Defined.

Lemma index2_nth (m : list (list Z)) (r c : nat) :
  r < length m -> c < length (nth r m []) ->
  index2 m r c = Some (nth c (nth r m []) 0%Z).
Proof.
  intros Hr Hc. unfold index2.
  rewrite (@index_nth (list Z) m r []) by exact Hr. cbn [bind].
  apply index_nth. exact Hc.
Qed.

Lemma rows_of_nth (n : nat) (m : list (list Z)) (r : nat) :
  rows_of n m -> r < length m -> length (nth r m []) = n.
Proof.
  unfold rows_of. rewrite Forall_forall. intros H Hr. apply H, nth_In, Hr.
Qed.

Lemma index_last_row {A : Type} (out : list (list A)) (row : list A) :
  index (out ++ [row]) (length out) = Some row.
Proof. unfold index. rewrite nth_error_app2, Nat.sub_diag by lia. reflexivity. Qed.

Lemma store_last_row {A : Type} (out : list (list A)) (row row' : list A) :
  store (out ++ [row]) (length out) row' = Some (out ++ [row']).
Proof.
  rewrite store_some by (rewrite length_app; cbn [length]; lia).
  rewrite set_nth_app by discriminate. reflexivity.
Qed.

(** A loop over the entries of the last row of a matrix is a loop over
    that row. *)
Lemma foldM_last_row (m : list (list Z)) (i : nat) (out : list (list Z))
  (l : list nat) :
  length out = i ->
  forall row : list Z,
    foldM (fun out j => x <- index2 m j i ;; store2 out i j x) l (out ++ [row])
    = (row' <- foldM (fun row j => x <- index2 m j i ;; store row j x) l row ;;
       ret (out ++ [row'])).
Proof.
  intros <-. induction l as [|j l IH]; intros row; [reflexivity|].
  cbn [foldM]. destruct (index2 m j (length out)) as [x|]; cbn [bind];
    [|reflexivity].
  unfold store2. rewrite index_last_row. cbn [bind].
  destruct (store row j x) as [row'|]; cbn [bind]; [|reflexivity].
  rewrite store_last_row. cbn [bind]. apply IH.
Qed.

Lemma Transpose_rows (m : list (list Z)) :
  m <> [] -> rows_of (length m) m -> Transpose m = Some (transposed m).
Proof.
  intros Hne Hrows. unfold Transpose, transposed, Vector.
  set (n := length m) in *.
  assert (Hn : 0 < n) by (destruct m; [contradiction|cbn; lia]).
  rewrite (@index_nth (list Z) m 0 []) by exact Hn. cbn [bind].
  rewrite (rows_of_nth n m 0 Hrows Hn).
  apply (foldM_snoc _ (fun i => map (fun j => nth i (nth j m []) 0%Z) (seq 0 n))).
  intros out i Hi Hout. cbv zeta.
  rewrite (foldM_last_row m i out (seq 0 n) Hout).
  rewrite (foldM_fill _ (fun j => nth i (nth j m []) 0%Z) n n (le_n _)).
  - cbn [bind ret]. rewrite Nat.sub_diag, app_nil_r. reflexivity.
  - intros row j Hj Hrow.
    rewrite index2_nth by (fold n; rewrite ?(rows_of_nth n m j Hrows Hj); lia).
    cbn [bind]. apply store_some. lia.
Qed.

Lemma Transpose_not_square (m0 : list Z) (rest : list (list Z)) :
  0 < length m0 -> length m0 <> length (m0 :: rest) ->
  Transpose (m0 :: rest) = None.
Proof.
  intros Hc Hne. unfold Transpose, Vector. cbn [index nth_error bind].
  remember (m0 :: rest) as m eqn:Em.
  remember (length m) as r eqn:Er.
  assert (Hr : 0 < r) by (subst r m; cbn; lia).
  destruct (Nat.lt_ge_cases r (length m0)) as [Hlt|Hge].
  - (* more columns than rows: [m[r]] does not exist *)
    apply (foldM_panics _ 0); [apply in_seq; lia|].
    intros s. cbv zeta.
    apply (foldM_panics _ r); [apply in_seq; lia|].
    intros s'. unfold index2, index.
    replace (nth_error m r) with (@None (list Z))
      by (symmetry; apply nth_error_None; lia).
    reflexivity.
  - (* more rows than columns: [m[0][c]] does not exist *)
    apply (foldM_panics _ (length m0)); [apply in_seq; lia|].
    intros s. cbv zeta.
    apply (foldM_panics _ 0); [apply in_seq; lia|].
    intros s'. unfold index2. subst m. cbn [index nth_error bind]. unfold index.
    replace (nth_error m0 (length m0)) with (@None Z)
      by (symmetry; apply nth_error_None; lia).
    reflexivity.
Qed.

Lemma map_nth_seq {A : Type} (l : list A) (d : A) :
  map (fun i => nth i l d) (seq 0 (length l)) = l.
Proof.
  induction l as [|a l IH]; [reflexivity|].
  cbn [length seq map nth]. f_equal.
  rewrite <- seq_shift, map_map. exact IH.
Qed.

Lemma transposed_involutive (m : list (list Z)) :
  rows_of (length m) m -> transposed (transposed m) = m.
Proof.
  intros Hrows. unfold transposed at 1.
  assert (Hl : length (transposed m) = length m)
    by (unfold transposed; rewrite length_map, length_seq; reflexivity).
  rewrite Hl.
  transitivity (map (fun i => nth i m []) (seq 0 (length m)));
    [|apply map_nth_seq].
  apply map_ext_in. intros i Hi. apply in_seq in Hi.
  transitivity (map (fun j => nth j (nth i m []) 0%Z)
                    (seq 0 (length (nth i m []))));
    [|apply map_nth_seq].
  rewrite (rows_of_nth _ m i Hrows) by lia.
  apply map_ext_in. intros j Hj. apply in_seq in Hj.
  unfold transposed.
  rewrite (nth_indep _ [] (map (fun j0 => nth 0 (nth j0 m []) 0%Z) (seq 0 (length m))))
    by (rewrite length_map, length_seq; lia).
  rewrite (map_nth (fun i0 => map (fun j0 => nth i0 (nth j0 m []) 0%Z) (seq 0 (length m)))).
  rewrite seq_nth by lia. cbn [Nat.add].
  rewrite (nth_indep _ 0%Z (nth j (nth 0 m []) 0%Z))
    by (rewrite length_map, length_seq; lia).
  rewrite (map_nth (fun j0 => nth j (nth j0 m []) 0%Z)).
  rewrite seq_nth by lia. reflexivity.
Qed.

Lemma rows_of_transposed (m : list (list Z)) :
  rows_of (length m) (transposed m) /\ length (transposed m) = length m.
Proof.
  unfold transposed, rows_of. split.
  - apply Forall_forall. intros r Hr. apply in_map_iff in Hr.
    destruct Hr as (i & <- & _). rewrite length_map, length_seq. reflexivity.
  - rewrite length_map, length_seq. reflexivity.
Qed.

(** X18: the method [Transpose] works on square matrices only: of a
    non-empty matrix with as many rows as columns it returns the
    transpose, and transposing twice gives the matrix back; on the empty
    matrix, and on a matrix whose first row is not empty and not as long
    as the matrix has rows, it panics. *)
Theorem Transpose_square (m : Matrix) :
  (m <> [] -> rows_of (length m) m ->
   Transpose m = Some (transposed m) /\
   (t <- Transpose m ;; Transpose t) = Some m) /\
  (m = [] -> Transpose m = None) /\
  (0 < length (hd [] m) -> length (hd [] m) <> length m -> Transpose m = None).
Proof.
  split; [|split].
  - intros Hne Hrows. rewrite (Transpose_rows m Hne Hrows). split; [reflexivity|].
    cbn [bind]. destruct (rows_of_transposed m) as [Ht Hl].
    rewrite Transpose_rows.
    + rewrite transposed_involutive by exact Hrows. reflexivity.
    + intros E. rewrite E in Hl. destruct m; [contradiction|discriminate].
    + rewrite Hl. exact Ht.
  - intros ->. reflexivity.
  - destruct m as [|m0 rest]; cbn [hd]; [cbn; lia|].
    apply Transpose_not_square.
Qed.

Lemma Transpose_square_witness :
  (Transpose [[1; 2]; [3; 4]]%Z = Some (transposed [[1; 2]; [3; 4]]%Z) /\
   (t <- Transpose [[1; 2]; [3; 4]]%Z ;; Transpose t) = Some [[1; 2]; [3; 4]]%Z) /\
  Transpose [] = None /\
  Transpose [[1; 2; 3]; [4; 5; 6]]%Z = None.
Proof.
  split; [|split].
  - apply (proj1 (Transpose_square [[1; 2]; [3; 4]]%Z)); [discriminate|].
    repeat constructor.
  - apply (proj1 (proj2 (Transpose_square []))). reflexivity.
  - apply (proj2 (proj2 (Transpose_square [[1; 2; 3]; [4; 5; 6]]%Z)));
      cbn [hd length]; lia.
Defined.

End Matrices.

Section Columns.
Import matrix.

Lemma tl_skipn {A : Type} (l : list A) :
  forall k, tl (skipn k l) = skipn (S k) l.
Proof.
  induction l as [|a l IH]; intros [|k]; try reflexivity.
  cbn [skipn]. apply IH.
Qed.

(** A loop that overwrites the entries below [n] of a slice one by one,
    reading at step [i] only what it has not yet overwritten. *)
Lemma foldM_overwrite {A : Type} (f : list A -> nat -> M (list A))
  (g : nat -> A) (init : list A) (n : nat) :
  n <= length init ->
  (forall out i, i < n -> length out = length init ->
                 skipn i out = skipn i init ->
                 f out i = Some (set_nth out i (g i))) ->
  foldM f (seq 0 n) init = Some (map g (seq 0 n) ++ skipn n init).
Proof.
  intros Hn Hf.
  assert (H : forall m k, k + m = n ->
                foldM f (seq k m) (map g (seq 0 k) ++ skipn k init)
                = Some (map g (seq 0 n) ++ skipn n init)).
  { induction m as [|m IH]; intros k Hk.
    - replace k with n by lia. reflexivity.
    - assert (Hlen : length (map g (seq 0 k) ++ skipn k init) = length init)
        by (rewrite length_app, length_map, length_seq, length_skipn; lia).
      cbn [seq foldM]. rewrite Hf; [|lia|exact Hlen|].
      + cbn [bind].
        replace (set_nth (map g (seq 0 k) ++ skipn k init) k (g k))
          with (map g (seq 0 (S k)) ++ skipn (S k) init); [apply IH; lia|].
        rewrite seq_S, map_app, <- app_assoc. cbn [map app Nat.add].
        assert (Hs : skipn k init <> []).
        { intros E. apply (f_equal (@length A)) in E.
          rewrite length_skipn in E. cbn in E. lia. }
        pose proof (set_nth_app (map g (seq 0 k)) (skipn k init) (g k) Hs) as E.
        rewrite length_map, length_seq in E. rewrite E.
        rewrite tl_skipn. reflexivity.
      + rewrite skipn_app, length_map, length_seq, Nat.sub_diag.
        rewrite skipn_all2 by (rewrite length_map, length_seq; lia).
        reflexivity. }
  exact (H n 0 ltac:(lia)).
Qed.

Lemma nth_set_nth_same {A : Type} (l : list A) (i : nat) (v d : A) :
  i < length l -> nth i (set_nth l i v) d = v.
Proof.
  intros Hi. apply nth_error_nth. apply index_set_nth_same. exact Hi.
Qed.

Lemma nth_set_nth_other {A : Type} (l : list A) (i j : nat) (v d : A) :
  i <> j -> nth j (set_nth l i v) d = nth j l d.
Proof.
  revert i j. induction l as [|a l IH]; intros [|i] [|j] Hij; cbn;
    try reflexivity; try lia. apply IH. lia.
Qed.

Lemma map_seq_nth {A B : Type} (f : A -> B) (l : list A) (d : A) :
  map (fun i => f (nth i l d)) (seq 0 (length l)) = map f l.
Proof.
  transitivity (map f (map (fun i => nth i l d) (seq 0 (length l)))).
  - rewrite map_map. reflexivity.
  - rewrite map_nth_seq. reflexivity.
Qed.

Lemma ColumnVector_eq (m : list (list Z)) (idx : nat) :
  Forall (fun r => idx < length r) m ->
  ColumnVector m idx = Some (map (fun r => nth idx r 0%Z) m).
Proof.
  intros Hrows. unfold ColumnVector.
  rewrite (foldM_fill _ (fun i => nth idx (nth i m []) 0%Z) (length m) (length m) (le_n _)).
  - rewrite Nat.sub_diag, app_nil_r. f_equal.
    apply (map_seq_nth (fun r => nth idx r 0%Z)).
  - intros out i Hi Hout. rewrite Forall_forall in Hrows.
    rewrite index2_nth by (try apply Hrows, nth_In; assumption).
    cbn [bind]. apply store_some. lia.
Qed.

(** X19: [ColumnVector] returns the entries at the given index of every
    row, in order, when every row is long enough, and panics as soon as
    one row is too short. *)
Theorem ColumnVector_column (m : Matrix) (idx : nat) :
  (Forall (fun r => idx < length r) m ->
   ColumnVector m idx = Some (map (fun r => nth idx r 0%Z) m)) /\
  (Exists (fun r => length r <= idx) m -> ColumnVector m idx = None).
Proof.
  split; [apply ColumnVector_eq|].
  intros Hex. apply Exists_exists in Hex. destruct Hex as (r & Hin & Hr).
  destruct (In_nth m r [] Hin) as (i & Hi & Ei).
  unfold ColumnVector.
  apply (foldM_panics _ i); [apply in_seq; lia|].
  intros s. unfold index2.
  rewrite (@index_nth (list Z) m i []) by exact Hi. cbn [bind].
  unfold Vector in *. rewrite Ei. unfold index.
  replace (nth_error r idx) with (@None Z)
    by (symmetry; apply nth_error_None; exact Hr).
  reflexivity.
Qed.

Lemma ColumnVector_column_witness :
  ColumnVector [[1; 2]; [3; 4]]%Z 1
  = Some (map (fun r => nth 1 r 0%Z) [[1; 2]; [3; 4]]%Z) /\
  ColumnVector [[1; 2]; [3]]%Z 1 = None.
Proof.
  split.
  - apply (proj1 (ColumnVector_column [[1; 2]; [3; 4]]%Z 1)).
    repeat constructor.
  - apply (proj2 (ColumnVector_column [[1; 2]; [3]]%Z 1)).
    apply Exists_cons_tl, Exists_cons_hd. cbn [length]. lia.
Defined.

Lemma SetColumn_eq (m : list (list Z)) (column : list Z) (idx c : nat) :
  m <> [] -> rows_of c m -> idx < c -> length column = length m ->
  SetColumn m column idx
  = Some (map (fun i => set_nth (nth i m []) idx (nth i column 0%Z))
              (seq 0 (length m))).
Proof.
  intros Hne Hrows Hidx Hcol. unfold SetColumn, Vector.
  assert (Hn : 0 < length m) by (destruct m; [contradiction|cbn; lia]).
  rewrite (@index_nth (list Z) m 0 []) by exact Hn. cbn [bind].
  rewrite (rows_of_nth c m 0 Hrows Hn).
  destruct (Nat.ltb_spec c idx); [lia|].
  rewrite Hcol, Nat.eqb_refl. cbn [negb].
  rewrite (foldM_overwrite _
             (fun i => set_nth (nth i m []) idx (nth i column 0%Z)) m (length m)
             (le_n _)).
  - rewrite skipn_all, app_nil_r. reflexivity.
  - intros out i Hi Hout Hskip.
    rewrite (index_nth column i 0%Z) by lia. cbn [bind].
    unfold store2.
    assert (Erow : nth i out [] = nth i m []).
    { rewrite <- (Nat.add_0_r i) at 1. rewrite <- nth_skipn, Hskip, nth_skipn.
      rewrite Nat.add_0_r. reflexivity. }
    rewrite (@index_nth (list Z) out i []) by lia. cbn [bind].
    rewrite Erow.
    rewrite store_some by (rewrite (rows_of_nth c m i Hrows Hi); exact Hidx).
    cbn [bind]. apply store_some. lia.
Qed.

(** X20: on a non-empty matrix with rows of one length, [SetColumn] puts
    the given vector in the column at the given index, so that
    [ColumnVector] reads it back there, and leaves every other column as
    it was; a vector that is not as long as the matrix has rows makes it
    panic. *)
Theorem SetColumn_ColumnVector (m : list (list Z)) (column : list Z)
  (idx c : nat) :
  m <> [] -> rows_of c m -> idx < c ->
  (length column = length m ->
   exists m', SetColumn m column idx = Some m' /\
              length m' = length m /\ rows_of c m' /\
              ColumnVector m' idx = Some column /\
              forall j, j < c -> j <> idx ->
                        ColumnVector m' j = ColumnVector m j) /\
  (length column <> length m -> SetColumn m column idx = None).
Proof.
  intros Hne Hrows Hidx. split.
  - intros Hcol. rewrite (SetColumn_eq m column idx c) by assumption.
    eexists. split; [reflexivity|].
    set (m' := map _ _).
    assert (Hlen : length m' = length m)
      by (subst m'; rewrite length_map, length_seq; reflexivity).
    assert (Hrows' : rows_of c m').
    { unfold rows_of. apply Forall_forall. intros r Hr. subst m'.
      apply in_map_iff in Hr. destruct Hr as (i & <- & Hi). apply in_seq in Hi.
      rewrite length_set_nth. apply (rows_of_nth c m i Hrows). lia. }
    split; [exact Hlen|]. split; [exact Hrows'|].
    assert (Hcols : forall j, j < c ->
              ColumnVector m' j
              = Some (map (fun i => nth j (set_nth (nth i m []) idx (nth i column 0%Z)) 0%Z)
                          (seq 0 (length m)))).
    { intros j Hj. rewrite ColumnVector_eq.
      - subst m'. rewrite map_map. reflexivity.
      - unfold rows_of in Hrows'. rewrite Forall_forall in *.
        intros r Hr. rewrite (Hrows' r Hr). exact Hj. }
    split.
    + rewrite (Hcols idx Hidx). apply (f_equal Some).
      transitivity (map (fun i => nth i column 0%Z) (seq 0 (length column)));
        [|apply map_nth_seq].
      rewrite Hcol. apply map_ext_in. intros i Hi. apply in_seq in Hi.
      apply nth_set_nth_same. rewrite (rows_of_nth c m i Hrows); lia.
    + intros j Hj Hne'. rewrite (Hcols j Hj), ColumnVector_eq.
      * apply (f_equal Some).
        rewrite <- (map_seq_nth (fun r => nth j r 0%Z) m []).
        apply map_ext_in. intros i Hi. apply nth_set_nth_other. lia.
      * unfold rows_of in Hrows. rewrite Forall_forall in *.
        intros r Hr. rewrite (Hrows r Hr). exact Hj.
  - intros Hcol. unfold SetColumn, Vector.
    assert (Hn : 0 < length m) by (destruct m; [contradiction|cbn; lia]).
    rewrite (@index_nth (list Z) m 0 []) by exact Hn. cbn [bind].
    rewrite (rows_of_nth c m 0 Hrows Hn).
    destruct (Nat.ltb_spec c idx); [reflexivity|].
    destruct (Nat.eqb_spec (length column) (length m)); [contradiction|].
    reflexivity.
Qed.

Lemma SetColumn_ColumnVector_witness :
  (exists m', SetColumn [[1; 2]; [3; 4]]%Z [7; 8]%Z 1 = Some m' /\
              length m' = length [[1; 2]; [3; 4]]%Z /\ rows_of 2 m' /\
              ColumnVector m' 1 = Some [7; 8]%Z /\
              forall j, j < 2 -> j <> 1 ->
                        ColumnVector m' j = ColumnVector [[1; 2]; [3; 4]]%Z j) /\
  SetColumn [[1; 2]; [3; 4]]%Z [7]%Z 1 = None.
Proof.
  assert (Hne : [[1; 2]; [3; 4]]%Z <> []) by discriminate.
  assert (Hrows : rows_of 2 [[1; 2]; [3; 4]]%Z) by (repeat constructor).
  assert (Hidx : 1 < 2) by lia.
  split.
  - apply (proj1 (SetColumn_ColumnVector [[1; 2]; [3; 4]]%Z [7; 8]%Z 1 2
                    Hne Hrows Hidx)). reflexivity.
  - apply (proj2 (SetColumn_ColumnVector [[1; 2]; [3; 4]]%Z [7]%Z 1 2
                    Hne Hrows Hidx)). cbn [length]. lia.
Defined.

End Columns.

(** ** Vectors and blocks *)

Section Vectors2.
Import aes.

Lemma map_seq_nth2 {A B C : Type} (h : A -> B -> C) (da : A) (db : B)
  (a : list A) :
  forall b : list B,
    length a = length b ->
    map (fun i => h (nth i a da) (nth i b db)) (seq 0 (length a))
    = map (fun xy => h (fst xy) (snd xy)) (combine a b).
Proof.
  induction a as [|x a IH]; intros [|y b] Hl; cbn [length] in Hl;
    try discriminate; [reflexivity|].
  cbn [length seq map combine nth fst snd]. f_equal.
  rewrite <- seq_shift, map_map. apply IH. lia.
Qed.

Lemma XOR_eq (a b : list Z) :
  length a = length b -> blockcipher.XOR a b = Some (xor_blocks b a).
Proof.
  intros Hl. unfold blockcipher.XOR. rewrite <- Hl, Nat.eqb_refl. cbn [negb].
  rewrite (foldM_fill _ (fun i => Z.lxor (nth i b 0%Z) (nth i a 0%Z))
             (length a) (length a) (le_n _)).
  - rewrite Nat.sub_diag, app_nil_r. f_equal. unfold xor_blocks.
    rewrite Hl. apply (map_seq_nth2 Z.lxor). lia.
  - intros out i Hi Hout.
    rewrite (index_nth b i 0%Z) by lia. cbn [bind]. unfold modM.
    destruct (Nat.eqb_spec (length a) 0); [lia|]. cbn [bind ret].
    rewrite Nat.mod_small by exact Hi.
    rewrite (index_nth a i 0%Z) by exact Hi. cbn [bind].
    apply store_some. lia.
Qed.

Lemma xor_blocks_comm (a : list Z) :
  forall b, xor_blocks a b = xor_blocks b a.
Proof.
  unfold xor_blocks. induction a as [|x a IH]; intros [|y b]; try reflexivity.
  cbn [combine map fst snd]. rewrite Z.lxor_comm, IH. reflexivity.
Qed.

Lemma length_xor_blocks_eq (a b : list Z) :
  length a = length b -> length (xor_blocks a b) = length a.
Proof.
  intros Hl. unfold xor_blocks. rewrite length_map, length_combine. lia.
Qed.

(** X21: [XOR], in the package matrix and in the package blockcipher
    alike, panics on slices of different lengths and otherwise returns
    their element-wise xor, so the index [i%size] never wraps around; the
    xor with the same slice, applied twice, gives the other one back. *)
Theorem XOR_elementwise (a b : list Z) :
  (length a = length b ->
   matrix.XOR a b = Some (xor_blocks b a) /\
   blockcipher.XOR a b = Some (xor_blocks b a) /\
   (c <- blockcipher.XOR a b ;; blockcipher.XOR a c) = Some b) /\
  (length a <> length b ->
   matrix.XOR a b = None /\ blockcipher.XOR a b = None).
Proof.
  split.
  - intros Hl. split; [exact (XOR_eq a b Hl)|]. split; [exact (XOR_eq a b Hl)|].
    rewrite (XOR_eq a b Hl). cbn [bind].
    rewrite XOR_eq by (rewrite length_xor_blocks_eq; lia).
    rewrite (xor_blocks_comm b a), xor_blocks_comm.
    rewrite xor_blocks_involutive by lia. reflexivity.
  - intros Hl. split; exact (XOR_length_mismatch a b Hl).
Qed.

Lemma XOR_elementwise_witness :
  (matrix.XOR [1; 2; 3]%Z [4; 5; 6]%Z = Some (xor_blocks [4; 5; 6]%Z [1; 2; 3]%Z) /\
   blockcipher.XOR [1; 2; 3]%Z [4; 5; 6]%Z
   = Some (xor_blocks [4; 5; 6]%Z [1; 2; 3]%Z) /\
   (c <- blockcipher.XOR [1; 2; 3]%Z [4; 5; 6]%Z ;; blockcipher.XOR [1; 2; 3]%Z c)
   = Some [4; 5; 6]%Z) /\
  (matrix.XOR [1; 2]%Z [4; 5; 6]%Z = None /\
   blockcipher.XOR [1; 2]%Z [4; 5; 6]%Z = None).
Proof.
  split.
  - apply (proj1 (XOR_elementwise [1; 2; 3]%Z [4; 5; 6]%Z)). reflexivity.
  - apply (proj2 (XOR_elementwise [1; 2]%Z [4; 5; 6]%Z)). cbn [length]. lia.
Defined.

Lemma foldM_map {S A B : Type} (f : S -> B -> M S) (h : A -> B) (l : list A) :
  forall s, foldM f (map h l) s = foldM (fun s a => f s (h a)) l s.
Proof.
  induction l as [|a l IH]; intros s; [reflexivity|].
  cbn [map foldM]. destruct (f s (h a)); cbn [bind]; [apply IH|reflexivity].
Qed.

Lemma foldM_ext {S A : Type} (f g : S -> A -> M S) (l : list A) :
  (forall s a, f s a = g s a) -> forall s, foldM f l s = foldM g l s.
Proof.
  intros Hfg. induction l as [|a l IH]; intros s; [reflexivity|].
  cbn [foldM]. rewrite Hfg. destruct (g s a); cbn [bind]; [apply IH|reflexivity].
Qed.

(** The loop of [DotProduct], started from [acc]. *)
Lemma DotProduct_loop (a : list Z) :
  forall (b : list Z) (acc : Z),
    length a = length b ->
    foldM (fun out i =>
             ai <- index a i ;; bi <- index b i ;;
             ret (Z.lxor out (Multiply ai bi)))
          (seq 0 (length a)) acc
    = Some (fold_left (fun out xy => Z.lxor out (Multiply (fst xy) (snd xy)))
                      (combine a b) acc).
Proof.
  induction a as [|x a IH]; intros [|y b] acc Hl; cbn [length] in Hl;
    try discriminate; [reflexivity|].
  cbn [length seq foldM index nth_error bind ret combine fold_left fst snd].
  rewrite <- seq_shift, foldM_map.
  rewrite <- (IH b) by lia. apply foldM_ext. reflexivity.
Qed.

Lemma fold_lxor_acc (l : list (Z * Z)) :
  forall acc,
    fold_left (fun out xy => Z.lxor out (Multiply (fst xy) (snd xy))) l acc
    = Z.lxor acc
        (fold_left (fun out xy => Z.lxor out (Multiply (fst xy) (snd xy))) l 0%Z).
Proof.
  induction l as [|xy l IH]; intros acc; cbn [fold_left].
  - rewrite Z.lxor_0_r. reflexivity.
  - rewrite IH, (IH (Z.lxor 0 _)), Z.lxor_0_l, Z.lxor_assoc. reflexivity.
Qed.

Lemma DotProduct_cons (x y : Z) (a b : list Z) :
  length a = length b ->
  DotProduct (x :: a) (y :: b)
  = (d <- DotProduct a b ;; ret (Z.lxor (Multiply x y) d)).
Proof.
  intros Hl. unfold DotProduct. cbn [length]. rewrite Hl, !Nat.eqb_refl.
  cbn [negb]. rewrite <- Hl.
  rewrite (DotProduct_loop a b 0%Z Hl).
  change (S (length a)) with (length (x :: a)).
  rewrite (DotProduct_loop (x :: a) (y :: b) 0%Z) by (cbn [length]; lia).
  cbn [combine fold_left fst snd bind ret].
  rewrite fold_lxor_acc, Z.lxor_0_l. reflexivity.
Qed.

(** X22: [DotProduct] panics on vectors of different lengths; on vectors
    of one length it returns the xor of the products of their entries:
    0 for the empty vectors, and the product of the first entries xor the
    dot product of the rest.  On bytes the result is a byte, and the
    same with the two vectors exchanged. *)
Theorem DotProduct_sum (a b : list Z) (x y : Z) :
  (length a <> length b -> DotProduct a b = None) /\
  DotProduct [] [] = Some 0%Z /\
  (length a = length b ->
   DotProduct (x :: a) (y :: b)
   = (d <- DotProduct a b ;; ret (Z.lxor (Multiply x y) d))) /\
  (length a = length b -> Forall is_byte a -> Forall is_byte b ->
   exists d, DotProduct a b = Some d /\ is_byte d /\ DotProduct b a = Some d).
Proof.
  split; [|split; [reflexivity|split; [apply DotProduct_cons|]]].
  - intros Hl. unfold DotProduct.
    destruct (Nat.eqb_spec (length a) (length b)); [contradiction|reflexivity].
  - clear x y. intros Hl Ha. revert b Hl.
    induction Ha as [|x a Hx Ha IH]; intros [|y b] Hl Hb; cbn [length] in Hl;
      try discriminate.
    + exists 0%Z. repeat split; try reflexivity; unfold is_byte; lia.
    + inversion Hb as [|? ? Hy Hb']; subst.
      destruct (IH b ltac:(lia) Hb') as (d & E1 & Hd & E2).
      exists (Z.lxor (Multiply x y) d).
      rewrite !DotProduct_cons by lia. rewrite E1, E2. cbn [bind ret].
      split; [reflexivity|]. split; [auto with bytes|].
      rewrite (Multiply_comm x y) by assumption. reflexivity.
Qed.

Lemma DotProduct_sum_witness :
  DotProduct [1; 2]%Z [3]%Z = None /\
  DotProduct [] [] = Some 0%Z /\
  DotProduct [2; 3; 1; 1]%Z [0xd4; 0xbf; 0x5d; 0x30]%Z
  = (d <- DotProduct [3; 1; 1]%Z [0xbf; 0x5d; 0x30]%Z ;;
     ret (Z.lxor (Multiply 2 0xd4) d)) /\
  exists d, DotProduct [3; 1; 1]%Z [0xbf; 0x5d; 0x30]%Z = Some d /\ is_byte d /\
            DotProduct [0xbf; 0x5d; 0x30]%Z [3; 1; 1]%Z = Some d.
Proof.
  split; [|split; [|split]].
  - apply (proj1 (DotProduct_sum [1; 2]%Z [3]%Z 0%Z 0%Z)). cbn [length]. lia.
  - reflexivity.
  - apply (proj1 (proj2 (proj2 (DotProduct_sum [3; 1; 1]%Z [0xbf; 0x5d; 0x30]%Z
                                   2%Z 0xd4%Z)))). reflexivity.
  - apply (proj2 (proj2 (proj2 (DotProduct_sum [3; 1; 1]%Z [0xbf; 0x5d; 0x30]%Z
                                   0%Z 0%Z)))).
    + reflexivity.
    + apply Forall_is_byteb. reflexivity.
    + apply Forall_is_byteb. reflexivity.
Defined.

End Vectors2.

Section Blocks2.
Import aes.

(** X23: [NewBlock] panics on more than 16 bytes; up to 16 bytes it
    copies to the front of a block and fills the rest with zeros. *)
Theorem NewBlock_pads (bytes : list Z) :
  (length bytes <= 16 ->
   blockcipher.NewBlock bytes = Some (bytes ++ repeat 0%Z (16 - length bytes))) /\
  (16 < length bytes -> blockcipher.NewBlock bytes = None).
Proof.
  unfold blockcipher.NewBlock. split; intros Hl.
  - destruct (Nat.ltb_spec 16 (length bytes)); [lia|].
    rewrite (foldM_fill _ (fun i => nth i bytes 0%Z) 16 (length bytes) Hl).
    + rewrite map_nth_seq. reflexivity.
    + intros out i Hi Hout. rewrite (index_nth bytes i 0%Z) by exact Hi.
      cbn [bind]. apply store_some. lia.
  - destruct (Nat.ltb_spec 16 (length bytes)); [reflexivity|lia].
Qed.

Lemma NewBlock_pads_witness :
  blockcipher.NewBlock [1; 2; 3]%Z
  = Some ([1; 2; 3]%Z ++ repeat 0%Z (16 - length [1; 2; 3]%Z)) /\
  blockcipher.NewBlock (repeat 1%Z 17) = None.
Proof.
  split.
  - apply (proj1 (NewBlock_pads [1; 2; 3]%Z)). cbn [length]. lia.
  - apply (proj2 (NewBlock_pads (repeat 1%Z 17))). cbn [repeat length]. lia.
Defined.

(** X24: the later revision of [parse], which cuts the block into rows
    and transposes, returns on every 16-byte block the state of the
    earlier one, which copies [block[r+4*c]] entry by entry. *)
Theorem parse_v2_parse (block : Block) :
  len16 block -> parse_v2 block = parse block.
Proof.
  intros Hl.
  destruct (length16_shape block Hl)
    as (b0 & b1 & b2 & b3 & b4 & b5 & b6 & b7 & b8 & b9 & b10 & b11
        & b12 & b13 & b14 & b15 & ->).
  reflexivity.
Qed.

Lemma parse_v2_parse_witness :
  parse_v2 (map Z.of_nat (seq 0 16)) = parse (map Z.of_nat (seq 0 16)).
Proof. apply (parse_v2_parse (map Z.of_nat (seq 0 16))). reflexivity. Defined.

End Blocks2.

(** ** cmd/aes: the loop over the input *)

Section Command.
Import cmd.

Variable op : blockcipher.Block -> M blockcipher.Block.
Variable input : list Z.

Hypothesis op_returns : forall b, is_block b -> exists c, op b = Some c.
Hypothesis input_bytes : Forall is_byte input.








End Command.

Section CommandExample.
Import cmd.


End CommandExample.

(** ** key.go: the key and the round words of the schedule *)

Section ScheduleRoundWords.
Import aes.

Lemma firstn_set_nth {A : Type} (l : list A) :
  forall (n i : nat) (v : A), n <= i -> firstn n (set_nth l i v) = firstn n l.
Proof.
  induction l as [|a l IH]; intros [|n] [|i] v Hn; cbn [set_nth firstn];
    try reflexivity; try lia.
  rewrite IH by lia. reflexivity.
Qed.

Lemma expandKey_round_words_of (key : Key) (numRounds : nat) (sched : list Word) :
  0 < length key -> length key <= 4 * (numRounds + 1) ->
  expandKey key numRounds (length key) 4 = Some sched ->
  firstn (length key) sched = key /\
  forall i, length key <= i < 4 * (numRounds + 1) ->
            i mod length key = 0 -> round_word (length key) sched i.
Proof.
  intros Hpos Hle E. unfold expandKey in E.
  set (N := 4 * (numRounds + 1)) in *.
  set (Nk := length key) in *.
  rewrite (foldM_fill _ (fun i => nth i key 0%Z) N Nk Hle) in E.
  2:{ intros out i Hi Hout. rewrite (index_nth key i 0%Z) by exact Hi.
      cbn [bind]. apply store_some. lia. }
  cbn [bind] in E.
  assert (Ek : @map nat Z (fun i => @nth Word i key 0%Z) (seq 0 Nk) = key)
    by apply (@map_nth_seq Z key 0%Z).
  rewrite Ek in E.
  pose (I := fun (j : nat) (out : list Word) =>
               length out = N /\ firstn Nk out = key /\
               forall i, Nk <= i < j -> i mod Nk = 0 -> round_word Nk out i).
  assert (HI : I (Nk + (N - Nk)) sched).
  { apply (foldM_seq_preserves I) with (3 := E).
    - intros j out out1 Hj (Hlen & Hkey & Hinv) Ej.
      destruct (Nat.eqb_spec j 0); [lia|].
      destruct (index out (j - 1)) as [t|] eqn:Et; cbn [bind] in Ej;
        [|discriminate].
      unfold modM at 1 in Ej.
      destruct (Nat.eqb_spec Nk 0); [lia|]. cbn [bind ret] in Ej.
      change (6 <? 4) with false in Ej.
      assert (Hold : forall out' v,
                 out' = set_nth out j v ->
                 forall i, Nk <= i < j -> i mod Nk = 0 -> round_word Nk out' i).
      { intros out' v -> i Hi Hm.
        destruct (Hinv i Hi Hm) as (t' & p' & rc' & A & B & C & D).
        exists t', p', rc'. rewrite !index_set_nth_other by lia. auto. }
      destruct (Nat.eqb_spec (j mod Nk) 0) as [Hz|Hnz].
      + destruct (Rcon (Z.of_nat (j / Nk) - 1)) as [rc|] eqn:Erc;
          cbn [bind ret] in Ej; [|discriminate].
        destruct (Nat.ltb_spec j Nk); [discriminate|].
        destruct (index out (j - Nk)) as [p|] eqn:Ep; cbn [bind] in Ej;
          [|discriminate].
        apply store_inv in Ej. destruct Ej as [Hjl ->].
        split; [rewrite length_set_nth; exact Hlen|].
        split; [rewrite firstn_set_nth by lia; exact Hkey|].
        intros i Hi Hm.
        destruct (Nat.eq_dec i j) as [->|Hij].
        * exists t, p, rc. rewrite !index_set_nth_other by lia.
          rewrite index_set_nth_same by assumption. auto.
        * apply (Hold _ _ eq_refl); [lia|assumption].
      + cbn [bind ret] in Ej.
        destruct (Nat.ltb_spec j Nk); [discriminate|].
        destruct (index out (j - Nk)) as [p|] eqn:Ep; cbn [bind] in Ej;
          [|discriminate].
        apply store_inv in Ej. destruct Ej as [Hjl ->].
        split; [rewrite length_set_nth; exact Hlen|].
        split; [rewrite firstn_set_nth by lia; exact Hkey|].
        intros i Hi Hm.
        assert (i <> j) by (intros ->; contradiction).
        apply (Hold _ _ eq_refl); [lia|assumption].
    - split; [rewrite length_app, repeat_length; change (@length Z key) with Nk; lia|].
      split; [|intros i Hi; lia].
      change Nk with (@length Z key).
      rewrite firstn_app, firstn_all, Nat.sub_diag. cbn [firstn].
      apply app_nil_r. }
  destruct HI as (_ & Hkey & HI). split; [exact Hkey|].
  intros i Hi Hm. apply HI; [lia|assumption].
Qed.

(** X26: for a key of [Nk] words, [expandKey] returns a schedule of
    [4 * (numRounds + 1)] words that begins with the key itself, and whose
    word at every later multiple [i] of [Nk] is the word at [i - Nk] xor
    the substituted rotation of the word at [i - 1] xor [Rcon(i/Nk - 1)]. *)
Theorem expandKey_round_words (key : Key) (numRounds : nat) :
  0 < length key -> length key <= 4 * (numRounds + 1) ->
  exists sched,
    expandKey key numRounds (length key) 4 = Some sched /\
    length sched = 4 * (numRounds + 1) /\
    firstn (length key) sched = key /\
    forall i, length key <= i < 4 * (numRounds + 1) ->
              i mod length key = 0 -> round_word (length key) sched i.
Proof.
  intros Hpos Hle.
  destruct (expandKey_length key numRounds 4 Hpos Hle) as (sched & E & Hl).
  exists sched. split; [exact E|]. split; [exact Hl|].
  apply (expandKey_round_words_of key numRounds sched Hpos Hle E).
Qed.

Lemma expandKey_round_words_witness :
  exists sched,
    expandKey [1; 2; 3; 4]%Z 10 (length [1; 2; 3; 4]%Z) 4 = Some sched /\
    length sched = 4 * (10 + 1) /\
    firstn (length [1; 2; 3; 4]%Z) sched = [1; 2; 3; 4]%Z /\
    forall i, length [1; 2; 3; 4]%Z <= i < 4 * (10 + 1) ->
              i mod length [1; 2; 3; 4]%Z = 0 ->
              round_word (length [1; 2; 3; 4]%Z) sched i.
Proof.
  apply (expandKey_round_words [1; 2; 3; 4]%Z 10); cbn [length]; lia.
Defined.

End ScheduleRoundWords.

(** ** aes.go: the round transformations and their inverses *)

Section RoundSteps.
Import aes matrix.

Lemma sample_state_is_state : is_state sample_state.
Proof. apply is_state_intro. apply Forall_is_byteb. reflexivity. Qed.

(** X27: on a state, [subBytes] and [subBytesInverse] return states and
    each undoes the other. *)
Theorem subBytes_inverse (s : Matrix) :
  is_state s ->
  (exists s', subBytes s = Some s' /\ is_state s' /\
              subBytesInverse s' = Some s) /\
  (exists s', subBytesInverse s = Some s' /\ is_state s' /\
              subBytes s' = Some s).
Proof.
  intros Hs. split.
  - apply subBytes_state. exact Hs.
  - apply subBytesInverse_state. exact Hs.
Qed.

Lemma subBytes_inverse_witness :
  (exists s', subBytes sample_state = Some s' /\ is_state s' /\
              subBytesInverse s' = Some sample_state) /\
  (exists s', subBytesInverse sample_state = Some s' /\ is_state s' /\
              subBytes s' = Some sample_state).
Proof. apply (subBytes_inverse sample_state). exact sample_state_is_state. Defined.

(** X28: on a state, [shiftRows] rotates row [i] to the left by [i]
    places, and [shiftRowsInverse] undoes it, in either order. *)
Theorem shiftRows_inverse (s : Matrix) :
  is_state s ->
  (exists s', shiftRows s = Some s' /\ is_state s' /\
              (forall i, i < 4 ->
                 nth i s' [] = skipn i (nth i s []) ++ firstn i (nth i s [])) /\
              shiftRowsInverse s' = Some s) /\
  (exists s', shiftRowsInverse s = Some s' /\ is_state s' /\
              shiftRows s' = Some s).
Proof.
  intros Hs. split; [|apply shiftRowsInverse_state; exact Hs].
  state_shape s Hs. split_Forall.
  eexists. split; [run; reflexivity|]. split; [|split].
  - apply is_state_intro. solve_Forall.
  - intros i Hi. destruct i as [|[|[|[|i]]]]; try lia; reflexivity.
  - reflexivity.
Qed.

Lemma shiftRows_inverse_witness :
  (exists s', shiftRows sample_state = Some s' /\ is_state s' /\
              (forall i, i < 4 ->
                 nth i s' []
                 = skipn i (nth i sample_state []) ++ firstn i (nth i sample_state [])) /\
              shiftRowsInverse s' = Some sample_state) /\
  (exists s', shiftRowsInverse sample_state = Some s' /\ is_state s' /\
              shiftRows s' = Some sample_state).
Proof. apply (shiftRows_inverse sample_state). exact sample_state_is_state. Defined.

(** X29: on a state, [mixColumns] with the forward polynomials and
    [mixColumns] with the inverse polynomials return states and each
    undoes the other. *)
Theorem mixColumns_inverse (s : Matrix) :
  is_state s ->
  (exists s', mixColumns s mixColumnPolynomials = Some s' /\ is_state s' /\
              mixColumns s' mixColumnPolynomialsInverse = Some s) /\
  (exists s', mixColumns s mixColumnPolynomialsInverse = Some s' /\
              is_state s' /\ mixColumns s' mixColumnPolynomials = Some s).
Proof.
  intros Hs. split.
  - apply mixColumns_state. exact Hs.
  - apply mixColumnsInverse_state. exact Hs.
Qed.

Lemma mixColumns_inverse_witness :
  (exists s', mixColumns sample_state mixColumnPolynomials = Some s' /\
              is_state s' /\
              mixColumns s' mixColumnPolynomialsInverse = Some sample_state) /\
  (exists s', mixColumns sample_state mixColumnPolynomialsInverse = Some s' /\
              is_state s' /\
              mixColumns s' mixColumnPolynomials = Some sample_state).
Proof. apply (mixColumns_inverse sample_state). exact sample_state_is_state. Defined.

(** X30: [addRoundKey] xors column [i] of the state with the bytes of the
    schedule word [4 * round + i]; on a state it returns a state, and
    applied again with the same round it gives the state back.  When the
    schedule has no word [4 * round + 3] it panics. *)
Theorem addRoundKey_involutive (sched : list Word) (round : nat) (s : Matrix) :
  is_state s ->
  (round * 4 + 3 < length sched ->
   exists s', addRoundKey s sched round = Some s' /\ is_state s' /\
              (forall i, i < 4 ->
                 ColumnVector s' i
                 = (c <- ColumnVector s i ;;
                    w <- index sched (round * 4 + i) ;;
                    XOR c (Word_Vector w))) /\
              addRoundKey s' sched round = Some s) /\
  (length sched <= round * 4 + 3 -> addRoundKey s sched round = None).
Proof.
  intros Hs. split.
  - intros Hr.
    destruct (index_some sched (round * 4 + 0)) as [w0 H0]; [lia|].
    destruct (index_some sched (round * 4 + 1)) as [w1 H1]; [lia|].
    destruct (index_some sched (round * 4 + 2)) as [w2 H2]; [lia|].
    destruct (index_some sched (round * 4 + 3)) as [w3 H3]; [lia|].
    state_shape s Hs. split_Forall.
    eexists. split.
    { unfold addRoundKey. cbn [foldM seq]. cbv zeta.
      rewrite H0, H1, H2, H3. run. reflexivity. }
    split; [apply is_state_intro; solve_Forall|]. split.
    + intros i Hi.
      destruct i as [|[|[|[|i]]]]; try lia;
        rewrite ?H0, ?H1, ?H2, ?H3; run; reflexivity.
    + unfold addRoundKey. cbn [foldM seq]. cbv zeta.
      rewrite H0, H1, H2, H3. run.
      repeat f_equal; apply lxor_cancel.
  - intros Hr. unfold addRoundKey.
    apply (foldM_panics _ 3); [cbn; auto|].
    intros out.
    destruct (ColumnVector s 3); cbn [bind]; [|reflexivity].
    unfold index.
    replace (nth_error sched (round * 4 + 3)) with (@None Word)
      by (symmetry; apply nth_error_None; exact Hr).
    reflexivity.
Qed.

Lemma addRoundKey_involutive_witness :
  (exists s', addRoundKey sample_state (repeat 0x01020304%Z 4) 0 = Some s' /\
              is_state s' /\
              (forall i, i < 4 ->
                 ColumnVector s' i
                 = (c <- ColumnVector sample_state i ;;
                    w <- index (repeat 0x01020304%Z 4) (0 * 4 + i) ;;
                    XOR c (Word_Vector w))) /\
              addRoundKey s' (repeat 0x01020304%Z 4) 0 = Some sample_state) /\
  addRoundKey sample_state (repeat 0x01020304%Z 4) 1 = None.
Proof.
  split.
  - apply (proj1 (addRoundKey_involutive (repeat 0x01020304%Z 4) 0 sample_state
                    sample_state_is_state)).
    cbn [repeat length]. lia.
  - apply (proj2 (addRoundKey_involutive (repeat 0x01020304%Z 4) 1 sample_state
                    sample_state_is_state)).
    cbn [repeat length]. lia.
Defined.

End RoundSteps.
